(** * obsi-table: the markdown-table engine, embedded and verified

    A shallow embedding of [src/utils/MarkdownParser.ts] (classes
    [MarkdownParser] and [TableValidator]) and of the table operations of
    [TableManager] in [src/components/TableToolbar.ts].

    JavaScript strings are modelled as lists of characters ([list ascii],
    one code unit per element, code units below 256).  Literals are written
    with [str "..."]. *)

From Stdlib Require Import Ascii String List ZArith Lia Bool Arith.
From Stdlib Require Import DecimalString Sorted.
Import ListNotations.

Local Open Scope char_scope.
Local Open Scope list_scope.
Local Open Scope nat_scope.

(* ===================================================================== *)
(** * JavaScript string primitives used by the source *)
(* ===================================================================== *)

Module JS.

Abbreviation jsstring := (list ascii).

Definition str (s : string) : jsstring := list_ascii_of_string s.

(** The characters the source names. *)
Definition nl : ascii := "010".
Definition pipe : ascii := "|".
Definition dquote : ascii := "034".

(** [WhiteSpace] and [LineTerminator] of ECMAScript, among the code units
    below 256: TAB, LF, VT, FF, CR, SP, NBSP.  [String.prototype.trim]
    and the regex class [\s] use the same set. *)
Definition isWhiteSpace (c : ascii) : bool :=
  match nat_of_ascii c with
  | 9 | 10 | 11 | 12 | 13 | 32 | 160 => true
  | _ => false
  end.

Fixpoint trimStart (s : jsstring) : jsstring :=
  match s with
  | c :: s' => if isWhiteSpace c then trimStart s' else s
  | [] => []
  end.

Definition trimEnd (s : jsstring) : jsstring := rev (trimStart (rev s)).

(** [s.trim()] *)
Definition trim (s : jsstring) : jsstring := trimEnd (trimStart s).

(** [a === b] on strings. *)
Definition jsstring_eqb (a b : jsstring) : bool :=
  if list_eq_dec ascii_dec a b then true else false.

(** [s.startsWith(p)] *)
Fixpoint startsWith (p s : jsstring) : bool :=
  match p, s with
  | [], _ => true
  | a :: p', b :: s' => Ascii.eqb a b && startsWith p' s'
  | _ :: _, [] => false
  end.

(** [s.endsWith(p)] *)
Definition endsWith (p s : jsstring) : bool := startsWith (rev p) (rev s).

(** [s.includes(c)] for a one-character needle. *)
Definition includesChar (c : ascii) (s : jsstring) : bool :=
  existsb (Ascii.eqb c) s.

(** [s.slice(a, b)]: a negative index counts from the end, both are
    clamped to [0, length], and an empty range gives the empty string. *)
Definition sliceIndex (len i : Z) : Z :=
  if (i <? 0)%Z then Z.max (len + i) 0 else Z.min i len.

Definition slice (a b : Z) (s : jsstring) : jsstring :=
  let len := Z.of_nat (length s) in
  let from := sliceIndex len a in
  let to := sliceIndex len b in
  firstn (Z.to_nat (to - from)) (skipn (Z.to_nat from) s).

(** [s.split(sep)] for a one-character separator: the first field and
    the fields after it.  A split always yields at least one field. *)
Fixpoint splitFields (sep : ascii) (s : jsstring) : jsstring * list jsstring :=
  match s with
  | [] => ([], [])
  | c :: s' =>
      let (f, fs) := splitFields sep s' in
      if Ascii.eqb c sep then ([], f :: fs) else (c :: f, fs)
  end.

Definition split (sep : ascii) (s : jsstring) : list jsstring :=
  let (f, fs) := splitFields sep s in f :: fs.

(** [parts.join(sep)] *)
Fixpoint join (sep : jsstring) (parts : list jsstring) : jsstring :=
  match parts with
  | [] => []
  | [p] => p
  | p :: rest => p ++ sep ++ join sep rest
  end.

(** [arr[i]] for an integer index: [None] is [undefined]. *)
Definition index {A} (l : list A) (i : Z) : option A :=
  if (i <? 0)%Z then None else nth_error l (Z.to_nat i).

(** [arr.pop()]: the array without its last element. *)
Definition pop {A} (l : list A) : list A := removelast l.

(** [arr.splice(i, 1)] for [0 <= i]: the removed element ([None] when
    there is none at [i], the [undefined] of [splice(i, 1)[0]]) and the
    array left. *)
Definition spliceOut {A} (i : nat) (l : list A) : option A * list A :=
  (nth_error l i, firstn i l ++ skipn (S i) l).

(** [arr.splice(i, 0, x)] for [0 <= i]: [x] inserted before position [i],
    at the end when [i] is beyond it. *)
Definition spliceIn {A} (i : nat) (x : A) (l : list A) : list A :=
  firstn i l ++ x :: skipn i l.

(** Decimal rendering of a number in a template string. *)
Definition showNat (n : nat) : jsstring :=
  str (NilZero.string_of_uint (Nat.to_uint n)).

End JS.

Import JS.

(* ===================================================================== *)
(** * [src/utils/MarkdownParser.ts]: class [MarkdownParser] *)
(* ===================================================================== *)

Module MarkdownParser.

(** [TableCell]: the optional [alignment] field is never written nor
    read by the source and is left out. *)
Record TableCell := mkCell { content : jsstring }.

Record TableRow := mkRow { cells : list TableCell }.

Record ParsedTable := mkTable {
  headers : TableRow;
  separator : list jsstring;
  rows : list TableRow;
  startLine : nat;
  endLine : nat
}.

(** [isTableLine]: [line.trim().startsWith('|') && line.trim().endsWith('|')] *)
Definition isTableLine (line : jsstring) : bool :=
  startsWith [pipe] (trim line) && endsWith [pipe] (trim line).

(** The character class of [/^[\|\s\-:]+$/]. *)
Definition isSeparatorChar (c : ascii) : bool :=
  Ascii.eqb c pipe || isWhiteSpace c || Ascii.eqb c "-" || Ascii.eqb c ":".

(** [/^[\|\s\-:]+$/.test(s)]: one or more characters, all of the class. *)
Definition separatorRegex (s : jsstring) : bool :=
  match s with
  | [] => false
  | _ => forallb isSeparatorChar s
  end.

Definition isSeparatorLine (line : jsstring) : bool :=
  let trimmed := trim line in
  startsWith [pipe] trimmed && endsWith [pipe] trimmed && separatorRegex trimmed.

Definition parseTableRow (line : jsstring) : TableRow :=
  let trimmed := trim line in
  let content := slice 1 (-1) trimmed in
  mkRow (map (fun cell => mkCell (trim cell)) (split pipe content)).

Definition parseSeparator (line : jsstring) : list jsstring :=
  let trimmed := trim line in
  let content := slice 1 (-1) trimmed in
  map trim (split pipe content).

(** The first loop of [parseTable]: advance [currentLine] over the lines
    that are not table lines.  [ls] are the lines from [currentLine] on;
    the result is the index reached and the lines from there on. *)
Fixpoint findTableStart (currentLine : nat) (ls : list jsstring)
  : option (nat * jsstring * list jsstring) :=
  match ls with
  | [] => None
  | l :: ls' =>
      if isTableLine l then Some (currentLine, l, ls')
      else findTableStart (S currentLine) ls'
  end.

(** The last loop of [parseTable]: the rows are the table lines that
    follow the separator, up to the first line that is not one. *)
Fixpoint parseRows (ls : list jsstring) : list TableRow :=
  match ls with
  | [] => []
  | l :: ls' => if isTableLine l then parseTableRow l :: parseRows ls' else []
  end.

(** [parseTable(content, startLine)]; [None] is [null]. *)
Definition parseTable (content : jsstring) (startLine : nat) : option ParsedTable :=
  let lines := split nl content in
  match findTableStart startLine (skipn startLine lines) with
  | None => None
  | Some (tableStartLine, headerLine, rest) =>
      let headers := parseTableRow headerLine in
      match rest with
      | [] => None
      | separatorLine :: rest' =>
          if negb (isSeparatorLine separatorLine) then None
          else
            let separator := parseSeparator separatorLine in
            let rows := parseRows rest' in
            (* currentLine = tableStartLine + 2 + rows.length *)
            Some (mkTable headers separator rows tableStartLine
                    (tableStartLine + 2 + length rows - 1))
      end
  end.

Definition rowLine (fields : list jsstring) : jsstring :=
  str "| " ++ join (str " | ") fields ++ str " |".

(** [generateTable(table)], the signature taking a [ParsedTable]. *)
Definition generateTable (table : ParsedTable) : jsstring :=
  let headerLine := rowLine (map content (cells (headers table))) in
  let separatorLine := rowLine (separator table) in
  let rowLines := map (fun row => rowLine (map content (cells row))) (rows table) in
  join [nl] (headerLine :: separatorLine :: rowLines).

(** The padding loop of the legacy signature:
    [while (paddedRow.length < headers.length) paddedRow.push('')]. *)
Definition padRow (n : nat) (row : list jsstring) : list jsstring :=
  row ++ repeat [] (n - length row).

(** [generateTable(headers, rows)], the legacy signature, called without
    [alignments]: every separator token is ['---'] and every row is
    padded and cut to the number of headers. *)
Definition generateTableLegacy (headers : list jsstring) (rows : list (list jsstring)) : jsstring :=
  let headerLine := rowLine headers in
  let separatorLine := rowLine (map (fun _ => str "---") headers) in
  let rowLines :=
    map (fun row => rowLine (firstn (length headers) (padRow (length headers) row))) rows in
  join [nl] (headerLine :: separatorLine :: rowLines).

(** The [alignments] of the legacy signature. *)
Inductive Alignment := AlignLeft | AlignCenter | AlignRight.

(** [alignments?.[index] || 'left'], and the token of the [switch]. *)
Definition alignmentToken (alignments : list Alignment) (index : nat) : jsstring :=
  match nth_error alignments index with
  | Some AlignCenter => str ":---:"
  | Some AlignRight => str "---:"
  | _ => str "---"
  end.

(** [headers.map((_, index) => ...)] *)
Fixpoint mapIndexFrom {A B : Type} (f : A -> nat -> B) (index : nat) (l : list A) : list B :=
  match l with
  | [] => []
  | x :: l' => f x index :: mapIndexFrom f (S index) l'
  end.

(** [generateTable(headers, rows, alignments)], the legacy signature with
    its third argument; a call without [alignments] is a call with the
    empty list. *)
Definition generateTableAligned (headers : list jsstring) (rows : list (list jsstring))
           (alignments : list Alignment) : jsstring :=
  let headerLine := rowLine headers in
  let separatorLine :=
    rowLine (mapIndexFrom (fun _ index => alignmentToken alignments index) 0 headers) in
  let rowLines :=
    map (fun row => rowLine (firstn (length headers) (padRow (length headers) row))) rows in
  join [nl] (headerLine :: separatorLine :: rowLines).

(** [createEmptyTable(rows, cols)] *)
Definition createEmptyTable (rows cols : nat) : jsstring :=
  let headers := map (fun i => str "Header " ++ showNat (i + 1)) (seq 0 cols) in
  let tableRows := repeat (repeat [] cols) rows in
  generateTableLegacy headers tableRows.

(** [isTableLine(lines[i])]: [None] is the [TypeError] of reading [trim]
    of [undefined], when there is no line [i]. *)
Definition isTableLineAt (lines : list jsstring) (i : nat) : option bool :=
  option_map isTableLine (nth_error lines i).

(** The first loop of [getTableAtCursor]: go up while the line is a table
    line, down to line 0, which the loop does not test. *)
Fixpoint scanUp (lines : list jsstring) (startLine : nat) : option nat :=
  match startLine with
  | 0 => Some 0
  | S above =>
      match isTableLineAt lines startLine with
      | None => None
      | Some true => scanUp lines above
      | Some false => Some startLine
      end
  end.

(** What a call of [getTableAtCursor] does: it throws, or it returns a
    table or null. *)
Inductive Located :=
| Thrown
| Returned (table : option ParsedTable).

(** [getTableAtCursor(content, cursorLine)] for a cursor line that is a
    natural number. *)
Definition getTableAtCursor (content : jsstring) (cursorLine : nat) : Located :=
  let lines := split nl content in
  match scanUp lines cursorLine with
  | None => Thrown
  | Some startLine =>
      (* If we're not on a table line, look forward *)
      match isTableLineAt lines startLine with
      | None => Thrown
      | Some onTable =>
          let startLine := if onTable then startLine else S startLine in
          (* Check if we found a table *)
          if length lines <=? startLine then Returned None
          else match isTableLineAt lines startLine with
               | None => Thrown
               | Some false => Returned None
               | Some true => Returned (parseTable content startLine)
               end
      end
  end.

End MarkdownParser.

Import MarkdownParser.

(* ===================================================================== *)
(** * [src/utils/MarkdownParser.ts]: class [TableValidator] *)
(* ===================================================================== *)

Module TableValidator.

Record ValidationResult := mkResult {
  isValid : bool;
  errors : list jsstring;
  warnings : list jsstring
}.

Definition pushError (msg : jsstring) (r : ValidationResult) : ValidationResult :=
  mkResult (isValid r) (errors r ++ [msg]) (warnings r).

Definition pushWarning (msg : jsstring) (r : ValidationResult) : ValidationResult :=
  mkResult (isValid r) (errors r) (warnings r ++ [msg]).

Definition setInvalid (r : ValidationResult) : ValidationResult :=
  mkResult false (errors r) (warnings r).

(** [arr.forEach((x, index) => ...)] over a callback that updates the
    result object. *)
Fixpoint forEachFrom {A St : Type} (f : A -> nat -> St -> St) (index : nat) (l : list A) (s : St) : St :=
  match l with
  | [] => s
  | x :: l' => forEachFrom f (S index) l' (f x index s)
  end.

Definition forEach {A St : Type} (f : A -> nat -> St -> St) (l : list A) (s : St) : St :=
  forEachFrom f 0 l s.

(** [/^:?-+:?$/.test(sep)] *)
Fixpoint dropDashes (s : jsstring) : jsstring :=
  match s with
  | c :: s' => if Ascii.eqb c "-" then dropDashes s' else s
  | [] => []
  end.

Definition tokenRegex (sep : jsstring) : bool :=
  let afterColon := match sep with
                    | c :: s' => if Ascii.eqb c ":" then s' else sep
                    | [] => sep
                    end in
  match afterColon with
  | c :: _ =>
      Ascii.eqb c "-" &&
      match dropDashes afterColon with
      | [] => true
      | [c'] => Ascii.eqb c' ":"
      | _ => false
      end
  | [] => false
  end.

Definition rowMismatchMsg (index len expected : nat) : jsstring :=
  str "Row " ++ showNat (index + 1) ++ str " has " ++ showNat len
    ++ str " columns, expected " ++ showNat expected.

Definition headerEmptyMsg (index : nat) : jsstring :=
  str "Header " ++ showNat (index + 1) ++ str " is empty".

Definition invalidSeparatorMsg (index : nat) (sep : jsstring) : jsstring :=
  str "Invalid separator format in column " ++ showNat (index + 1) ++ str ": " ++ sep.

(** [!s] for a string [s]: only the empty string is falsy. *)
Definition isEmpty (s : jsstring) : bool :=
  match s with [] => true | _ => false end.

(** [validateTable(table)] *)
Definition validateTable (table : ParsedTable) : ValidationResult :=
  let result := mkResult true [] [] in
  (* Check if table has headers *)
  let result :=
    if length (cells (headers table)) =? 0
    then setInvalid (pushError (str "Table must have headers") result)
    else result in
  (* Check if separator matches headers *)
  let result :=
    if negb (length (separator table) =? length (cells (headers table)))
    then setInvalid (pushError (str "Separator row must match number of headers") result)
    else result in
  (* Check row consistency *)
  let expectedColumns := length (cells (headers table)) in
  let result :=
    forEach (fun row index result =>
               if negb (length (cells row) =? expectedColumns)
               then pushWarning (rowMismatchMsg index (length (cells row)) expectedColumns) result
               else result)
            (rows table) result in
  (* Check for empty headers *)
  let result :=
    forEach (fun cell index result =>
               if isEmpty (trim (content cell))
               then pushWarning (headerEmptyMsg index) result
               else result)
            (cells (headers table)) result in
  (* Check separator format *)
  forEach (fun sep index result =>
             if negb (tokenRegex sep)
             then setInvalid (pushError (invalidSeparatorMsg index sep) result)
             else result)
          (separator table) result.

(** [s.toLowerCase()] on code units below 256: A-Z, and the accented
    capitals 192-222 except the multiplication sign 215. *)
Definition toLowerChar (c : ascii) : ascii :=
  let n := nat_of_ascii c in
  if ((65 <=? n) && (n <=? 90)) || ((192 <=? n) && (n <=? 222) && negb (n =? 215))
  then ascii_of_nat (n + 32) else c.

Definition toLowerCase (s : jsstring) : jsstring := map toLowerChar s.

(** [headerSet.has(key)] for the [Set] of the keys added so far. *)
Definition setHas (key : jsstring) (set : list jsstring) : bool :=
  existsb (jsstring_eqb key) set.

Definition duplicateHeaderMsg (header : jsstring) : jsstring :=
  str "Duplicate header found: " ++ [dquote] ++ header ++ [dquote].

Definition tooManyColumnsMsg (index len expected : nat) : jsstring :=
  rowMismatchMsg index len expected ++ str ". Extra columns will be ignored.".

Definition tooFewColumnsMsg (index len expected : nat) : jsstring :=
  rowMismatchMsg index len expected ++ str ". Missing columns will be filled with empty cells.".

(** A row as [validateTableData] may receive it: an array of cells, or a
    value for which [Array.isArray] is false. *)
Inductive RowValue :=
| ArrayRow (row : list jsstring)
| NotArray.

Definition notArrayMsg (index : nat) : jsstring :=
  str "Row " ++ showNat (index + 1) ++ str " is not a valid array".

(** [validateTableData(headers, rows)]; [rows = None] is a missing
    [rows] argument.  The state of the header loop is the result and the
    [Set] of normalised names. *)
Definition validateTableData (headers : list jsstring) (rows : option (list RowValue))
  : ValidationResult :=
  let result := mkResult true [] [] in
  let result :=
    if length headers =? 0
    then setInvalid (pushError (str "Table must have at least one header") result)
    else result in
  (* Check for duplicate headers *)
  let '(result, _) :=
    forEach (fun header index '(result, headerSet) =>
               let key := toLowerCase (trim header) in
               let result :=
                 if setHas key headerSet
                 then pushWarning (duplicateHeaderMsg header) result else result in
               let headerSet := headerSet ++ [key] in
               let result :=
                 if isEmpty (trim header)
                 then pushWarning (headerEmptyMsg index) result else result in
               (result, headerSet))
            headers (result, []) in
  match rows with
  | None => pushWarning (str "Table has no data rows") result
  | Some rows =>
      let expectedColumns := length headers in
      forEach (fun row rowIndex result =>
                 match row with
                 | NotArray => setInvalid (pushError (notArrayMsg rowIndex) result)
                 | ArrayRow row =>
                     if expectedColumns <? length row
                     then pushWarning (tooManyColumnsMsg rowIndex (length row) expectedColumns)
                            result
                     else if length row <? expectedColumns
                     then pushWarning (tooFewColumnsMsg rowIndex (length row) expectedColumns)
                            result
                     else result
                 end)
              rows result
  end.

(** [s.replace(/\|/g, '\\|')] *)
Definition escapePipes (s : jsstring) : jsstring :=
  flat_map (fun c => if Ascii.eqb c pipe then ["\"; pipe] else [c]) s.

(** [s.replace(/\n/g, ' ')] *)
Definition newlinesToSpaces (s : jsstring) : jsstring :=
  map (fun c => if Ascii.eqb c nl then " " else c) s.

(** [header.replace(/\|/g, '\\|').trim() || 'Header'] *)
Definition sanitizeHeader (header : jsstring) : jsstring :=
  match trim (escapePipes header) with
  | [] => str "Header"
  | t => t
  end.

Definition sanitizeCell (cell : jsstring) : jsstring :=
  trim (newlinesToSpaces (escapePipes cell)).

(** [sanitizeTableData(headers, rows)] *)
Definition sanitizeTableData (headers : list jsstring) (rows : list (list jsstring))
  : list jsstring * list (list jsstring) :=
  let sanitizedHeaders := map sanitizeHeader headers in
  let sanitizedRows :=
    map (fun row =>
           let sanitizedRow := map sanitizeCell row in
           firstn (length sanitizedHeaders) (padRow (length sanitizedHeaders) sanitizedRow))
        rows in
  (sanitizedHeaders, sanitizedRows).

(** [isValidTablePosition(content, line)] *)
Definition isValidTablePosition (content : jsstring) (line : Z) : bool :=
  let lines := split nl content in
  if ((line <? 0) || (line >=? Z.of_nat (length lines)))%Z then false
  else
    let currentLine := trim (nth (Z.to_nat line) lines []) in
    startsWith [pipe] currentLine && endsWith [pipe] currentLine.

(** The class has its own private [isTableLine]. *)
Module Private.
Definition isTableLine (line : jsstring) : bool :=
  let trimmed := trim line in
  startsWith [pipe] trimmed && endsWith [pipe] trimmed.
End Private.

(** The loop [while (start > 0 && isTableLine(lines[start - 1])) start--];
    [start - 1] is a line of the text, as [start] is. *)
Fixpoint boundaryStart (lines : list jsstring) (start : nat) : nat :=
  match start with
  | 0 => 0
  | S above =>
      if Private.isTableLine (nth above lines []) then boundaryStart lines above else start
  end.

(** The loop [while (end < lines.length - 1 && isTableLine(lines[end + 1]))
    end++], over [below], the lines after line [end]. *)
Fixpoint boundaryEnd (end_ : nat) (below : list jsstring) : nat :=
  match below with
  | [] => end_
  | l :: below' => if Private.isTableLine l then boundaryEnd (S end_) below' else end_
  end.

(** [findTableBoundaries(content, cursorLine)]; [None] is null. *)
Definition findTableBoundaries (content : jsstring) (cursorLine : Z) : option (nat * nat) :=
  let lines := split nl content in
  if negb (isValidTablePosition content cursorLine) then None
  else
    let cursor := Z.to_nat cursorLine in
    Some (boundaryStart lines cursor, boundaryEnd cursor (skipn (S cursor) lines)).

End TableValidator.

(* ===================================================================== *)
(** * [src/components/TableToolbar.ts]: class [TableManager] *)
(* ===================================================================== *)

Module TableManager.

(** ** The regular expressions of the source

    Every pattern the table operations use is a sequence of literal
    texts and greedy negated-class stars, with at most one capture
    group, itself such a star. *)
Inductive Piece :=
| Lit (s : jsstring)      (* literal text *)
| NotStar (c : ascii)     (* a star over the characters other than c *)
| Group (c : ascii).      (* the same star, as capture group 1 *)

Definition Continuation := jsstring -> option (jsstring * jsstring).

Fixpoint stripPrefix (p s : jsstring) : option jsstring :=
  match p, s with
  | [], _ => Some s
  | a :: p', b :: s' => if Ascii.eqb a b then stripPrefix p' s' else None
  | _ :: _, [] => None
  end.

(** A greedy star with backtracking: the longest run is tried first, and
    one character is given back each time the rest of the pattern
    fails. *)
Fixpoint star (capture : bool) (c : ascii) (k : Continuation) (s : jsstring)
  : option (jsstring * jsstring) :=
  match s with
  | x :: s' =>
      if Ascii.eqb x c then k s
      else match star capture c k s' with
           | Some (cap, rest) => Some (if capture then x :: cap else cap, rest)
           | None => k s
           end
  | [] => k []
  end.

(** A match of the pattern at the start of [s]: the text of the capture
    group and what follows the match. *)
Fixpoint matchPieces (ps : list Piece) : Continuation :=
  match ps with
  | [] => fun s => Some ([], s)
  | Lit l :: ps' =>
      fun s => match stripPrefix l s with
               | Some s' => matchPieces ps' s'
               | None => None
               end
  | NotStar c :: ps' => star false c (matchPieces ps')
  | Group c :: ps' => star true c (matchPieces ps')
  end.

(** [s.replace(/pattern/g, replacement)]: the matches are found from left
    to right and do not overlap.  [skip] counts the characters of the
    last match still to pass over.  Every pattern of the source starts
    with a literal, so a match is never empty. *)
Fixpoint replaceAllFrom (ps : list Piece) (repl : jsstring -> jsstring)
         (skip : nat) (s : jsstring) : jsstring :=
  match s with
  | [] => []
  | c :: s' =>
      match skip with
      | S k => replaceAllFrom ps repl k s'
      | O =>
          match matchPieces ps s with
          | Some (cap, rest) =>
              repl cap ++ replaceAllFrom ps repl (length s - length rest - 1) s'
          | None => c :: replaceAllFrom ps repl 0 s'
          end
      end
  end.

Definition replaceAll (ps : list Piece) (repl : jsstring -> jsstring) (s : jsstring) : jsstring :=
  replaceAllFrom ps repl 0 s.

(** The replacement ['$1']. *)
Definition group1 (cap : jsstring) : jsstring := cap.

(** A replacement without group reference. *)
Definition text (t : jsstring) (cap : jsstring) : jsstring := t.

(** [stripHtmlTags(content)] *)
Definition stripHtmlTags (content : jsstring) : jsstring :=
  let s := replaceAll [Lit (str "<"); NotStar ">"; Lit (str ">")] (text []) content in
  let s := replaceAll [Lit (str "&nbsp;")] (text (str " ")) s in
  let s := replaceAll [Lit (str "&amp;")] (text (str "&")) s in
  let s := replaceAll [Lit (str "&lt;")] (text (str "<")) s in
  let s := replaceAll [Lit (str "&gt;")] (text (str ">")) s in
  let s := replaceAll [Lit (str "&quot;")] (text [dquote]) s in
  let s := replaceAll [Lit (str "&#39;")] (text (str "'")) s in
  trim s.

(** The pattern for [td] and for [span]: the opening tag with a style
    attribute that sets a background-color, a text without '<' as group
    1, and the closing tag. *)
Definition styledTagRegex (tag : jsstring) : list Piece :=
  [ Lit (str "<" ++ tag); NotStar ">"; Lit (str "style=" ++ [dquote]); NotStar dquote;
    Lit (str "background-color:"); NotStar dquote; Lit [dquote]; NotStar ">";
    Lit (str ">"); Group "<"; Lit (str "</" ++ tag ++ str ">") ].

(** The pattern for [mark]: any opening [mark] tag, a text without '<'
    as group 1, and the closing tag. *)
Definition markRegex : list Piece :=
  [ Lit (str "<mark"); NotStar ">"; Lit (str ">"); Group "<"; Lit (str "</mark>") ].

(** The pattern for the wrapper of [applyCellColor] itself: an opening
    [div] tag whose class starts with cell-bg-, a text without '<' as
    group 1, and the closing tag. *)
Definition divRegex : list Piece :=
  [ Lit (str "<div"); NotStar ">"; Lit (str "class=" ++ [dquote] ++ str "cell-bg-");
    NotStar dquote; Lit [dquote]; NotStar ">"; Lit (str ">"); Group "<";
    Lit (str "</div>") ].

(** [color.replace('#', '')]: a string pattern replaces the first
    occurrence only. *)
Fixpoint removeFirst (c : ascii) (s : jsstring) : jsstring :=
  match s with
  | x :: s' => if Ascii.eqb x c then s' else x :: removeFirst c s'
  | [] => []
  end.

(** The class [a-zA-Z0-9]. *)
Definition isAlphaNum (c : ascii) : bool :=
  let n := nat_of_ascii c in
  ((97 <=? n) && (n <=? 122)) || ((65 <=? n) && (n <=? 90)) || ((48 <=? n) && (n <=? 57)).

(** [getColorClass(color)] *)
Definition getColorClass (color : jsstring) : jsstring :=
  let colorHash := filter isAlphaNum (removeFirst "#" color) in
  str "cell-bg-" ++ colorHash.

(** The cleaning steps that open [applyCellColor]. *)
Definition cleanContent (content : jsstring) : jsstring :=
  let c := replaceAll (styledTagRegex (str "td")) group1 content in
  let c := replaceAll (styledTagRegex (str "span")) group1 c in
  let c := replaceAll markRegex group1 c in
  replaceAll divRegex group1 c.

(** [applyCellColor(cell, color)]: the new value of the cell.  The style
    rule that [addColorCSS] adds to the document is not part of the
    table model. *)
Definition applyCellColor (cell : TableCell) (color : jsstring) : TableCell :=
  let clean := cleanContent (content cell) in
  match color with
  | _ :: _ =>
      let colorClass := getColorClass color in
      let contentToWrap := match trim clean with [] => str "&nbsp;" | _ => clean end in
      mkCell (str "<div class=" ++ [dquote] ++ colorClass ++ [dquote] ++ str ">"
                ++ contentToWrap ++ str "</div>")
  | [] => mkCell clean
  end.

(** ** The engine state and the cursor *)

Record Engine := mkEngine {
  sortAscending : bool;
  lastSortedColumn : Z;
  lastModifiedRow : Z;
  lastModifiedColumn : Z
}.

(** The field initialisers of the class. *)
Definition newEngine : Engine := mkEngine true (-1) (-1) (-1).

Record Cursor := mkCursor { line : Z; ch : Z }.

Definition columnCount (table : ParsedTable) : Z :=
  Z.of_nat (length (cells (headers table))).

(** [getCursorRowIndex(table, cursorLine)] *)
Definition getCursorRowIndex (table : ParsedTable) (cursorLine : Z) : Z :=
  let dataRowStartLine := (Z.of_nat (startLine table) + 2)%Z in
  let rowIndex := (cursorLine - dataRowStartLine)%Z in
  if ((0 <=? rowIndex) && (rowIndex <? Z.of_nat (length (rows table))))%Z
  then rowIndex else (-1)%Z.

(** The loop that collects [pipePositions], from character index [i]. *)
Fixpoint pipePositionsFrom (i : Z) (s : jsstring) : list Z :=
  match s with
  | [] => []
  | c :: s' =>
      if Ascii.eqb c pipe then i :: pipePositionsFrom (i + 1) s'
      else pipePositionsFrom (i + 1) s'
  end.

Definition pipePositions (s : jsstring) : list Z := pipePositionsFrom 0 s.

(** The loop over the pairs of neighbouring pipes, from column [i]: the
    first column whose pipes enclose [ch], or -1. *)
Fixpoint findColumn (ch : Z) (i : Z) (positions : list Z) : Z :=
  match positions with
  | startPipe :: ((endPipe :: _) as rest) =>
      if ((ch >? startPipe) && (ch <=? endPipe))%Z then i
      else findColumn ch (i + 1) rest
  | _ => (-1)%Z
  end.

(** [lines[i] || ''] *)
Definition lineOrEmpty (lines : list jsstring) (i : Z) : jsstring :=
  match index lines i with Some l => l | None => [] end.

(** The line [getCursorColumnIndex] measures: the cursor line when it is
    inside the table, the header line otherwise. *)
Definition targetLine (lines : list jsstring) (table : ParsedTable) (cursor : Cursor) : jsstring :=
  if ((line cursor >=? Z.of_nat (startLine table)) && (line cursor <=? Z.of_nat (endLine table)))%Z
  then lineOrEmpty lines (line cursor)
  else lineOrEmpty lines (Z.of_nat (startLine table)).

(** [getCursorColumnIndex(table, cursor)], with [lines] the lines of the
    editor's text. *)
Definition getCursorColumnIndex (lines : list jsstring) (table : ParsedTable) (cursor : Cursor) : Z :=
  let targetLine := targetLine lines table cursor in
  if negb (includesChar pipe targetLine) then (-1)%Z
  else
    let positions := pipePositions targetLine in
    if length positions <? 2 then (-1)%Z
    else
      let columnIndex := findColumn (ch cursor) 0 positions in
      (* cursor at the very beginning (before first pipe) *)
      let columnIndex :=
        if ((columnIndex =? -1) && (ch cursor <=? nth 0 positions 0))%Z
        then 0%Z else columnIndex in
      (* cursor at the very end (after last pipe) *)
      let columnIndex :=
        if ((columnIndex =? -1) && (ch cursor >? nth (length positions - 1) positions 0))%Z
        then (Z.of_nat (length positions) - 2)%Z else columnIndex in
      (* Validate column index *)
      if ((columnIndex >=? 0) && (columnIndex <? columnCount table))%Z
      then columnIndex else (-1)%Z.

(** ** [sortTable] *)

Inductive SortOutcome :=
| SortRefused (notice : jsstring)
    (* an early return: nothing is sorted, the state is untouched *)
| SortRan (sortColumnIndex : Z) (table : ParsedTable)
    (* the rows were sorted in place *)
| SortScheduled (sortColumnIndex : Z).
    (* a table of more than 5000 cells: the sort runs later, from a timer *)

(** How the column to sort is chosen, before it is validated. *)
Definition chooseSortColumn (specifiedColumn : option Z) (cursorColumn : Z)
           (eng : Engine) (table : ParsedTable) : Z :=
  match specifiedColumn with
  | Some c => c
  | None =>
      if ((cursorColumn >=? 0) && (lastSortedColumn eng >=? 0)
          && negb (cursorColumn =? lastSortedColumn eng))%Z
      then cursorColumn
      else if ((lastSortedColumn eng >=? 0) && (lastSortedColumn eng <? columnCount table))%Z
      then lastSortedColumn eng
      else if (cursorColumn >=? 0)%Z then cursorColumn
      else 0%Z
  end.

(** The column the call sorts: the chosen one, or 0 when that is not a
    column of the table. *)
Definition resolveSortColumn (specifiedColumn : option Z) (cursorColumn : Z)
           (eng : Engine) (table : ParsedTable) : Z :=
  let sortColumnIndex := chooseSortColumn specifiedColumn cursorColumn eng table in
  if ((sortColumnIndex <? 0) || (sortColumnIndex >=? columnCount table))%Z
  then 0%Z else sortColumnIndex.

(** [a.cells[sortColumnIndex]?.content || ''] *)
Definition cellValue (row : TableRow) (col : Z) : jsstring :=
  match index (cells row) col with Some c => content c | None => [] end.

Section Sorting.

(** What the embedding does not compute: the comparison of two
    stripped values ([parseFloat] on both and their difference when
    neither is NaN, [localeCompare] otherwise), and the sort of the
    JavaScript engine. *)
Variable compareValues : jsstring -> jsstring -> Z.
Variable arraySort : (TableRow -> TableRow -> Z) -> list TableRow -> list TableRow.

(** The comparator handed to [table.rows.sort]. *)
Definition rowComparator (ascending : bool) (sortColumnIndex : Z) (a b : TableRow) : Z :=
  let aVal := stripHtmlTags (cellValue a sortColumnIndex) in
  let bVal := stripHtmlTags (cellValue b sortColumnIndex) in
  let comparison := compareValues aVal bVal in
  if ascending then comparison else (- comparison)%Z.

(** [sortTable(specifiedColumn)] on the table found at the cursor.  The
    write-back of the sorted table, the cursor restoration and the
    final notice follow the sort and are not modelled. *)
Definition sortTable (enableSorting : bool) (lines : list jsstring) (cursor : Cursor)
           (table : ParsedTable) (specifiedColumn : option Z) (eng : Engine)
  : Engine * SortOutcome :=
  if negb enableSorting then (eng, SortRefused (str "Sorting is disabled in settings"))
  else if length (rows table) =? 0
  then (eng, SortRefused (str "Cannot sort: table has no data rows"))
  else
    let originalCursorColumnIndex := getCursorColumnIndex lines table cursor in
    let sortColumnIndex :=
      resolveSortColumn specifiedColumn originalCursorColumnIndex eng table in
    (* Handle direction toggle - only toggle if same column as last sorted *)
    let ascending :=
      if (lastSortedColumn eng =? sortColumnIndex)%Z
      then negb (sortAscending eng) else true in
    let eng' :=
      mkEngine ascending sortColumnIndex (lastModifiedRow eng) (lastModifiedColumn eng) in
    let tableSize := length (rows table) * length (cells (headers table)) in
    if 5000 <? tableSize then (eng', SortScheduled sortColumnIndex)
    else
      let sorted := arraySort (rowComparator ascending sortColumnIndex) (rows table) in
      (eng', SortRan sortColumnIndex
               (mkTable (headers table) (separator table) sorted
                  (startLine table) (endLine table))).

End Sorting.

(** ** Row and column deletion

    The commands are modelled from the table that [getTableAtCursor]
    returned; they give the table object as the call leaves it, and what
    the user and the editor see.
    [replaceRange(text, {startLine, 0}, {endLine + 1, 0})] is the only
    write to the editor. *)

Inductive Outcome :=
| Refused (notice : jsstring)
    (* a notice and an early return: nothing is written *)
| Updated (written : jsstring) (notice : jsstring).
    (* the text that replaces the lines of the table, and the notice *)

Definition headerTexts (table : ParsedTable) : list jsstring :=
  map content (cells (headers table)).

Definition rowTexts (table : ParsedTable) : list (list jsstring) :=
  map (fun row => map content (cells row)) (rows table).

(** [deleteRow()] *)
Definition deleteRow (table : ParsedTable) : ParsedTable * Outcome :=
  if length (rows table) =? 0
  then (table, Refused (str "Cannot delete row: table has no data rows"))
  else
    (* Remove last row *)
    let table := mkTable (headers table) (separator table) (pop (rows table))
                   (startLine table) (endLine table) in
    let newTable := generateTableLegacy (headerTexts table) (rowTexts table) in
    (table, Updated (newTable ++ [nl]) (str "Row deleted")).

(** [deleteColumn()] *)
Definition deleteColumn (table : ParsedTable) : ParsedTable * Outcome :=
  if length (cells (headers table)) <=? 1
  then (table, Refused (str "Cannot delete column: table must have at least one column"))
  else
    (* Remove last column from headers, last cell from each row *)
    let headers' := mkRow (pop (cells (headers table))) in
    let rows' :=
      map (fun row => if 0 <? length (cells row) then mkRow (pop (cells row)) else row)
          (rows table) in
    let table := mkTable headers' (separator table) rows' (startLine table) (endLine table) in
    let newTable := generateTableLegacy (headerTexts table) (rowTexts table) in
    (table, Updated (newTable ++ [nl]) (str "Column deleted")).

(** ** [moveColumn]

    [splice(fromIndex, 1)[0]] is [undefined] on an array that has no
    element at [fromIndex], and the second [splice] then inserts that
    [undefined].  The arrays of the table being moved therefore hold
    optional elements, [None] for [undefined]. *)

Record MovedTable := mkMoved {
  movedHeaders : list (option TableCell);
  movedSeparator : list (option jsstring);
  movedRows : list (list (option TableCell))
}.

Definition toMoved (table : ParsedTable) : MovedTable :=
  mkMoved (map Some (cells (headers table)))
          (map Some (separator table))
          (map (fun row => map Some (cells row)) (rows table)).

(** [const x = arr.splice(fromIndex, 1)[0]; arr.splice(toIndex, 0, x)] *)
Definition moveElement {A} (fromIndex toIndex : nat) (arr : list (option A)) : list (option A) :=
  let (removed, arr') := spliceOut fromIndex arr in
  let x := match removed with Some x => x | None => None end in
  spliceIn toIndex x arr'.

(** [cells.map(cell => cell.content)]: reading [content] of [undefined]
    throws, which is [None] here. *)
Fixpoint contents (cs : list (option TableCell)) : option (list jsstring) :=
  match cs with
  | [] => Some []
  | Some c :: cs' =>
      match contents cs' with Some l => Some (content c :: l) | None => None end
  | None :: _ => None
  end.

Fixpoint allContents (rs : list (list (option TableCell))) : option (list (list jsstring)) :=
  match rs with
  | [] => Some []
  | r :: rs' =>
      match contents r, allContents rs' with
      | Some l, Some ls => Some (l :: ls)
      | _, _ => None
      end
  end.

(** [generateTable(table)] on the moved table; [join] prints an
    [undefined] separator token as the empty string.  [None]: a
    [TypeError] is thrown. *)
Definition generateMoved (m : MovedTable) : option jsstring :=
  match contents (movedHeaders m), allContents (movedRows m) with
  | Some hs, Some rs =>
      let seps := map (fun t => match t with Some t => t | None => [] end) (movedSeparator m) in
      Some (join [nl] (rowLine hs :: rowLine seps :: map rowLine rs))
  | _, _ => None
  end.

Inductive MoveOutcome :=
| MoveRefused (notice : jsstring)
    (* a notice and an early return: nothing is written *)
| MoveThrew
    (* [updateTable] threw a TypeError before any write *)
| MoveUpdated (written : jsstring) (notice : jsstring).
    (* the text that replaces the lines of the table, and the notice *)

Definition movedNotice (fromIndex toIndex : Z) : jsstring :=
  str "Column moved from " ++ showNat (Z.to_nat (fromIndex + 1))
    ++ str " to " ++ showNat (Z.to_nat (toIndex + 1)).

(** [moveColumn(fromIndex, toIndex)]: the engine state, the arrays of the
    table object and the outcome when the call ends. *)
Definition moveColumn (table : ParsedTable) (fromIndex toIndex : Z) (eng : Engine)
  : Engine * MovedTable * MoveOutcome :=
  (* Validate indices *)
  if ((fromIndex <? 0) || (fromIndex >=? columnCount table)
      || (toIndex <? 0) || (toIndex >=? columnCount table))%Z
  then (eng, toMoved table, MoveRefused (str "Invalid column indices"))
  else
    let f := Z.to_nat fromIndex in
    let t := Z.to_nat toIndex in
    let m := toMoved table in
    let m := mkMoved (moveElement f t (movedHeaders m))
                     (moveElement f t (movedSeparator m))
                     (map (moveElement f t) (movedRows m)) in
    (* Remember the last modified column position *)
    let eng := mkEngine (sortAscending eng) (lastSortedColumn eng) (lastModifiedRow eng) toIndex in
    match generateMoved m with
    | None => (eng, m, MoveThrew)
    | Some newTable => (eng, m, MoveUpdated (newTable ++ [nl]) (movedNotice fromIndex toIndex))
    end.

(** ** CSV import *)

(** [parseCSVLine(line)]: the loop over the characters, with the state
    it keeps ([inQuotes], [currentCell]). *)
Fixpoint parseCSVLineFrom (inQuotes : bool) (currentCell : jsstring) (line : jsstring)
  : list jsstring :=
  match line with
  | [] => [trim currentCell]
  | char :: rest =>
      if Ascii.eqb char dquote then
        match inQuotes, rest with
        | true, next :: rest' =>
            if Ascii.eqb next dquote
            then parseCSVLineFrom inQuotes (currentCell ++ [dquote]) rest'
            else parseCSVLineFrom (negb inQuotes) currentCell rest
        | _, _ => parseCSVLineFrom (negb inQuotes) currentCell rest
        end
      else if Ascii.eqb char "," && negb inQuotes then
        trim currentCell :: parseCSVLineFrom inQuotes [] rest
      else parseCSVLineFrom inQuotes (currentCell ++ [char]) rest
  end.

Definition parseCSVLine (line : jsstring) : list jsstring :=
  parseCSVLineFrom false [] line.

(** [createMarkdownTableFromData(headers, dataRows)] *)
Definition createMarkdownTableFromData (headers : list jsstring) (dataRows : list (list jsstring))
  : jsstring :=
  let headerLine := rowLine headers in
  let separatorLine := rowLine (map (fun _ => str "---") headers) in
  let rowLines := map rowLine dataRows in
  join [nl] (headerLine :: separatorLine :: rowLines) ++ [nl].

(** A refusal with its notice, or the text inserted at the cursor with
    the notice that follows. *)
Inductive CsvOutcome :=
| CsvRefused (notice : jsstring)
| CsvInserted (table : jsstring) (notice : jsstring).

(** [convertCSVToTable(csvContent)] with an active editor. *)
Definition convertCSVToTable (csvContent : jsstring) : CsvOutcome :=
  let lines := split nl (trim csvContent) in
  if length lines <? 2
  then CsvRefused (str "CSV must have at least a header and one data row")
  else
    let parsedRows := map parseCSVLine lines in
    let headers := hd [] parsedRows in
    let dataRows := tl parsedRows in
    let table := createMarkdownTableFromData headers dataRows in
    CsvInserted table
      (str "CSV imported: " ++ showNat (length headers) ++ str " columns, "
         ++ showNat (length dataRows) ++ str " rows").

(** ** The other structural commands *)

(** [updateTable(editor, table)]: the text that replaces the table. *)
Definition updateTable (table : ParsedTable) : jsstring := generateTable table ++ [nl].

Definition withRows (table : ParsedTable) (rows' : list TableRow) : ParsedTable :=
  mkTable (headers table) (separator table) rows' (startLine table) (endLine table).

Definition withHeadersAndRows (table : ParsedTable) (cells' : list TableCell)
           (rows' : list TableRow) : ParsedTable :=
  mkTable (mkRow cells') (separator table) rows' (startLine table) (endLine table).

(** [Array.from({ length: n }, () => '')] as a row of cells. *)
Definition emptyRow (n : nat) : TableRow := mkRow (repeat (mkCell []) n).

(** [insertRow()] *)
Definition insertRow (table : ParsedTable) : ParsedTable * Outcome :=
  let table := withRows table (rows table ++ [emptyRow (length (cells (headers table)))]) in
  let newTable := generateTableLegacy (headerTexts table) (rowTexts table) in
  (table, Updated (newTable ++ [nl]) (str "Row inserted")).

(** [insertColumn()] *)
Definition insertColumn (table : ParsedTable) : ParsedTable * Outcome :=
  let table :=
    withHeadersAndRows table
      (cells (headers table) ++ [mkCell (str "New Column")])
      (map (fun row => mkRow (cells row ++ [mkCell []])) (rows table)) in
  let newTable := generateTableLegacy (headerTexts table) (rowTexts table) in
  (table, Updated (newTable ++ [nl]) (str "Column inserted")).

(** [insertRowAtCursor()] *)
Definition insertRowAtCursor (table : ParsedTable) (cursor : Cursor) : ParsedTable * Outcome :=
  let cursorRowIndex := getCursorRowIndex table (line cursor) in
  let insertAtIndex :=
    if (cursorRowIndex >=? 0)%Z then Z.to_nat (cursorRowIndex + 1) else length (rows table) in
  let newRowData := emptyRow (length (cells (headers table))) in
  let table := withRows table (spliceIn insertAtIndex newRowData (rows table)) in
  (table, Updated (updateTable table)
            (str "Row inserted at position " ++ showNat (insertAtIndex + 1))).

(** [insertColumnAtCursor()], with [lines] the lines of the editor's
    text. *)
Definition insertColumnAtCursor (lines : list jsstring) (table : ParsedTable) (cursor : Cursor)
  : ParsedTable * Outcome :=
  let cursorColumnIndex := getCursorColumnIndex lines table cursor in
  let insertAtIndex :=
    if (cursorColumnIndex >=? 0)%Z then Z.to_nat (cursorColumnIndex + 1)
    else length (cells (headers table)) in
  let table :=
    withHeadersAndRows table
      (spliceIn insertAtIndex (mkCell (str "New Column")) (cells (headers table)))
      (map (fun row => mkRow (spliceIn insertAtIndex (mkCell []) (cells row))) (rows table)) in
  (table, Updated (updateTable table)
            (str "Column inserted at position " ++ showNat (insertAtIndex + 1))).

(** [deleteRowAtCursor()]; the notice of the deletion comes before the
    write. *)
Definition deleteRowAtCursor (table : ParsedTable) (cursor : Cursor) : ParsedTable * Outcome :=
  if length (rows table) =? 0
  then (table, Refused (str "Cannot delete row: table has no data rows"))
  else
    let cursorRowIndex := getCursorRowIndex table (line cursor) in
    if ((cursorRowIndex >=? 0) && (cursorRowIndex <? Z.of_nat (length (rows table))))%Z
    then
      let table := withRows table (snd (spliceOut (Z.to_nat cursorRowIndex) (rows table))) in
      (table, Updated (updateTable table)
                (str "Row " ++ showNat (Z.to_nat (cursorRowIndex + 1)) ++ str " deleted"))
    else
      let table := withRows table (pop (rows table)) in
      (table, Updated (updateTable table) (str "Last row deleted")).

(** [deleteColumnAtCursor()] *)
Definition deleteColumnAtCursor (lines : list jsstring) (table : ParsedTable) (cursor : Cursor)
  : ParsedTable * Outcome :=
  if length (cells (headers table)) <=? 1
  then (table, Refused (str "Cannot delete column: table must have at least one column"))
  else
    let cursorColumnIndex := getCursorColumnIndex lines table cursor in
    if ((cursorColumnIndex >=? 0) && (cursorColumnIndex <? columnCount table))%Z
    then
      let c := Z.to_nat cursorColumnIndex in
      let table :=
        withHeadersAndRows table
          (snd (spliceOut c (cells (headers table))))
          (map (fun row => if c <? length (cells row)
                           then mkRow (snd (spliceOut c (cells row))) else row)
               (rows table)) in
      (table, Updated (updateTable table)
                (str "Column " ++ showNat (Z.to_nat (cursorColumnIndex + 1)) ++ str " deleted"))
    else
      let table :=
        withHeadersAndRows table
          (pop (cells (headers table)))
          (map (fun row => if 0 <? length (cells row) then mkRow (pop (cells row)) else row)
               (rows table)) in
      (table, Updated (updateTable table) (str "Last column deleted")).

(** [moveRow(fromIndex, toIndex)]: the indices are checked against the
    array that is spliced, so the removed row is never [undefined]. *)
Definition moveRow (table : ParsedTable) (fromIndex toIndex : Z) (eng : Engine)
  : Engine * ParsedTable * Outcome :=
  if ((fromIndex <? 0) || (fromIndex >=? Z.of_nat (length (rows table)))
      || (toIndex <? 0) || (toIndex >=? Z.of_nat (length (rows table))))%Z
  then (eng, table, Refused (str "Invalid row indices"))
  else
    let (removed, rest) := spliceOut (Z.to_nat fromIndex) (rows table) in
    (* the check above makes [removed] a row of the table *)
    let rows' := match removed with
                 | Some row => spliceIn (Z.to_nat toIndex) row rest
                 | None => rest
                 end in
    let table := withRows table rows' in
    let eng := mkEngine (sortAscending eng) (lastSortedColumn eng) toIndex (lastModifiedColumn eng) in
    (eng, table,
     Updated (updateTable table)
       (str "Row moved from " ++ showNat (Z.to_nat (fromIndex + 1))
          ++ str " to " ++ showNat (Z.to_nat (toIndex + 1)))).

(** ** Restoring the cursor *)

(** [restoreCursorToLogicalPosition(editor, table, targetColumnIndex,
    targetRowIndex)], with [lines] the lines of the editor's text: the
    position given to [setCursor], or [None] when the target line has no
    pipe and the cursor is left where it is. *)
Definition restoreCursorToLogicalPosition (lines : list jsstring) (table : ParsedTable)
           (targetColumnIndex targetRowIndex : Z) : option Cursor :=
  let targetLine :=
    if ((targetRowIndex >=? 0) && (targetRowIndex <? Z.of_nat (length (rows table))))%Z
    then (Z.of_nat (startLine table) + 2 + targetRowIndex)%Z
    else Z.of_nat (startLine table) in
  let lineContent := lineOrEmpty lines targetLine in
  if negb (includesChar pipe lineContent) then None
  else
    let positions := pipePositions lineContent in
    let targetCh :=
      if ((targetColumnIndex >=? 0)
          && (targetColumnIndex <? Z.of_nat (length positions) - 1))%Z
      then
        let startPipe := nth (Z.to_nat targetColumnIndex) positions 0%Z in
        let endPipe := nth (Z.to_nat (targetColumnIndex + 1)) positions 0%Z in
        ((startPipe + endPipe) / 2)%Z
      else (nth 0 positions 0 + 1)%Z in
    Some (mkCursor targetLine targetCh).

(** ** Selected cells *)

(** The loop of [findSelectedCells] over the pairs of neighbouring pipes,
    from cell [i]. *)
Fixpoint overlappingCells (fromCh toCh : Z) (i : Z) (positions : list Z) : list Z :=
  match positions with
  | cellStart :: ((cellEnd :: _) as rest) =>
      let hasOverlap := negb ((toCh <=? cellStart) || (fromCh >=? cellEnd))%Z in
      if hasOverlap then i :: overlappingCells fromCh toCh (i + 1) rest
      else overlappingCells fromCh toCh (i + 1) rest
  | _ => []
  end.

(** [findSelectedCells(lineContent, fromCh, toCh)] *)
Definition findSelectedCells (lineContent : jsstring) (fromCh toCh : Z) : list Z :=
  let positions := pipePositions lineContent in
  if length positions <? 2 then []
  else overlappingCells fromCh toCh 0 positions.

(** ** CSV export *)

(** The replacement of every double quote by two of them. *)
Definition doubleQuotes (s : jsstring) : jsstring :=
  flat_map (fun c => if Ascii.eqb c dquote then [dquote; dquote] else [c]) s.

(** [escapeCsvCell(content)] *)
Definition escapeCsvCell (content : jsstring) : jsstring :=
  let cleanContent :=
    replaceAll [Lit (str "<"); NotStar ">"; Lit (str ">")] (text []) content in
  if includesChar "," cleanContent || includesChar dquote cleanContent
     || includesChar nl cleanContent
  then [dquote] ++ doubleQuotes cleanContent ++ [dquote]
  else cleanContent.

(** The text [exportTableToCSV] hands to the clipboard. *)
Definition exportTableToCSV (table : ParsedTable) : jsstring :=
  let headerCells := map (fun cell => escapeCsvCell (content cell)) (cells (headers table)) in
  let rowLines :=
    map (fun row => join (str ",") (map (fun cell => escapeCsvCell (content cell)) (cells row)))
        (rows table) in
  join [nl] (join (str ",") headerCells :: rowLines).

(** ** Colors from class names *)

(** [s.replace(pattern, '')] for a string pattern: the first occurrence
    is removed. *)
Fixpoint removeFirstText (pattern s : jsstring) : jsstring :=
  match stripPrefix pattern s with
  | Some rest => rest
  | None => match s with
            | [] => []
            | c :: s' => c :: removeFirstText pattern s'
            end
  end.

(** The class [0-9a-fA-F]. *)
Definition isHexDigit (c : ascii) : bool :=
  let n := nat_of_ascii c in
  ((48 <=? n) && (n <=? 57)) || ((97 <=? n) && (n <=? 102)) || ((65 <=? n) && (n <=? 70)).

(** [extractColorFromClassName(className)]: the two branches that are not
    a six-digit hexadecimal color return the hash as it is. *)
Definition extractColorFromClassName (className : jsstring) : jsstring :=
  let colorHash := removeFirstText (str "cell-bg-") className in
  if (length colorHash =? 6) && (match colorHash with [] => false | _ => forallb isHexDigit colorHash end)
  then str "#" ++ colorHash
  else colorHash.

End TableManager.

Import TableValidator TableManager.

(* ===================================================================== *)
(** * [src/components/TableToolbar.ts]: class [TableToolbar], the move buttons *)
(* ===================================================================== *)

Module TableToolbar.

(** [getCurrentRowIndex(table, cursorLine)] *)
Definition getCurrentRowIndex (table : ParsedTable) (cursorLine : Z) : Z :=
  let relativeLineIndex := (cursorLine - Z.of_nat (startLine table) - 2)%Z in
  Z.max 0 (Z.min relativeLineIndex (Z.of_nat (length (rows table)) - 1)).

(** The loop that counts the pipes among the first [n] characters. *)
Fixpoint countPipes (n : nat) (s : jsstring) : Z :=
  match n, s with
  | S n', c :: s' => ((if Ascii.eqb c pipe then 1 else 0) + countPipes n' s')%Z
  | _, _ => 0%Z
  end.

(** [getCurrentColumnIndex(table, cursor)], with [lines] the lines of the
    editor's text. *)
Definition getCurrentColumnIndex (lines : list jsstring) (table : ParsedTable) (cursor : Cursor) : Z :=
  let targetLine := targetLine lines table cursor in
  let bound := Z.min (ch cursor) (Z.of_nat (length targetLine)) in
  let columnIndex := countPipes (Z.to_nat bound) targetLine in
  (* Adjust for table structure (first column is index 0) *)
  let columnIndex := Z.max 0 (columnIndex - 1) in
  if ((columnIndex >=? 0) && (columnIndex <? columnCount table))%Z
  then columnIndex else (-1)%Z.

(** [promptMoveRow(direction)] on the table at the cursor: the call
    [moveRow(rowIndex, newIndex)] it makes, if any. *)
Definition promptMoveRow (direction : Z) (table : ParsedTable) (cursor : Cursor) (eng : Engine)
  : option (Z * Z) :=
  let rowIndex := lastModifiedRow eng in
  let rowIndex :=
    if ((rowIndex =? -1) || (rowIndex >=? Z.of_nat (length (rows table))))%Z
    then getCurrentRowIndex table (line cursor) else rowIndex in
  if (rowIndex =? -1)%Z then None
  else
    let newIndex := (rowIndex + direction)%Z in
    if ((newIndex >=? 0) && (newIndex <? Z.of_nat (length (rows table))))%Z
    then Some (rowIndex, newIndex) else None.

(** [promptMoveColumn(direction)]: the call [moveColumn(colIndex,
    newIndex)] it makes, if any. *)
Definition promptMoveColumn (direction : Z) (lines : list jsstring) (table : ParsedTable)
           (cursor : Cursor) (eng : Engine) : option (Z * Z) :=
  let colIndex := lastModifiedColumn eng in
  let colIndex :=
    if ((colIndex =? -1) || (colIndex >=? columnCount table))%Z
    then getCurrentColumnIndex lines table cursor else colIndex in
  if (colIndex =? -1)%Z then None
  else
    let newIndex := (colIndex + direction)%Z in
    if ((newIndex >=? 0) && (newIndex <? columnCount table))%Z
    then Some (colIndex, newIndex) else None.

End TableToolbar.

(* ===================================================================== *)
(** * The notions the statements use *)
(* ===================================================================== *)

Module Properties.

(** A field as [parseTableRow] produces them: trimmed, and free of the
    column delimiter and of line breaks. *)
Definition isField (s : jsstring) : bool :=
  jsstring_eqb (trim s) s && negb (includesChar pipe s) && negb (includesChar nl s).

(** A separator token: a field made of the characters a separator line
    may hold. *)
Definition isSeparatorField (s : jsstring) : bool :=
  isField s && forallb isSeparatorChar s.

Definition wellFormed (t : ParsedTable) : bool :=
  forallb isField (headerTexts t)
  && forallb isSeparatorField (separator t)
  && forallb (forallb isField) (rowTexts t).

(** A table whose separator and rows all have as many elements as the
    header has cells. *)
Definition rectangular (t : ParsedTable) : Prop :=
  let n := length (cells (headers t)) in
  length (separator t) = n /\ Forall (fun row => length (cells row) = n) (rows t).

(** The propositional form of [isField]. *)
Definition Field (f : jsstring) : Prop :=
  trim f = f /\ ~ In pipe f /\ ~ In nl f.

(** What a parsed line gives back for the fields it was written from:
    an empty list of fields reads back as one empty field. *)
Definition readBack (fs : list jsstring) : list jsstring :=
  match fs with [] => [[]] | _ => fs end.

Definition padded (f : jsstring) : jsstring := str " " ++ f ++ str " ".

(** [moved from to old new]: [new] is [old] with the element at index
    [from] moved to index [to], the other elements keeping their order. *)
Definition moved {A} (from to : nat) (old new : list A) : Prop :=
  length new = length old
  /\ nth_error new to = nth_error old from
  /\ firstn to new ++ skipn (S to) new = firstn from old ++ skipn (S from) old.

(** [allButLast old new]: [new] is [old] without its last element (and an
    empty [old] stays empty). *)
Definition allButLast {A} (old new : list A) : Prop :=
  (old = [] /\ new = []) \/ exists x, old = new ++ [x].

(** The cursor-to-column mapping as the specification words it, for the
    text of a line, a character offset and a result. *)
Definition columnAtCharSpec (lineText : jsstring) (ch result : Z) : Prop :=
  let p := pipePositions lineText in
  let n := length p in
  (n < 2 -> result = (-1)%Z)
  /\ (forall i, S i < n -> (nth i p 0 < ch <= nth (S i) p 0)%Z -> result = Z.of_nat i)
  /\ (2 <= n -> (ch <= nth 0 p 0)%Z -> result = 0%Z)
  /\ (2 <= n -> (nth (n - 1) p 0 < ch)%Z -> result = (Z.of_nat n - 2)%Z).

(** The wrapper [applyCellColor] writes around [inner] for the class
    [cell-bg-hash], character by character. *)
Definition colorWrapper (hash inner : jsstring) : jsstring :=
  str "<div class=" ++ dquote :: str "cell-bg-" ++ hash ++ dquote :: ">"%char
    :: inner ++ str "</div>".

(** The pieces of [divRegex] after the opening tag name, and after the
    start of the class attribute. *)
Definition classLiteral : jsstring := str "class=" ++ [dquote] ++ str "cell-bg-".

Definition afterDiv : Continuation :=
  matchPieces [ Lit classLiteral; NotStar dquote; Lit [dquote]; NotStar ">"; Lit (str ">");
                Group "<"; Lit (str "</div>") ].

Definition afterClass : Continuation :=
  matchPieces [ NotStar dquote; Lit [dquote]; NotStar ">"; Lit (str ">");
                Group "<"; Lit (str "</div>") ].

(** A column index that the table has, or -1. *)
Definition columnOrNone (table : ParsedTable) (columnIndex : Z) : Z :=
  if ((0 <=? columnIndex) && (columnIndex <? columnCount table))%Z
  then columnIndex else (-1)%Z.

(** [headers] of a table, under a name that parameters called [headers]
    do not hide. *)
Definition headers_ (t : ParsedTable) : TableRow := headers t.

(** The table object whose text [generateTable(headers, rows, alignments)]
    writes: the headers, one token per header, and every row padded and
    cut to the number of headers. *)
Definition generatedTable (headers : list jsstring) (rows : list (list jsstring))
           (alignments : list Alignment) : ParsedTable :=
  mkTable (mkRow (map mkCell headers))
          (mapIndexFrom (fun _ index => alignmentToken alignments index) 0 headers)
          (map (fun row => mkRow (map mkCell (firstn (length headers)
                                                (padRow (length headers) row)))) rows)
          0 0.

(** The content of a cell with its HTML tags removed, as
    [escapeCsvCell] exports it. *)
Definition tagsRemoved (content : jsstring) : jsstring :=
  replaceAll [Lit (str "<"); NotStar ">"; Lit (str ">")] (text []) content.

End Properties.

Import Properties.

(* ===================================================================== *)
(** * Sample data *)
(* ===================================================================== *)

Module Samples.

Definition cellsOf (texts : list string) : list TableCell :=
  map (fun s => mkCell (str s)) texts.

(** The table of the parser's tests. *)
Definition people : ParsedTable :=
  mkTable (mkRow (cellsOf ["Name"; "Age"]%string))
          [str "---"; str "---"]
          [mkRow (cellsOf ["John"; "25"]%string); mkRow (cellsOf ["Jane"; "30"]%string)]
          0 3.

Definition peopleText : jsstring :=
  join [nl] [str "| Name | Age |"; str "| --- | --- |"; str "| John | 25 |"; str "| Jane | 30 |"].

(** A header line followed by a line that is no separator. *)
Definition noSeparatorText : jsstring :=
  join [nl] [str "intro"; str "| Name | Age |"; str "| John | 25 |"].

(** A table with one column and no data row. *)
Definition oneColumn : ParsedTable :=
  mkTable (mkRow (cellsOf ["Only"]%string)) [str "---"] [] 0 1.

(** A table whose data row has more cells than its header. *)
Definition raggedLines : list jsstring :=
  [str "| H |"; str "| --- |"; str "| a | b |"].

Definition ragged : ParsedTable :=
  mkTable (mkRow (cellsOf ["H"]%string)) [str "---"]
          [mkRow (cellsOf ["a"; "b"]%string)] 0 2.

(** A table whose first data row has fewer cells than its header. *)
Definition shortRowText : jsstring :=
  join [nl] [str "| A | B | C |"; str "| --- | --- | --- |"; str "| 1 |"; str "| x | y | z |"].

Definition shortRow : ParsedTable :=
  mkTable (mkRow (cellsOf ["A"; "B"; "C"]%string))
          [str "---"; str "---"; str "---"]
          [mkRow (cellsOf ["1"]%string); mkRow (cellsOf ["x"; "y"; "z"]%string)] 0 3.

(** A table with the same header name twice, up to case. *)
Definition duplicated : ParsedTable :=
  mkTable (mkRow (cellsOf ["Name"; "NAME"]%string))
          [str "---"; str "---"]
          [mkRow (cellsOf ["John"; "Jane"]%string)] 0 2.

Definition duplicatedText : jsstring :=
  join [nl] [str "| Name | NAME |"; str "| --- | --- |"; str "| John | Jane |"].

(** A cell with inline markup, and a color. *)
Definition boldCell : TableCell := mkCell (str "<b>Total</b>").

Definition red : jsstring := str "#ff0000".

Definition wrapped (colorClass inner : string) : jsstring :=
  str "<div class=" ++ [dquote] ++ str colorClass ++ [dquote] ++ str ">"
    ++ str inner ++ str "</div>".

(** A CSV text whose data rows have one and three fields, under two
    headers. *)
Definition unevenCsv : jsstring :=
  join [nl] [str "name,age"; str "John"; str "Jane,30,London"].

(** A note with a table between two paragraphs. *)
Definition noteText : jsstring :=
  join [nl] [str "Some text"; str "| Name | Age |"; str "| --- | --- |"; str "| John | 25 |";
             str "More text"; str "The end"].

End Samples.

(* ===================================================================== *)
(** * Facts about the string primitives *)
(* ===================================================================== *)

Module JSFacts.

Lemma jsstring_eqb_eq (a b : jsstring) : jsstring_eqb a b = true <-> a = b.
Proof.
  unfold jsstring_eqb. destruct (list_eq_dec ascii_dec a b); split; congruence.
Qed.

Lemma includesChar_false (c : ascii) (s : jsstring) :
  includesChar c s = false <-> ~ In c s.
Proof.
  unfold includesChar. induction s as [|x s IH]; simpl.
  - tauto.
  - rewrite orb_false_iff, IH, Ascii.eqb_neq. intuition congruence.
Qed.

Lemma trimStart_length (s : jsstring) : length (trimStart s) <= length s.
Proof.
  induction s as [|c s IH]; simpl; [lia|].
  destruct (isWhiteSpace c); simpl; lia.
Qed.

Lemma trimEnd_length (s : jsstring) : length (trimEnd s) <= length s.
Proof.
  unfold trimEnd. rewrite length_rev.
  pose proof (trimStart_length (rev s)) as H. rewrite length_rev in H. exact H.
Qed.

Lemma trim_length (s : jsstring) : length (trim s) <= length s.
Proof.
  unfold trim. pose proof (trimEnd_length (trimStart s)).
  pose proof (trimStart_length s). lia.
Qed.

Lemma trimStart_head (a : ascii) (s : jsstring) :
  isWhiteSpace a = false -> trimStart (a :: s) = a :: s.
Proof. intros H. simpl. now rewrite H. Qed.

Lemma trimEnd_last (s : jsstring) (b : ascii) :
  isWhiteSpace b = false -> trimEnd (s ++ [b]) = s ++ [b].
Proof.
  intros H. unfold trimEnd. rewrite rev_app_distr. simpl.
  rewrite H. simpl. now rewrite rev_involutive.
Qed.

Lemma trimEnd_space (s : jsstring) (w : ascii) :
  isWhiteSpace w = true -> trimEnd (s ++ [w]) = trimEnd s.
Proof.
  intros H. unfold trimEnd. rewrite rev_app_distr. simpl. now rewrite H.
Qed.

(** A string with non-blank ends is its own trimmed form. *)
Lemma trim_bounded (a b : ascii) (m : jsstring) :
  isWhiteSpace a = false -> isWhiteSpace b = false ->
  trim (a :: m ++ [b]) = a :: m ++ [b].
Proof.
  intros Ha Hb. unfold trim. rewrite trimStart_head by assumption.
  change (a :: m ++ [b]) with ((a :: m) ++ [b]). now apply trimEnd_last.
Qed.

(** A trimmed, non-empty string starts with a non-blank character. *)
Lemma trim_fixed_head (a : ascii) (s : jsstring) :
  trim (a :: s) = a :: s -> isWhiteSpace a = false.
Proof.
  intros H. destruct (isWhiteSpace a) eqn:E; [|reflexivity].
  exfalso. assert (L : length (trim (a :: s)) = S (length s)) by now rewrite H.
  unfold trim in L. simpl in L. rewrite E in L.
  pose proof (trimEnd_length (trimStart s)). pose proof (trimStart_length s). lia.
Qed.

(** Trimming removes the blanks [rowLine] puts around a trimmed field. *)
Lemma trim_padded (f : jsstring) :
  trim f = f -> trim (str " " ++ f ++ str " ") = f.
Proof.
  intros H. destruct f as [|a f]; [reflexivity|].
  pose proof (trim_fixed_head _ _ H) as Ha.
  unfold trim in *. simpl. rewrite Ha.
  simpl in H. rewrite Ha in H.
  change (a :: f ++ [" "%char]) with ((a :: f) ++ [" "%char]).
  rewrite trimEnd_space by reflexivity. exact H.
Qed.

Lemma startsWith_cons (a : ascii) (s : jsstring) : startsWith [a] (a :: s) = true.
Proof. simpl. now rewrite Ascii.eqb_refl. Qed.

Lemma endsWith_snoc (a : ascii) (s : jsstring) : endsWith [a] (s ++ [a]) = true.
Proof. unfold endsWith. rewrite rev_app_distr. simpl. now rewrite Ascii.eqb_refl. Qed.

(** [s.slice(1, -1)] removes the first and the last character. *)
Lemma slice_inner (a b : ascii) (m : jsstring) :
  slice 1 (-1) (a :: m ++ [b]) = m.
Proof.
  unfold slice, sliceIndex. simpl length. rewrite length_app. simpl length.
  replace (1 <? 0)%Z with false by reflexivity.
  replace (-1 <? 0)%Z with true by reflexivity.
  rewrite Z.min_l by lia. rewrite Z.max_l by lia.
  replace (Z.to_nat 1) with 1 by reflexivity. simpl skipn.
  replace (Z.to_nat _) with (length m) by lia.
  rewrite firstn_app, Nat.sub_diag, firstn_all. simpl. now rewrite app_nil_r.
Qed.

Lemma split_single (c : ascii) (f : jsstring) :
  ~ In c f -> split c f = [f].
Proof.
  unfold split. induction f as [|x f IH]; simpl; intros H; [reflexivity|].
  destruct (splitFields c f) as [g gs] eqn:E.
  assert (Hx : Ascii.eqb x c = false) by (apply Ascii.eqb_neq; intuition).
  rewrite Hx. specialize (IH (fun i => H (or_intror i))). now inversion IH.
Qed.

Lemma split_app (c : ascii) (f rest : jsstring) :
  ~ In c f -> split c (f ++ c :: rest) = f :: split c rest.
Proof.
  unfold split. induction f as [|x f IH]; simpl; intros H.
  - rewrite Ascii.eqb_refl. now destruct (splitFields c rest).
  - assert (Hx : Ascii.eqb x c = false) by (apply Ascii.eqb_neq; intuition).
    specialize (IH (fun i => H (or_intror i))).
    destruct (splitFields c (f ++ c :: rest)) as [g gs].
    destruct (splitFields c rest) as [h hs].
    rewrite Hx. now inversion IH.
Qed.

(** Splitting undoes joining, for one-character separators that the
    parts do not contain. *)
Lemma split_join (c : ascii) (parts : list jsstring) :
  parts <> [] -> Forall (fun p => ~ In c p) parts ->
  split c (join [c] parts) = parts.
Proof.
  induction parts as [|p parts IH]; intros Hne Hall; [congruence|].
  inversion Hall as [|? ? Hp Hrest]; subst.
  destruct parts as [|q parts].
  - simpl. now apply split_single.
  - change (join [c] (p :: q :: parts)) with (p ++ [c] ++ join [c] (q :: parts)).
    simpl app at 2. rewrite split_app by assumption.
    f_equal. apply IH; [discriminate | assumption].
Qed.

Lemma split_nonempty (c : ascii) (s : jsstring) : 1 <= length (split c s).
Proof. unfold split. destruct (splitFields c s). simpl. lia. Qed.

Lemma join_cons (sep p : jsstring) (parts : list jsstring) :
  parts <> [] -> join sep (p :: parts) = p ++ sep ++ join sep parts.
Proof. destruct parts; [congruence | reflexivity]. Qed.

Lemma in_join (c : ascii) (sep : jsstring) (parts : list jsstring) :
  In c (join sep parts) -> In c sep \/ exists p, In p parts /\ In c p.
Proof.
  induction parts as [|p parts IH]; simpl; [tauto|].
  destruct parts as [|q parts].
  - intros H. right. exists p. auto.
  - rewrite !in_app_iff. intros [H | [H | H]].
    + right. exists p. auto.
    + now left.
    + destruct (IH H) as [H' | [r [Hr Hc]]]; [now left|].
      right. exists r. split; [now right | assumption].
Qed.

Lemma trimStart_snoc (l : jsstring) (a : ascii) :
  isWhiteSpace a = false -> trimStart (l ++ [a]) = trimStart l ++ [a].
Proof.
  intros Ha. induction l as [|c l IH]; simpl.
  - now rewrite Ha.
  - destruct (isWhiteSpace c); [exact IH | reflexivity].
Qed.

Lemma trimEnd_cons (a : ascii) (r : jsstring) :
  isWhiteSpace a = false -> trimEnd (a :: r) = a :: trimEnd r.
Proof.
  intros Ha. unfold trimEnd. simpl rev. rewrite trimStart_snoc by assumption.
  now rewrite rev_app_distr.
Qed.

Lemma trimStart_cases (s : jsstring) :
  trimStart s = [] \/ exists a r, trimStart s = a :: r /\ isWhiteSpace a = false.
Proof.
  induction s as [|c s IH]; simpl; [now left|].
  destruct (isWhiteSpace c) eqn:E; [exact IH|]. right. eauto.
Qed.

Lemma trimEnd_idempotent (s : jsstring) : trimEnd (trimEnd s) = trimEnd s.
Proof.
  unfold trimEnd. rewrite rev_involutive. f_equal.
  destruct (trimStart_cases (rev s)) as [-> | (a & r & -> & Ha)]; [reflexivity|].
  now apply trimStart_head.
Qed.

(** Trimming twice is trimming once. *)
Lemma trim_idempotent (s : jsstring) : trim (trim s) = trim s.
Proof.
  unfold trim. destruct (trimStart_cases s) as [-> | (a & r & -> & Ha)]; [reflexivity|].
  rewrite trimEnd_cons by assumption. rewrite trimStart_head by assumption.
  rewrite trimEnd_cons by assumption. now rewrite trimEnd_idempotent.
Qed.

Lemma in_trimStart (c : ascii) (s : jsstring) : In c (trimStart s) -> In c s.
Proof.
  induction s as [|x s IH]; simpl; [tauto|].
  destruct (isWhiteSpace x); simpl; tauto.
Qed.

Lemma in_trim (c : ascii) (s : jsstring) : In c (trim s) -> In c s.
Proof.
  unfold trim, trimEnd. rewrite <- in_rev. intros H.
  apply in_trimStart in H. rewrite <- in_rev in H. now apply in_trimStart.
Qed.

Lemma in_firstn {A} (x : A) (n : nat) (l : list A) : In x (firstn n l) -> In x l.
Proof. intros H. rewrite <- (firstn_skipn n l). apply in_or_app. now left. Qed.

Lemma in_skipn {A} (x : A) (n : nat) (l : list A) : In x (skipn n l) -> In x l.
Proof. intros H. rewrite <- (firstn_skipn n l). apply in_or_app. now right. Qed.

Lemma in_slice (c : ascii) (a b : Z) (s : jsstring) : In c (slice a b s) -> In c s.
Proof. unfold slice. intros H. apply in_firstn in H. now apply in_skipn in H. Qed.

(** The fields of a split hold no separator, and only characters of the
    string that was split. *)
Lemma in_split (c : ascii) (s f : jsstring) :
  In f (split c s) -> ~ In c f /\ (forall x, In x f -> In x s).
Proof.
  unfold split. revert f. induction s as [|x s IH]; intros f H.
  - simpl in H. destruct H as [<- | []]. split; [tauto | auto].
  - simpl in H. destruct (splitFields c s) as [g gs].
    destruct (Ascii.eqb x c) eqn:E.
    + destruct H as [<- | H]; [split; [tauto | intros ? []]|].
      destruct (IH f H) as [H1 H2]. split; [exact H1|]. intros y Hy. right. auto.
    + apply Ascii.eqb_neq in E. destruct H as [<- | H].
      * destruct (IH g (or_introl eq_refl)) as [H1 H2]. split.
        -- intros [Hx | Hg]; [congruence | contradiction].
        -- intros y [<- | Hy]; [now left | right; auto].
      * destruct (IH f (or_intror H)) as [H1 H2]. split; [exact H1|].
        intros y Hy. right. auto.
Qed.

(** A string without blanks is its own trimmed form. *)
Lemma trim_no_blank (s : jsstring) :
  (forall c, In c s -> isWhiteSpace c = false) -> trim s = s.
Proof.
  intros H.
  assert (T : forall l : jsstring, (forall c, In c l -> isWhiteSpace c = false) ->
                                   trimStart l = l).
  { intros [|a l] Hl; [reflexivity|]. apply trimStart_head. apply Hl. now left. }
  unfold trim, trimEnd. rewrite (T s H). rewrite T.
  - apply rev_involutive.
  - intros c Hc. apply H. now apply in_rev.
Qed.

End JSFacts.

(* ===================================================================== *)
(** * The parser and the serializer *)
(* ===================================================================== *)

Module ParserFacts.

Import JSFacts.

Lemma isField_Field (f : jsstring) : isField f = true <-> Field f.
Proof.
  unfold isField, Field.
  rewrite !andb_true_iff, !negb_true_iff, jsstring_eqb_eq, !includesChar_false.
  tauto.
Qed.

Lemma forallb_Field (fs : list jsstring) :
  forallb isField fs = true <-> Forall Field fs.
Proof.
  rewrite forallb_forall, Forall_forall.
  split; intros H f Hf; apply isField_Field; auto.
Qed.

Lemma rowLine_shape (fs : list jsstring) :
  rowLine fs = pipe :: (str " " ++ join (str " | ") fs ++ str " ") ++ [pipe].
Proof.
  unfold rowLine. simpl. f_equal. f_equal. now rewrite <- app_assoc.
Qed.

Lemma rowLine_readBack (fs : list jsstring) : rowLine (readBack fs) = rowLine fs.
Proof. now destruct fs. Qed.

Lemma inner_join (fs : list jsstring) :
  fs <> [] ->
  str " " ++ join (str " | ") fs ++ str " " = join [pipe] (map padded fs).
Proof.
  induction fs as [|f fs IH]; intros Hne; [congruence|].
  destruct fs as [|g fs]; [reflexivity|].
  rewrite (join_cons (str " | ") f) by discriminate.
  change (map padded (f :: g :: fs)) with (padded f :: map padded (g :: fs)).
  rewrite (join_cons [pipe] (padded f)) by discriminate.
  rewrite <- IH by discriminate. unfold padded. simpl.
  now rewrite <- !app_assoc.
Qed.

Lemma trim_rowLine (fs : list jsstring) : trim (rowLine fs) = rowLine fs.
Proof. rewrite rowLine_shape. now apply trim_bounded. Qed.

Lemma isTableLine_rowLine (fs : list jsstring) : isTableLine (rowLine fs) = true.
Proof.
  unfold isTableLine. rewrite trim_rowLine, rowLine_shape.
  rewrite startsWith_cons. rewrite app_comm_cons. apply endsWith_snoc.
Qed.

Lemma padded_no_pipe (f : jsstring) : ~ In pipe f -> ~ In pipe (padded f).
Proof.
  unfold padded. simpl. rewrite in_app_iff. simpl.
  intros H [E | [H' | [E | []]]]; try discriminate. contradiction.
Qed.

(** The fields of a line written by [rowLine], as [split] finds them. *)
Lemma split_rowLine (fs : list jsstring) :
  Forall Field fs ->
  map trim (split pipe (slice 1 (-1) (trim (rowLine fs)))) = readBack fs.
Proof.
  intros Hfs. rewrite trim_rowLine, rowLine_shape, slice_inner.
  destruct fs as [|f fs]; [reflexivity|].
  rewrite inner_join by discriminate.
  rewrite split_join.
  - simpl readBack. rewrite map_map.
    rewrite <- (map_id (f :: fs)) at 2. apply map_ext_in.
    intros g Hg. apply trim_padded.
    rewrite Forall_forall in Hfs. apply (Hfs g Hg).
  - discriminate.
  - rewrite Forall_forall. intros p Hp. apply in_map_iff in Hp.
    destruct Hp as [g [<- Hg]]. apply padded_no_pipe.
    rewrite Forall_forall in Hfs. apply (Hfs g Hg).
Qed.

Lemma parseTableRow_rowLine (fs : list jsstring) :
  Forall Field fs ->
  map content (cells (parseTableRow (rowLine fs))) = readBack fs.
Proof.
  intros Hfs. unfold parseTableRow. simpl cells.
  rewrite map_map. simpl. now apply split_rowLine.
Qed.

Lemma parseSeparator_rowLine (fs : list jsstring) :
  Forall Field fs -> parseSeparator (rowLine fs) = readBack fs.
Proof. intros Hfs. unfold parseSeparator. now apply split_rowLine. Qed.

Lemma in_rowLine (c : ascii) (fs : list jsstring) :
  In c (rowLine fs) -> c = pipe \/ c = " "%char \/ exists f, In f fs /\ In c f.
Proof.
  unfold rowLine. rewrite !in_app_iff. intros [H | [H | H]].
  - simpl in H. intuition.
  - apply in_join in H. destruct H as [H | H]; [|tauto].
    simpl in H. intuition.
  - simpl in H. intuition.
Qed.

Lemma rowLine_no_nl (fs : list jsstring) :
  Forall Field fs -> ~ In nl (rowLine fs).
Proof.
  intros Hfs H. apply in_rowLine in H.
  destruct H as [E | [E | [f [Hf Hc]]]]; try discriminate.
  rewrite Forall_forall in Hfs. destruct (Hfs f Hf) as (_ & _ & Hn). contradiction.
Qed.

Lemma isSeparatorLine_rowLine (seps : list jsstring) :
  Forall (fun s => forallb isSeparatorChar s = true) seps ->
  isSeparatorLine (rowLine seps) = true.
Proof.
  intros Hs. pose proof (isTableLine_rowLine seps) as Ht.
  unfold isTableLine in Ht. unfold isSeparatorLine. rewrite Ht. simpl.
  rewrite trim_rowLine. unfold separatorRegex.
  rewrite rowLine_shape at 1. rewrite forallb_forall.
  intros c Hc. apply in_rowLine in Hc.
  destruct Hc as [-> | [-> | [f [Hf Hc]]]]; try reflexivity.
  rewrite Forall_forall in Hs. specialize (Hs f Hf).
  rewrite forallb_forall in Hs. now apply Hs.
Qed.

Lemma parseRows_rowLines (rs : list (list jsstring)) :
  parseRows (map rowLine rs) = map (fun fs => parseTableRow (rowLine fs)) rs.
Proof.
  induction rs as [|r rs IH]; [reflexivity|].
  simpl. now rewrite isTableLine_rowLine, IH.
Qed.

Lemma generateTable_lines (t : ParsedTable) :
  generateTable t
  = join [nl] (rowLine (headerTexts t) :: rowLine (separator t) :: map rowLine (rowTexts t)).
Proof.
  unfold generateTable, headerTexts, rowTexts. now rewrite map_map.
Qed.

Lemma generateTable_mk (h : TableRow) (s : list jsstring) (r : list TableRow) (a b : nat) :
  generateTable (mkTable h s r a b)
  = join [nl] (rowLine (map content (cells h)) :: rowLine s
                 :: map (fun row => rowLine (map content (cells row))) r).
Proof. reflexivity. Qed.

(** The first loop of [parseTable] stops at the first table line. *)
Lemma findTableStart_first (i : nat) : forall (k : nat) (ls : list jsstring) (l : jsstring),
  nth_error ls i = Some l -> isTableLine l = true ->
  (forall j l', j < i -> nth_error ls j = Some l' -> isTableLine l' = false) ->
  findTableStart k ls = Some (k + i, l, skipn (S i) ls).
Proof.
  induction i as [|i IH]; intros k ls l Hl Ht Hbefore.
  - destruct ls as [|x ls]; [discriminate|]. simpl in Hl. inversion Hl; subst.
    simpl. rewrite Ht. now rewrite Nat.add_0_r.
  - destruct ls as [|x ls]; [discriminate|]. simpl in Hl.
    simpl findTableStart. rewrite (Hbefore 0 x) by (simpl; auto; lia).
    rewrite (IH (S k) ls l Hl Ht).
    + replace (S k + i) with (k + S i) by lia. reflexivity.
    + intros j l' Hj Hn. apply (Hbefore (S j) l'); [lia | exact Hn].
Qed.

Lemma findTableStart_sound : forall (ls : list jsstring) (k i : nat) (l : jsstring) (rest : list jsstring),
  findTableStart k ls = Some (i, l, rest) ->
  k <= i /\ nth_error ls (i - k) = Some l /\ isTableLine l = true
  /\ rest = skipn (S (i - k)) ls.
Proof.
  induction ls as [|x ls IH]; intros k i l rest H; [discriminate|].
  simpl in H. destruct (isTableLine x) eqn:E.
  - inversion H; subst. rewrite Nat.sub_diag. auto.
  - apply IH in H. destruct H as (Hk & Hn & Ht & Hr).
    replace (i - k) with (S (i - S k)) by lia. simpl. repeat split; auto; lia.
Qed.

Lemma skipn_lines (lines : list jsstring) (k : nat) (l : jsstring) (rest : list jsstring) :
  skipn k lines = l :: rest -> nth_error lines k = Some l.
Proof.
  revert lines. induction k as [|k IH]; intros [|x lines] H; simpl in *; try discriminate.
  - now inversion H.
  - now apply IH.
Qed.

(** What [parseTable] reads from a serialized table: every list of
    fields as the parser reads it back, from line 0 on. *)
Lemma parseTable_generateTable (t : ParsedTable) :
  wellFormed t = true ->
  parseTable (generateTable t) 0
  = Some (mkTable (parseTableRow (rowLine (headerTexts t)))
                  (readBack (separator t))
                  (map (fun fs => parseTableRow (rowLine fs)) (rowTexts t))
                  0 (1 + length (rows t))).
Proof.
  unfold wellFormed. rewrite !andb_true_iff. intros [[Hh Hs] Hr].
  apply forallb_Field in Hh.
  assert (Hsf : Forall Field (separator t)).
  { rewrite Forall_forall. rewrite forallb_forall in Hs. intros x Hx.
    specialize (Hs x Hx). unfold isSeparatorField in Hs.
    apply andb_true_iff in Hs. now apply isField_Field. }
  assert (Hsc : Forall (fun x => forallb isSeparatorChar x = true) (separator t)).
  { rewrite Forall_forall. rewrite forallb_forall in Hs. intros x Hx.
    specialize (Hs x Hx). unfold isSeparatorField in Hs.
    now apply andb_true_iff in Hs. }
  assert (Hrf : Forall (Forall Field) (rowTexts t)).
  { rewrite Forall_forall. rewrite forallb_forall in Hr. intros x Hx.
    apply forallb_Field. now apply Hr. }
  rewrite generateTable_lines. unfold parseTable.
  rewrite split_join.
  - simpl skipn. simpl findTableStart. rewrite isTableLine_rowLine.
    rewrite isSeparatorLine_rowLine by assumption. simpl negb. cbv iota.
    rewrite parseRows_rowLines, parseSeparator_rowLine by assumption.
    rewrite length_map. unfold rowTexts at 2. rewrite length_map.
    reflexivity.
  - discriminate.
  - repeat constructor; try (apply rowLine_no_nl; assumption).
    rewrite Forall_forall. intros l Hl. apply in_map_iff in Hl.
    destruct Hl as [fs [<- Hfs]]. apply rowLine_no_nl.
    rewrite Forall_forall in Hrf. now apply Hrf.
Qed.

(** C1. Round trip: for a well-formed table (every cell and every
    separator token trimmed and free of '|' and of line breaks, the
    separator tokens made of the characters of a separator line),
    serializing, parsing the text from line 0 and serializing again gives
    the first text back. *)
Theorem generateTable_roundtrip (t : ParsedTable) :
  wellFormed t = true ->
  exists t', parseTable (generateTable t) 0 = Some t'
             /\ generateTable t' = generateTable t.
Proof.
  intros Hwf. eexists. split; [now apply parseTable_generateTable|].
  revert Hwf. unfold wellFormed. rewrite !andb_true_iff. intros [[Hh Hs] Hr].
  apply forallb_Field in Hh.
  rewrite generateTable_mk, generateTable_lines.
  rewrite parseTableRow_rowLine by assumption. rewrite !rowLine_readBack.
  do 3 f_equal. rewrite !map_map. apply map_ext_in. intros fs Hfs.
  rewrite parseTableRow_rowLine, rowLine_readBack; [reflexivity|].
  apply forallb_Field. rewrite forallb_forall in Hr. now apply Hr.
Qed.

Lemma generateTable_roundtrip_witness :
  exists t', parseTable (generateTable Samples.people) 0 = Some t'
             /\ generateTable t' = generateTable Samples.people.
Proof. apply (generateTable_roundtrip Samples.people). vm_compute. reflexivity. Defined.

(** The fields the parser reads from a line are fields in the sense of
    [isField]. *)
Lemma parsed_fields (line : jsstring) :
  ~ In nl line ->
  Forall Field (map trim (split pipe (slice 1 (-1) (trim line)))).
Proof.
  intros Hnl. rewrite Forall_forall. intros f Hf.
  apply in_map_iff in Hf. destruct Hf as [g [<- Hg]].
  apply in_split in Hg. destruct Hg as [Hp Hsub].
  repeat split.
  - apply trim_idempotent.
  - intros H. apply in_trim in H. contradiction.
  - intros H. apply in_trim, Hsub, in_slice, in_trim in H. contradiction.
Qed.

Lemma parseRows_fields (ls : list jsstring) :
  Forall (fun l => ~ In nl l) ls ->
  Forall (Forall Field) (map (fun row => map content (cells row)) (parseRows ls)).
Proof.
  induction 1 as [|l ls Hl Hls IH]; simpl; [constructor|].
  destruct (isTableLine l); [|constructor].
  simpl. constructor; [|exact IH].
  rewrite map_map. simpl. rewrite <- map_map with (g := trim) (f := fun x => x).
  rewrite map_id. now apply parsed_fields.
Qed.

(** Every table the parser returns is well-formed: the round trip of C1
    applies to all of them. *)
Lemma parseTable_wellFormed (text : jsstring) (startLine : nat) (t : ParsedTable) :
  parseTable text startLine = Some t -> wellFormed t = true.
Proof.
  unfold parseTable. intros H.
  assert (Hlines : Forall (fun l => ~ In nl l) (split nl text)).
  { rewrite Forall_forall. intros l Hl. now apply in_split in Hl. }
  destruct (findTableStart startLine (skipn startLine (split nl text)))
    as [[[i h] rest]|] eqn:E; [|discriminate].
  apply findTableStart_sound in E. destruct E as (_ & Hh & _ & ->).
  assert (Hskip : forall n, Forall (fun l => ~ In nl l) (skipn n (split nl text))).
  { intros n. rewrite Forall_forall in *. intros l Hl. apply Hlines.
    now apply in_skipn in Hl. }
  assert (Hhn : ~ In nl h).
  { apply nth_error_In in Hh. specialize (Hskip startLine).
    rewrite Forall_forall in Hskip. now apply Hskip. }
  destruct (skipn (S (i - startLine)) (skipn startLine (split nl text)))
    as [|sl rest'] eqn:E; [discriminate|].
  destruct (isSeparatorLine sl) eqn:Es; [|discriminate].
  simpl in H. inversion H; subst t; clear H.
  assert (Hrest : Forall (fun l => ~ In nl l) (sl :: rest')).
  { rewrite <- E. rewrite Forall_forall. intros l Hl. apply in_skipn in Hl.
    specialize (Hskip startLine). rewrite Forall_forall in Hskip. now apply Hskip. }
  inversion Hrest as [|? ? Hsl Hrest']; subst.
  unfold wellFormed, headerTexts, rowTexts. cbn [headers separator rows].
  rewrite !andb_true_iff. repeat split.
  - apply forallb_Field. unfold parseTableRow. cbn [cells]. rewrite map_map. simpl.
    rewrite <- map_map with (g := trim) (f := fun x => x). rewrite map_id.
    now apply parsed_fields.
  - rewrite forallb_forall. intros f Hf. unfold isSeparatorField.
    apply andb_true_iff. split.
    + apply isField_Field. pose proof (parsed_fields sl Hsl) as Hall.
      rewrite Forall_forall in Hall. now apply Hall.
    + unfold parseSeparator in Hf. apply in_map_iff in Hf.
      destruct Hf as [g [<- Hg]]. apply in_split in Hg. destruct Hg as [_ Hsub].
      unfold isSeparatorLine in Es. rewrite !andb_true_iff in Es.
      destruct Es as [_ Hre]. unfold separatorRegex in Hre.
      rewrite forallb_forall. intros c Hc.
      apply in_trim, Hsub, in_slice in Hc.
      destruct (trim sl) as [|x r] eqn:Et; [discriminate|].
      rewrite forallb_forall in Hre. now apply Hre.
  - rewrite forallb_forall. intros fs Hfs. apply forallb_Field.
    pose proof (parseRows_fields rest' Hrest') as Hall.
    rewrite Forall_forall in Hall. now apply Hall.
Qed.

Lemma nth_error_skipn_add {A} (n i : nat) (l : list A) :
  nth_error (skipn n l) i = nth_error l (n + i).
Proof.
  revert l. induction n as [|n IH]; intros [|x l]; simpl; auto.
  now destruct i.
Qed.

Lemma skipn_S_nth {A} (n : nat) (l : list A) (x : A) (rest : list A) :
  skipn n l = x :: rest -> nth_error l n = Some x.
Proof.
  intros H. rewrite <- (Nat.add_0_r n), <- nth_error_skipn_add. now rewrite H.
Qed.

(** C2. Parsing fails without a separator: when line [i] is the first
    table-shaped line at or after [startLine], and line [i + 1] is not a
    valid separator line (or does not exist), [parseTable] returns null.
    The model is a total function: no input makes it throw. *)
Theorem parseTable_needs_separator (text : jsstring) (startLine i : nat) (header : jsstring) :
  startLine <= i ->
  nth_error (split nl text) i = Some header ->
  isTableLine header = true ->
  (forall j l, startLine <= j < i -> nth_error (split nl text) j = Some l ->
               isTableLine l = false) ->
  (forall l, nth_error (split nl text) (S i) = Some l -> isSeparatorLine l = false) ->
  parseTable text startLine = None.
Proof.
  intros Hle Hh Ht Hfirst Hsep. unfold parseTable.
  rewrite (findTableStart_first (i - startLine) startLine _ header).
  - rewrite skipn_skipn.
    destruct (skipn (S (i - startLine) + startLine) (split nl text)) as [|sl rest] eqn:E;
      [reflexivity|].
    apply skipn_S_nth in E.
    replace (S (i - startLine) + startLine) with (S i) in E by lia.
    now rewrite (Hsep sl E).
  - rewrite nth_error_skipn_add. now replace (startLine + (i - startLine)) with i by lia.
  - exact Ht.
  - intros j l Hj Hn. rewrite nth_error_skipn_add in Hn.
    apply (Hfirst (startLine + j) l); [lia | exact Hn].
Qed.

Lemma parseTable_needs_separator_witness :
  parseTable Samples.noSeparatorText 0 = None.
Proof.
  apply (parseTable_needs_separator Samples.noSeparatorText 0 1 (str "| Name | Age |")).
  - lia.
  - reflexivity.
  - reflexivity.
  - intros j l Hj. assert (j = 0) as -> by lia. vm_compute.
    intros E. inversion E. reflexivity.
  - vm_compute. intros l E. inversion E. reflexivity.
Defined.

(** The converse reading of C2: a table that [parseTable] returns starts
    at a table-shaped line that a valid separator line follows. *)
Lemma parseTable_has_separator (text : jsstring) (startLine : nat) (t : ParsedTable) :
  parseTable text startLine = Some t ->
  exists header sep,
    nth_error (split nl text) (MarkdownParser.startLine t) = Some header
    /\ isTableLine header = true
    /\ nth_error (split nl text) (S (MarkdownParser.startLine t)) = Some sep
    /\ isSeparatorLine sep = true.
Proof.
  unfold parseTable. intros H.
  destruct (findTableStart startLine (skipn startLine (split nl text)))
    as [[[i h] rest]|] eqn:E; [|discriminate].
  apply findTableStart_sound in E. destruct E as (Hle & Hh & Ht & ->).
  rewrite skipn_skipn in H.
  destruct (skipn (S (i - startLine) + startLine) (split nl text)) as [|sl rest] eqn:E;
    [discriminate|].
  destruct (isSeparatorLine sl) eqn:Es; [|discriminate].
  simpl in H. inversion H; subst t; clear H. cbn [MarkdownParser.startLine].
  exists h, sl. repeat split; auto.
  - rewrite nth_error_skipn_add in Hh.
    now replace (startLine + (i - startLine)) with i in Hh by lia.
  - apply skipn_S_nth in E.
    now replace (S (i - startLine) + startLine) with (S i) in E by lia.
Qed.

Lemma parseTableRow_cells (line : jsstring) : 1 <= length (cells (parseTableRow line)).
Proof. unfold parseTableRow. cbn [cells]. rewrite length_map. apply split_nonempty. Qed.

Lemma parseRows_cells (ls : list jsstring) :
  Forall (fun row => 1 <= length (cells row)) (parseRows ls).
Proof.
  induction ls as [|l ls IH]; simpl; [constructor|].
  destruct (isTableLine l); constructor; [apply parseTableRow_cells | exact IH].
Qed.

(** C10. Every table [parseTable] returns has at least one header cell
    and at least one cell in every row: a split yields at least one
    field. *)
Theorem parseTable_columns (text : jsstring) (startLine : nat) (t : ParsedTable) :
  parseTable text startLine = Some t ->
  1 <= length (cells (headers t))
  /\ Forall (fun row => 1 <= length (cells row)) (rows t).
Proof.
  unfold parseTable. intros H.
  destruct (findTableStart startLine (skipn startLine (split nl text)))
    as [[[i h] rest]|]; [|discriminate].
  destruct rest as [|sl rest]; [discriminate|].
  destruct (isSeparatorLine sl); [|discriminate].
  simpl in H. inversion H; subst t; clear H. cbn [headers rows].
  split; [apply parseTableRow_cells | apply parseRows_cells].
Qed.

Lemma parseTable_columns_witness :
  1 <= length (cells (headers Samples.people))
  /\ Forall (fun row => 1 <= length (cells row)) (rows Samples.people).
Proof.
  apply (parseTable_columns Samples.peopleText 0 Samples.people).
  vm_compute. reflexivity.
Defined.

End ParserFacts.

(* ===================================================================== *)
(** * The sort direction *)
(* ===================================================================== *)

Module SortFacts.

Section Toggle.

Variable compareValues : jsstring -> jsstring -> Z.
Variable arraySort : (TableRow -> TableRow -> Z) -> list TableRow -> list TableRow.

Abbreviation sort := (sortTable compareValues arraySort).


(** A refused call leaves the state as it was. *)
Lemma sortTable_refused (enableSorting : bool) (lines : list jsstring) (cursor : Cursor)
      (table : ParsedTable) (specified : option Z) (eng : Engine) (notice : jsstring) :
  snd (sort enableSorting lines cursor table specified eng) = SortRefused notice ->
  fst (sort enableSorting lines cursor table specified eng) = eng.
Proof.
  unfold sort, sortTable. destruct enableSorting; simpl; [|reflexivity].
  destruct (length (rows table) =? 0); [reflexivity|].
  destruct (5000 <? _); discriminate.
Qed.


(** The comparator of a descending sort is the negated comparator of the
    ascending sort of the same column. *)
Lemma rowComparator_descending (c : Z) (a b : TableRow) :
  rowComparator compareValues false c a b = (- rowComparator compareValues true c a b)%Z.
Proof. reflexivity. Qed.

End Toggle.


End SortFacts.

(* ===================================================================== *)
(** * Structural edits: [moveColumn], [deleteRow], [deleteColumn] *)
(* ===================================================================== *)

Module MutationFacts.

Lemma moved_spliceIn {A} (f t : nat) (l : list A) (x : A) :
  nth_error l f = Some x -> t < length l ->
  moved f t l (spliceIn t x (snd (spliceOut f l))).
Proof.
  intros Hx Ht. assert (Hf : f < length l) by (apply nth_error_Some; congruence).
  unfold spliceIn, spliceOut. cbn [snd].
  set (r := firstn f l ++ skipn (S f) l).
  assert (Hr : length r = length l - 1).
  { unfold r. rewrite length_app, length_firstn, length_skipn. lia. }
  assert (Hlen : length (firstn t r) = t) by (rewrite length_firstn; lia).
  repeat split.
  - rewrite length_app, Hlen. simpl. rewrite length_skipn. lia.
  - rewrite nth_error_app2 by lia. rewrite Hlen, Nat.sub_diag. simpl. congruence.
  - rewrite firstn_app, Hlen, Nat.sub_diag, firstn_all2 by lia. simpl firstn.
    rewrite app_nil_r.
    replace (S t) with (length (firstn t r) + 1) by lia.
    rewrite skipn_app, Hlen.
    replace (t + 1 - t) with 1 by lia.
    rewrite skipn_all2 by lia. simpl. apply firstn_skipn.
Qed.

Lemma moveElement_Some {A} (f t : nat) (l : list A) :
  f < length l -> t < length l ->
  exists l', moveElement f t (map Some l) = map Some l' /\ moved f t l l'.
Proof.
  intros Hf Ht. destruct (nth_error l f) as [x|] eqn:Hx.
  - exists (spliceIn t x (snd (spliceOut f l))). split; [|now apply moved_spliceIn].
    unfold moveElement, spliceOut, spliceIn. cbn [snd].
    rewrite nth_error_map, Hx. cbn [option_map].
    rewrite firstn_map, skipn_map, <- map_app, firstn_map, skipn_map.
    rewrite map_app. reflexivity.
  - apply nth_error_None in Hx. lia.
Qed.

Lemma moveElement_rows (f t n : nat) (rs : list TableRow) :
  f < n -> t < n -> Forall (fun row => length (cells row) = n) rs ->
  exists rs',
    map (moveElement f t) (map (fun row => map Some (cells row)) rs)
    = map (fun row => map Some (cells row)) rs'
    /\ Forall2 (fun row row' => moved f t (cells row) (cells row')) rs rs'.
Proof.
  intros Hf Ht. induction 1 as [|r rs Hr Hrs IH].
  - exists []. split; [reflexivity | constructor].
  - destruct IH as [rs' [E F]].
    destruct (moveElement_Some f t (cells r)) as [cs [Ec Mc]]; try lia.
    exists (mkRow cs :: rs'). split.
    + simpl. now rewrite Ec, E.
    + constructor; assumption.
Qed.

Lemma contents_Some (cs : list TableCell) : contents (map Some cs) = Some (map content cs).
Proof. induction cs as [|c cs IH]; simpl; [reflexivity | now rewrite IH]. Qed.

Lemma allContents_Some (rs : list TableRow) :
  allContents (map (fun row => map Some (cells row)) rs)
  = Some (map (fun row => map content (cells row)) rs).
Proof.
  induction rs as [|r rs IH]; simpl; [reflexivity|].
  now rewrite contents_Some, IH.
Qed.

(** Serializing a table whose arrays hold no [undefined] is
    [generateTable]. *)
Lemma generateMoved_toMoved (t : ParsedTable) :
  generateMoved (toMoved t) = Some (generateTable t).
Proof.
  unfold generateMoved, toMoved. cbn [movedHeaders movedSeparator movedRows].
  rewrite contents_Some, allContents_Some.
  rewrite (map_map Some), map_id.
  unfold generateTable. now rewrite map_map.
Qed.

Lemma outOfRange_test (n from to : Z) :
  ~ ((0 <= from < n)%Z /\ (0 <= to < n)%Z) <->
  ((from <? 0) || (from >=? n) || (to <? 0) || (to >=? n))%Z = true.
Proof. rewrite !orb_true_iff. lia. Qed.

(** Where [moveColumn] is atomic.  When either index is outside
    [0, headers.cells.length) the call is refused: the engine state and the
    three arrays of the table are the ones before the call, and nothing is
    written.  Only a call with both indices in range is not refused; then,
    on a table whose separator and rows have as many elements as the
    header, the header cell, the separator token and the cell of every row
    at [fromIndex] all move to [toIndex], and the serialized result is
    what is written. *)
Theorem moveColumn_atomic (table : ParsedTable) (fromIndex toIndex : Z) (eng : Engine) :
  let inRange := (0 <= fromIndex < columnCount table)%Z
                 /\ (0 <= toIndex < columnCount table)%Z in
  (~ inRange ->
   moveColumn table fromIndex toIndex eng
   = (eng, toMoved table, MoveRefused (str "Invalid column indices")))
  /\ ((forall notice, snd (moveColumn table fromIndex toIndex eng) <> MoveRefused notice) ->
      inRange)
  /\ (inRange -> rectangular table ->
      exists table',
        moveColumn table fromIndex toIndex eng
        = (mkEngine (sortAscending eng) (lastSortedColumn eng) (lastModifiedRow eng) toIndex,
           toMoved table',
           MoveUpdated (generateTable table' ++ [nl]) (movedNotice fromIndex toIndex))
        /\ moved (Z.to_nat fromIndex) (Z.to_nat toIndex)
                 (cells (headers table)) (cells (headers table'))
        /\ moved (Z.to_nat fromIndex) (Z.to_nat toIndex)
                 (separator table) (separator table')
        /\ Forall2 (fun row row' =>
                      moved (Z.to_nat fromIndex) (Z.to_nat toIndex) (cells row) (cells row'))
                   (rows table) (rows table')).
Proof.
  intros inRange. split; [|split].
  - intros Hout. apply outOfRange_test in Hout. unfold moveColumn. now rewrite Hout.
  - intros H. unfold inRange.
    destruct (((fromIndex <? 0) || (fromIndex >=? columnCount table)
               || (toIndex <? 0) || (toIndex >=? columnCount table))%Z) eqn:E.
    + exfalso. apply (H (str "Invalid column indices")).
      unfold moveColumn. now rewrite E.
    + rewrite !orb_false_iff in E. lia.
  - intros [Hf Ht] [Hsep Hrows]. unfold columnCount in Hf, Ht.
    set (f := Z.to_nat fromIndex). set (t := Z.to_nat toIndex).
    set (n := length (cells (headers table))) in *.
    assert (Hfn : f < n) by (unfold f; lia).
    assert (Htn : t < n) by (unfold t; lia).
    destruct (moveElement_Some f t (cells (headers table))) as [hs [Eh Mh]]; try assumption.
    destruct (moveElement_Some f t (separator table)) as [ss [Es Ms]]; try lia.
    destruct (moveElement_rows f t n (rows table)) as [rs [Er Mr]]; try assumption.
    exists (mkTable (mkRow hs) ss rs (startLine table) (endLine table)).
    split; [|split; [exact Mh | split; [exact Ms | exact Mr]]].
    unfold moveColumn.
    assert (Hin : ((fromIndex <? 0) || (fromIndex >=? columnCount table)
                   || (toIndex <? 0) || (toIndex >=? columnCount table))%Z = false).
    { unfold columnCount. fold n. rewrite !orb_false_iff. lia. }
    rewrite Hin. fold f t.
    pose proof (generateMoved_toMoved
                  (mkTable (mkRow hs) ss rs (startLine table) (endLine table))) as G.
    unfold toMoved in *. cbn [movedHeaders movedSeparator movedRows] in *.
    cbn [headers separator rows cells] in G.
    rewrite Eh, Es, Er, G. reflexivity.
Qed.

Lemma moveColumn_atomic_witness :
  moveColumn Samples.people 0 5 newEngine
  = (newEngine, toMoved Samples.people, MoveRefused (str "Invalid column indices"))
  /\ exists table',
      moveColumn Samples.people 0 1 newEngine
      = (mkEngine true (-1) (-1) 1, toMoved table',
         MoveUpdated (generateTable table' ++ [nl]) (movedNotice 0 1))
      /\ moved 0 1 (cells (headers Samples.people)) (cells (headers table'))
      /\ moved 0 1 (separator Samples.people) (separator table')
      /\ Forall2 (fun row row' => moved 0 1 (cells row) (cells row'))
                 (rows Samples.people) (rows table').
Proof.
  split.
  - apply (proj1 (moveColumn_atomic Samples.people 0 5 newEngine)).
    intros [_ [_ H]]. vm_compute in H. discriminate.
  - apply (proj2 (proj2 (moveColumn_atomic Samples.people 0 1 newEngine))).
    + vm_compute. repeat split; discriminate.
    + split; [reflexivity | repeat constructor].
Defined.

(** ** Where it is not: a row shorter than the header *)

Lemma contents_undefined (cs : list (option TableCell)) :
  In None cs -> contents cs = None.
Proof.
  induction cs as [|c cs IH]; [intros []|]. intros [-> | H]; [reflexivity|].
  simpl. destruct c; [|reflexivity]. now rewrite (IH H).
Qed.

Lemma allContents_undefined (rs : list (list (option TableCell))) :
  (exists r, In r rs /\ contents r = None) -> allContents rs = None.
Proof.
  induction rs as [|r rs IH]; intros (x & Hin & Hx); [destruct Hin|].
  simpl. destruct Hin as [-> | Hin].
  - now rewrite Hx.
  - rewrite (IH (ex_intro _ x (conj Hin Hx))). now destruct (contents r).
Qed.

(** A row without a cell at [fromIndex] gets an [undefined] cell at
    [toIndex]. *)
Lemma moveElement_short {A} (f t : nat) (l : list A) :
  length l <= f -> In None (moveElement f t (map Some l)).
Proof.
  intros H. unfold moveElement, spliceOut, spliceIn.
  replace (nth_error (map Some l) f) with (@None (option A))
    by (symmetry; apply nth_error_None; now rewrite length_map).
  apply in_or_app. right. now left.
Qed.

(** On any table with a row that has no cell at [fromIndex], a call with
    both indices in range is not refused: it reorders the header, stores
    [toIndex] in the engine state, and throws before the write. *)
Lemma moveColumn_short_row (table : ParsedTable) (fromIndex toIndex : Z) (eng : Engine) :
  (0 <= fromIndex < columnCount table)%Z -> (0 <= toIndex < columnCount table)%Z ->
  (exists row, In row (rows table) /\ length (cells row) <= Z.to_nat fromIndex) ->
  exists m,
    moveColumn table fromIndex toIndex eng
    = (mkEngine (sortAscending eng) (lastSortedColumn eng) (lastModifiedRow eng) toIndex,
       m, MoveThrew)
    /\ movedHeaders m
       = moveElement (Z.to_nat fromIndex) (Z.to_nat toIndex) (map Some (cells (headers table))).
Proof.
  intros Hf Ht (row & Hin & Hshort). unfold moveColumn.
  replace ((fromIndex <? 0) || (fromIndex >=? columnCount table)
           || (toIndex <? 0) || (toIndex >=? columnCount table))%Z with false.
  2:{ symmetry. destruct (((fromIndex <? 0) || (fromIndex >=? columnCount table)
                           || (toIndex <? 0) || (toIndex >=? columnCount table))%Z) eqn:E;
        [|reflexivity].
      apply outOfRange_test in E. exfalso. apply E. split; assumption. }
  cbv zeta. unfold generateMoved, toMoved. cbn [movedHeaders movedSeparator movedRows].
  rewrite (allContents_undefined
             (map (moveElement (Z.to_nat fromIndex) (Z.to_nat toIndex))
                  (map (fun row => map Some (cells row)) (rows table)))).
  - exists (mkMoved
              (moveElement (Z.to_nat fromIndex) (Z.to_nat toIndex)
                 (map Some (cells (headers table))))
              (moveElement (Z.to_nat fromIndex) (Z.to_nat toIndex)
                 (map Some (separator table)))
              (map (moveElement (Z.to_nat fromIndex) (Z.to_nat toIndex))
                 (map (fun row => map Some (cells row)) (rows table)))).
    split; [|reflexivity].
    destruct (contents (moveElement (Z.to_nat fromIndex) (Z.to_nat toIndex)
                          (map Some (cells (headers table))))); reflexivity.
  - exists (moveElement (Z.to_nat fromIndex) (Z.to_nat toIndex) (map Some (cells row))).
    split.
    + apply in_map. apply (in_map (fun row => map Some (cells row))). exact Hin.
    + apply contents_undefined. now apply moveElement_short.
Qed.

(** C4. [moveColumn] is not atomic on every table.  On the table the
    parser returns for a header of three cells and a first data row of
    one cell, [moveColumn(2, 0)] has both indices in range and is not
    refused: the header and the separator are reordered, the short row,
    which has no cell at index 2, gets an [undefined] at index 0 instead of
    moving a cell with them, [lastModifiedColumn] is set, and the call
    throws before anything is written. *)
Theorem moveColumn_not_atomic :
  parseTable Samples.shortRowText 0 = Some Samples.shortRow
  /\ (0 <= 2 < columnCount Samples.shortRow)%Z
  /\ (0 <= 0 < columnCount Samples.shortRow)%Z
  /\ moveColumn Samples.shortRow 2 0 newEngine
     = (mkEngine true (-1) (-1) 0,
        mkMoved (map Some (Samples.cellsOf ["C"; "A"; "B"]%string))
                [Some (str "---"); Some (str "---"); Some (str "---")]
                [[None; Some (mkCell (str "1"))];
                 map Some (Samples.cellsOf ["z"; "x"; "y"]%string)],
        MoveThrew)
  /\ movedHeaders (snd (fst (moveColumn Samples.shortRow 2 0 newEngine)))
     <> movedHeaders (toMoved Samples.shortRow)
  /\ lastModifiedColumn (fst (fst (moveColumn Samples.shortRow 2 0 newEngine)))
     <> lastModifiedColumn newEngine.
Proof.
  split; [vm_compute; reflexivity|].
  split; [vm_compute; split; [discriminate | reflexivity]|].
  split; [vm_compute; split; [discriminate | reflexivity]|].
  split; [vm_compute; reflexivity|].
  split; vm_compute; discriminate.
Qed.

Lemma pop_allButLast {A} (l : list A) : allButLast l (pop l).
Proof.
  destruct l as [|x l]; [left; auto|]. right.
  exists (last (x :: l) x). apply app_removelast_last. discriminate.
Qed.

(** C5. The boundaries of deletion.  [deleteColumn] on a table with one
    header cell (or none) and [deleteRow] on a table without data rows are
    refused with a notice: the table is the one before the call and
    nothing is written.
    Otherwise [deleteRow] removes the last data row, and [deleteColumn]
    removes the last header cell and the last cell of every row. *)
Theorem delete_boundaries (table : ParsedTable) :
  (length (cells (headers table)) <= 1 ->
   deleteColumn table
   = (table, Refused (str "Cannot delete column: table must have at least one column")))
  /\ (rows table = [] ->
      deleteRow table
      = (table, Refused (str "Cannot delete row: table has no data rows")))
  /\ (rows table <> [] ->
      exists table' lastRow,
        deleteRow table
        = (table',
           Updated (generateTableLegacy (headerTexts table') (rowTexts table') ++ [nl])
                   (str "Row deleted"))
        /\ headers table' = headers table
        /\ rows table = rows table' ++ [lastRow])
  /\ (1 < length (cells (headers table)) ->
      exists table' lastHeader,
        deleteColumn table
        = (table',
           Updated (generateTableLegacy (headerTexts table') (rowTexts table') ++ [nl])
                   (str "Column deleted"))
        /\ cells (headers table) = cells (headers table') ++ [lastHeader]
        /\ Forall2 (fun row row' => allButLast (cells row) (cells row'))
                   (rows table) (rows table')).
Proof.
  split; [|split; [|split]].
  - intros H. unfold deleteColumn.
    now replace (length (cells (headers table)) <=? 1) with true
      by (symmetry; apply Nat.leb_le; exact H).
  - intros H. unfold deleteRow. now rewrite H.
  - intros H. unfold deleteRow.
    destruct (rows table) as [|r rs] eqn:E; [congruence|]. simpl Nat.eqb. cbv iota.
    eexists. exists (last (r :: rs) r). split; [reflexivity|].
    cbn [headers rows]. split; [reflexivity|].
    unfold pop. apply app_removelast_last. discriminate.
  - intros H. unfold deleteColumn.
    replace (length (cells (headers table)) <=? 1) with false
      by (symmetry; apply Nat.leb_gt; exact H).
    destruct (cells (headers table)) as [|h hs] eqn:E; [simpl in H; lia|].
    eexists. exists (last (h :: hs) h). split; [reflexivity|].
    cbn [headers rows cells]. split.
    + unfold pop. apply app_removelast_last. discriminate.
    + induction (rows table) as [|r rs' IH]; simpl; constructor; [|exact IH].
      destruct (cells r) as [|c cs] eqn:Er.
      * simpl. rewrite Er. left. auto.
      * cbn [length Nat.ltb Nat.leb cells]. apply pop_allButLast.
Qed.

Lemma delete_boundaries_witness :
  deleteColumn Samples.oneColumn
  = (Samples.oneColumn,
     Refused (str "Cannot delete column: table must have at least one column"))
  /\ deleteRow Samples.oneColumn
     = (Samples.oneColumn, Refused (str "Cannot delete row: table has no data rows"))
  /\ (exists table' lastRow,
        deleteRow Samples.people
        = (table',
           Updated (generateTableLegacy (headerTexts table') (rowTexts table') ++ [nl])
                   (str "Row deleted"))
        /\ headers table' = headers Samples.people
        /\ rows Samples.people = rows table' ++ [lastRow])
  /\ (exists table' lastHeader,
        deleteColumn Samples.people
        = (table',
           Updated (generateTableLegacy (headerTexts table') (rowTexts table') ++ [nl])
                   (str "Column deleted"))
        /\ cells (headers Samples.people) = cells (headers table') ++ [lastHeader]
        /\ Forall2 (fun row row' => allButLast (cells row) (cells row'))
                   (rows Samples.people) (rows table')).
Proof.
  split; [|split; [|split]].
  - apply (proj1 (delete_boundaries Samples.oneColumn)). simpl. lia.
  - apply (proj1 (proj2 (delete_boundaries Samples.oneColumn))). reflexivity.
  - apply (proj1 (proj2 (proj2 (delete_boundaries Samples.people)))). discriminate.
  - apply (proj2 (proj2 (proj2 (delete_boundaries Samples.people)))). simpl. lia.
Defined.

End MutationFacts.

(* ===================================================================== *)
(** * The cursor-to-column mapping *)
(* ===================================================================== *)

Module CursorFacts.

Lemma pipePositionsFrom_sorted (s : jsstring) : forall k : Z,
  StronglySorted Z.lt (pipePositionsFrom k s)
  /\ Forall (fun x => (k <= x)%Z) (pipePositionsFrom k s).
Proof.
  induction s as [|c s IH]; intros k; simpl.
  - split; constructor.
  - destruct (IH (k + 1)%Z) as [Hs Hb].
    assert (Hb' : Forall (fun x => (k < x)%Z) (pipePositionsFrom (k + 1) s)).
    { eapply Forall_impl; [|exact Hb]. simpl. intros; lia. }
    destruct (Ascii.eqb c pipe).
    + split; constructor; auto; try lia.
      eapply Forall_impl; [|exact Hb']. simpl. intros; lia.
    + split; [exact Hs|]. eapply Forall_impl; [|exact Hb']. simpl. intros; lia.
Qed.

Lemma pipePositions_sorted (s : jsstring) : StronglySorted Z.lt (pipePositions s).
Proof. apply pipePositionsFrom_sorted. Qed.

Lemma pipePositionsFrom_includes (s : jsstring) : forall k : Z,
  pipePositionsFrom k s <> [] -> includesChar pipe s = true.
Proof.
  unfold includesChar.
  induction s as [|c s IH]; intros k H; cbn [pipePositionsFrom existsb] in *; [congruence|].
  rewrite (Ascii.eqb_sym pipe c). destruct (Ascii.eqb c pipe); [reflexivity|].
  now apply (IH (k + 1)%Z).
Qed.

Lemma sorted_nth_le (a : Z) (l : list Z) (i : nat) :
  StronglySorted Z.lt (a :: l) -> i < length (a :: l) -> (a <= nth i (a :: l) 0)%Z.
Proof.
  intros Hs Hi. apply StronglySorted_inv in Hs. destruct Hs as [_ Hall].
  destruct i as [|i]; simpl; [lia|]. simpl in Hi.
  rewrite Forall_forall in Hall.
  assert (In (nth i l 0%Z) l) by (apply nth_In; lia).
  specialize (Hall _ H). lia.
Qed.

Lemma sorted_nth_last (a : Z) (l : list Z) (i : nat) :
  StronglySorted Z.lt (a :: l) -> i < length (a :: l) ->
  (nth i (a :: l) 0 <= nth (length l) (a :: l) 0)%Z.
Proof.
  revert a i. induction l as [|b l IH]; intros a i Hs Hi.
  - simpl in Hi. assert (i = 0) as -> by lia. simpl. lia.
  - pose proof (StronglySorted_inv Hs) as [Hs' Hall].
    destruct i as [|i].
    + change (nth (length (b :: l)) (a :: b :: l) 0%Z) with (nth (length l) (b :: l) 0%Z).
      simpl nth at 1.
      pose proof (IH b 0 Hs' ltac:(simpl; lia)) as H. simpl nth at 1 in H.
      inversion Hall; subst. lia.
    + change (nth (S i) (a :: b :: l) 0%Z) with (nth i (b :: l) 0%Z).
      change (nth (length (b :: l)) (a :: b :: l) 0%Z) with (nth (length l) (b :: l) 0%Z).
      apply IH; [exact Hs' | simpl in *; lia].
Qed.

Lemma findColumn_step (ch k a b : Z) (rest : list Z) :
  findColumn ch k (a :: b :: rest)
  = if ((ch >? a) && (ch <=? b))%Z then k else findColumn ch (k + 1) (b :: rest).
Proof. reflexivity. Qed.

(** The loop finds the column whose pipes enclose the offset. *)
Lemma findColumn_between (ch : Z) (ps : list Z) : forall (i : nat) (k : Z),
  StronglySorted Z.lt ps -> S i < length ps ->
  (nth i ps 0 < ch <= nth (S i) ps 0)%Z ->
  findColumn ch k ps = (k + Z.of_nat i)%Z.
Proof.
  induction ps as [|a ps IH]; intros i k Hs Hi Hch; [simpl in Hi; lia|].
  destruct ps as [|b ps]; [simpl in Hi; lia|].
  pose proof (StronglySorted_inv Hs) as [Hs' Hall].
  destruct i as [|i].
  - simpl in Hch. rewrite findColumn_step.
    replace ((ch >? a) && (ch <=? b))%Z with true; [lia|].
    symmetry. apply andb_true_iff. split; [apply Z.gtb_lt | apply Z.leb_le]; lia.
  - change (nth (S i) (a :: b :: ps) 0%Z) with (nth i (b :: ps) 0%Z) in Hch.
    change (nth (S (S i)) (a :: b :: ps) 0%Z) with (nth (S i) (b :: ps) 0%Z) in Hch.
    assert (Hb : (b <= nth i (b :: ps) 0)%Z)
      by (apply sorted_nth_le; [exact Hs' | simpl in *; lia]).
    rewrite findColumn_step.
    replace ((ch >? a) && (ch <=? b))%Z with false.
    + rewrite (IH i (k + 1)%Z Hs'); [lia | simpl in *; lia | exact Hch].
    + symmetry. apply andb_false_iff. right. apply Z.leb_gt. lia.
Qed.

(** No column encloses an offset at or before the first pipe. *)
Lemma findColumn_before (ch : Z) (ps : list Z) : forall k : Z,
  Forall (fun x => (ch <= x)%Z) ps -> findColumn ch k ps = (-1)%Z.
Proof.
  induction ps as [|a ps IH]; intros k H; [reflexivity|].
  destruct ps as [|b ps]; [reflexivity|].
  inversion H as [|? ? Ha Hrest]; subst. rewrite findColumn_step.
  replace (ch >? a)%Z with false by (rewrite Z.gtb_ltb; symmetry; apply Z.ltb_ge; lia).
  simpl andb. cbv iota. now apply IH.
Qed.

(** No column encloses an offset after the last pipe. *)
Lemma findColumn_after (ch : Z) (ps : list Z) : forall k : Z,
  Forall (fun x => (x < ch)%Z) ps -> findColumn ch k ps = (-1)%Z.
Proof.
  induction ps as [|a ps IH]; intros k H; [reflexivity|].
  destruct ps as [|b ps]; [reflexivity|].
  inversion H as [|? ? Ha Hrest]; subst. inversion Hrest; subst. rewrite findColumn_step.
  replace (ch <=? b)%Z with false by (symmetry; apply Z.leb_gt; lia).
  rewrite andb_false_r. now apply IH.
Qed.

Lemma sorted_bounds (ps : list Z) :
  StronglySorted Z.lt ps ->
  Forall (fun x => (nth 0 ps 0 <= x <= nth (length ps - 1) ps 0)%Z) ps.
Proof.
  intros Hs. destruct ps as [|a l]; [constructor|].
  rewrite Forall_forall. intros x Hx.
  destruct (In_nth _ _ 0%Z Hx) as [i [Hi <-]].
  replace (length (a :: l) - 1) with (length l) by (simpl; lia).
  split.
  - change (nth 0 (a :: l) 0%Z) with a. now apply sorted_nth_le.
  - now apply sorted_nth_last.
Qed.

(** [getCursorColumnIndex] on a line with at least two pipes: the column
    found by the loop, the two corrections for the ends, and the check
    against the header. *)
Lemma getCursorColumnIndex_pipes (lines : list jsstring) (table : ParsedTable) (cursor : Cursor) :
  let p := pipePositions (targetLine lines table cursor) in
  2 <= length p ->
  getCursorColumnIndex lines table cursor
  = let c := findColumn (ch cursor) 0 p in
    let c := if ((c =? -1) && (ch cursor <=? nth 0 p 0))%Z then 0%Z else c in
    let c := if ((c =? -1) && (ch cursor >? nth (length p - 1) p 0))%Z
             then (Z.of_nat (length p) - 2)%Z else c in
    columnOrNone table c.
Proof.
  intros p Hn. unfold getCursorColumnIndex. fold p.
  assert (Hinc : includesChar pipe (targetLine lines table cursor) = true).
  { apply (pipePositionsFrom_includes _ 0%Z). fold (pipePositions (targetLine lines table cursor)).
    fold p. destruct p; [simpl in Hn; lia | discriminate]. }
  rewrite Hinc. simpl negb. cbv iota.
  replace (length p <? 2) with false by (symmetry; apply Nat.ltb_ge; exact Hn).
  cbv zeta. unfold columnOrNone. now rewrite Z.geb_leb.
Qed.

(** C6, amended. With [p] the positions of the pipes in the line that is
    measured (the cursor line inside the table, the header line
    otherwise) and [n] their number: fewer than two pipes give -1; an
    offset in the interval from [p i] (excluded) to [p (i+1)] (included)
    gives column [i]; an offset at or before the first pipe gives column
    0; an offset after the last pipe gives column [n - 2]; each of these
    when it is a column of the header, and -1 when it is not. *)
Theorem getCursorColumnIndex_mapping (lines : list jsstring) (table : ParsedTable) (cursor : Cursor) :
  let p := pipePositions (targetLine lines table cursor) in
  let n := length p in
  let result := getCursorColumnIndex lines table cursor in
  (n < 2 -> result = (-1)%Z)
  /\ (forall i, S i < n -> (nth i p 0 < ch cursor <= nth (S i) p 0)%Z ->
                result = columnOrNone table (Z.of_nat i))
  /\ (2 <= n -> (ch cursor <= nth 0 p 0)%Z -> result = columnOrNone table 0)
  /\ (2 <= n -> (nth (n - 1) p 0 < ch cursor)%Z ->
      result = columnOrNone table (Z.of_nat n - 2)).
Proof.
  intros p n result.
  pose proof (pipePositions_sorted (targetLine lines table cursor)) as Hs. fold p in Hs.
  pose proof (sorted_bounds p Hs) as Hb. fold n in Hb.
  split; [|split; [|split]].
  - intros Hn. unfold result, getCursorColumnIndex. fold p.
    destruct (includesChar pipe (targetLine lines table cursor)); [|reflexivity].
    simpl negb. cbv iota.
    now replace (length p <? 2) with true by (symmetry; apply Nat.ltb_lt; exact Hn).
  - intros i Hi Hch. unfold result.
    rewrite getCursorColumnIndex_pipes by (fold p; fold n; lia). fold p.
    rewrite (findColumn_between (ch cursor) p i 0%Z Hs Hi Hch). cbv zeta.
    rewrite Z.add_0_l.
    replace (Z.of_nat i =? -1)%Z with false by (symmetry; apply Z.eqb_neq; lia).
    simpl andb. cbv iota.
    replace (Z.of_nat i =? -1)%Z with false by (symmetry; apply Z.eqb_neq; lia).
    reflexivity.
  - intros Hn Hch. unfold result.
    rewrite getCursorColumnIndex_pipes by (fold p; fold n; lia). fold p.
    rewrite findColumn_before.
    + cbv zeta. rewrite Z.eqb_refl.
      replace (ch cursor <=? nth 0 p 0)%Z with true by (symmetry; apply Z.leb_le; exact Hch).
      reflexivity.
    + eapply Forall_impl; [|exact Hb]. simpl. intros; lia.
  - intros Hn Hch. unfold result.
    rewrite getCursorColumnIndex_pipes by (fold p; fold n; lia). fold p. fold n.
    assert (H0 : (nth 0 p 0 <= nth (n - 1) p 0)%Z).
    { rewrite Forall_forall in Hb. destruct p as [|a l]; [simpl in n; unfold n in Hn; simpl in Hn; lia|].
      specialize (Hb a (or_introl eq_refl)). simpl nth at 1. lia. }
    rewrite findColumn_after.
    + cbv zeta. rewrite Z.eqb_refl.
      replace (ch cursor <=? nth 0 p 0)%Z with false by (symmetry; apply Z.leb_gt; lia).
      simpl andb. cbv iota.
      replace (ch cursor >? nth (n - 1) p 0)%Z with true
        by (rewrite Z.gtb_ltb; symmetry; apply Z.ltb_lt; exact Hch).
      reflexivity.
    + eapply Forall_impl; [|exact Hb]. simpl. intros; lia.
Qed.

Lemma getCursorColumnIndex_mapping_witness :
  getCursorColumnIndex Samples.raggedLines Samples.ragged (mkCursor 2 3)
  = columnOrNone Samples.ragged 0
  /\ getCursorColumnIndex Samples.raggedLines Samples.ragged (mkCursor 2 6)
     = columnOrNone Samples.ragged 1
  /\ getCursorColumnIndex Samples.raggedLines Samples.ragged (mkCursor 2 0)
     = columnOrNone Samples.ragged 0
  /\ getCursorColumnIndex Samples.raggedLines Samples.ragged (mkCursor 2 9)
     = columnOrNone Samples.ragged 1.
Proof.
  split; [|split; [|split]].
  - destruct (getCursorColumnIndex_mapping Samples.raggedLines Samples.ragged (mkCursor 2 3))
      as (_ & H & _).
    apply (H 0); [vm_compute; lia | vm_compute; split; [reflexivity | discriminate]].
  - destruct (getCursorColumnIndex_mapping Samples.raggedLines Samples.ragged (mkCursor 2 6))
      as (_ & H & _).
    apply (H 1); [vm_compute; lia | vm_compute; split; [reflexivity | discriminate]].
  - destruct (getCursorColumnIndex_mapping Samples.raggedLines Samples.ragged (mkCursor 2 0))
      as (_ & _ & H & _).
    apply H; [vm_compute; lia | vm_compute; discriminate].
  - destruct (getCursorColumnIndex_mapping Samples.raggedLines Samples.ragged (mkCursor 2 9))
      as (_ & _ & _ & H).
    apply H; [vm_compute; lia | vm_compute; reflexivity].
Defined.

(** C6 as stated fails on a data row with more cells than the header:
    in the table parsed from [ragged], offset 6 of ["| a | b |"] lies
    between the pipes at 4 and 8, which the claim maps to column 1; the
    header has one column and the result is -1. *)
Lemma getCursorColumnIndex_counterexample :
  parseTable (join [nl] Samples.raggedLines) 0 = Some Samples.ragged
  /\ getCursorColumnIndex Samples.raggedLines Samples.ragged (mkCursor 2 6) = (-1)%Z
  /\ ~ columnAtCharSpec (str "| a | b |") 6
        (getCursorColumnIndex Samples.raggedLines Samples.ragged (mkCursor 2 6)).
Proof.
  split; [vm_compute; reflexivity|]. split; [vm_compute; reflexivity|].
  intros (_ & H & _). specialize (H 1).
  vm_compute in H. assert (E : Z.neg 1 = Z.pos 1) by (apply H; [lia | split; congruence]).
  discriminate E.
Qed.

End CursorFacts.

(* ===================================================================== *)
(** * Cell colors *)
(* ===================================================================== *)

Module ColorFacts.

(** On plain text the second application replaces the wrapper of the
    first. *)
Lemma applyCellColor_plain_twice :
  let cell := mkCell (str "Apple") in
  content (applyCellColor cell Samples.red) = Samples.wrapped "cell-bg-ff0000" "Apple"
  /\ applyCellColor (applyCellColor cell Samples.red) Samples.red
     = applyCellColor cell Samples.red.
Proof. split; vm_compute; reflexivity. Qed.

(** ** Where the second application does replace the first wrapper *)

Lemma stripPrefix_app (p s : jsstring) : stripPrefix p (p ++ s) = Some s.
Proof. induction p as [|a p IH]; simpl; [reflexivity|]. now rewrite Ascii.eqb_refl. Qed.

(** A literal that holds a character [e] cannot start in a run of
    characters other than [e] that ends before a [d] the literal does not
    reach. *)
Lemma stripPrefix_blocked (e d : ascii) (p2 rest : jsstring) (p1 : jsstring) :
  forall h : jsstring,
  ~ In d p1 -> e <> d -> ~ In e h ->
  stripPrefix (p1 ++ e :: p2) (h ++ d :: rest) = None.
Proof.
  induction p1 as [|q p1 IH]; intros h Hd He Hh.
  - destruct h as [|a h]; simpl.
    + now replace (Ascii.eqb e d) with false by (symmetry; now apply Ascii.eqb_neq).
    + replace (Ascii.eqb e a) with false; [reflexivity|].
      symmetry. apply Ascii.eqb_neq. intros ->. apply Hh. now left.
  - destruct h as [|a h]; simpl.
    + replace (Ascii.eqb q d) with false; [reflexivity|].
      symmetry. apply Ascii.eqb_neq. intros ->. apply Hd. now left.
    + destruct (Ascii.eqb q a); [|reflexivity].
      apply IH; [| exact He |]; intros H; [apply Hd | apply Hh]; now right.
Qed.

Lemma star_stop (capture : bool) (c : ascii) (k : Continuation) (s : jsstring) :
  star capture c k (c :: s) = k (c :: s).
Proof. simpl. now rewrite Ascii.eqb_refl. Qed.

Lemma star_fails (capture : bool) (c x : ascii) (k : Continuation) (s : jsstring) :
  x <> c -> star capture c k s = None -> k (x :: s) = None ->
  star capture c k (x :: s) = None.
Proof.
  intros Hx Hs Hk. simpl.
  replace (Ascii.eqb x c) with false by (symmetry; now apply Ascii.eqb_neq).
  now rewrite Hs.
Qed.

Lemma star_gives_back (capture : bool) (c x : ascii) (k : Continuation) (s : jsstring) :
  x <> c -> star capture c k s = None -> star capture c k (x :: s) = k (x :: s).
Proof.
  intros Hx Hs. simpl.
  replace (Ascii.eqb x c) with false by (symmetry; now apply Ascii.eqb_neq).
  now rewrite Hs.
Qed.

Lemma star_keeps (c x : ascii) (k : Continuation) (s : jsstring) (r : jsstring * jsstring) :
  x <> c -> star false c k s = Some r -> star false c k (x :: s) = Some r.
Proof.
  intros Hx Hs. simpl.
  replace (Ascii.eqb x c) with false by (symmetry; now apply Ascii.eqb_neq).
  rewrite Hs. now destruct r.
Qed.

(** A star runs over the characters it accepts when the rest of the
    pattern matches behind them. *)
Lemma star_runs (c : ascii) (k : Continuation) (u v : jsstring) (r : jsstring * jsstring) :
  ~ In c u -> k (c :: v) = Some r -> star false c k (u ++ c :: v) = Some r.
Proof.
  intros Hu Hk. induction u as [|a u IH].
  - simpl app. now rewrite star_stop.
  - simpl. replace (Ascii.eqb a c) with false
      by (symmetry; apply Ascii.eqb_neq; intros ->; apply Hu; now left).
    rewrite IH; [now destruct r | intros H; apply Hu; now right].
Qed.

Lemma star_captures (c : ascii) (k : Continuation) (u v rest : jsstring) :
  ~ In c u -> k (c :: v) = Some ([], rest) ->
  star true c k (u ++ c :: v) = Some (u, rest).
Proof.
  intros Hu Hk. induction u as [|a u IH].
  - simpl app. now rewrite star_stop.
  - simpl. replace (Ascii.eqb a c) with false
      by (symmetry; apply Ascii.eqb_neq; intros ->; apply Hu; now left).
    rewrite IH; [reflexivity | intros H; apply Hu; now right].
Qed.

Lemma replaceAllFrom_skips (ps : list Piece) (repl : jsstring -> jsstring) (s : jsstring) :
  forall k, length s <= k -> replaceAllFrom ps repl k s = [].
Proof.
  induction s as [|c s IH]; intros k Hk; [reflexivity|].
  simpl in Hk. destruct k as [|k]; [lia|]. simpl. apply IH. lia.
Qed.

(** A pattern that matches nowhere leaves the string as it is. *)
Lemma replaceAll_no_match (ps : list Piece) (repl : jsstring -> jsstring) (s : jsstring) :
  (forall pre post, s = pre ++ post -> matchPieces ps post = None) ->
  replaceAll ps repl s = s.
Proof.
  unfold replaceAll. induction s as [|c s IH]; intros H; [reflexivity|].
  simpl. rewrite (H [] (c :: s) eq_refl). f_equal. apply IH.
  intros pre post ->. apply (H (c :: pre)). reflexivity.
Qed.

Lemma nowhere_nil (ps : list Piece) (l : jsstring) (c : ascii) :
  forall pre post, [] = pre ++ post -> matchPieces (Lit (c :: l) :: ps) post = None.
Proof.
  intros pre post H. symmetry in H. apply app_eq_nil in H. destruct H as [_ ->]. reflexivity.
Qed.

Lemma nowhere_cons (ps : list Piece) (a : ascii) (s : jsstring) :
  matchPieces ps (a :: s) = None ->
  (forall pre post, s = pre ++ post -> matchPieces ps post = None) ->
  forall pre post, a :: s = pre ++ post -> matchPieces ps post = None.
Proof.
  intros Ha Hs pre post H. destruct pre as [|b pre].
  - simpl in H. now subst post.
  - simpl in H. inversion H; subst. now apply (Hs pre).
Qed.

(** A pattern that starts with the character [c] matches nowhere in a
    run without [c], unless it matches behind the run. *)
Lemma nowhere_run (ps : list Piece) (c : ascii) (l u v : jsstring) :
  ~ In c u ->
  (forall pre post, v = pre ++ post -> matchPieces (Lit (c :: l) :: ps) post = None) ->
  forall pre post, u ++ v = pre ++ post -> matchPieces (Lit (c :: l) :: ps) post = None.
Proof.
  intros Hu Hv. induction u as [|a u IH]; [exact Hv|].
  simpl app. apply nowhere_cons.
  - simpl. replace (Ascii.eqb c a) with false; [reflexivity|].
    symmetry. apply Ascii.eqb_neq. intros ->. apply Hu. now left.
  - apply IH. intros H. apply Hu. now right.
Qed.

Lemma alphaNum_not (c : ascii) (h : jsstring) :
  isAlphaNum c = false -> Forall (fun a => isAlphaNum a = true) h -> ~ In c h.
Proof.
  intros Hc Hh Hin. rewrite Forall_forall in Hh. specialize (Hh c Hin). congruence.
Qed.

Lemma getColorClass_alphaNum (color : jsstring) :
  exists hash, getColorClass color = str "cell-bg-" ++ hash
               /\ Forall (fun a => isAlphaNum a = true) hash.
Proof.
  eexists. split; [reflexivity|]. rewrite Forall_forall. intros a Ha.
  now apply filter_In in Ha.
Qed.

Section Wrapper.

Variables (hash inner : jsstring).
Hypothesis hash_alphaNum : Forall (fun a => isAlphaNum a = true) hash.
Hypothesis inner_plain : ~ In "<"%char inner.

Lemma hash_no_lt : ~ In "<"%char hash.
Proof. now apply alphaNum_not. Qed.

(** No pattern that starts with '<' and another character than 'd' or '/'
    matches anywhere in the wrapper. *)
Lemma wrapper_other_tags (c : ascii) (l : jsstring) (ps : list Piece) :
  c <> "d"%char -> c <> "/"%char ->
  forall pre post, colorWrapper hash inner = pre ++ post ->
                   matchPieces (Lit ("<"%char :: c :: l) :: ps) post = None.
Proof.
  intros Hd Hs. unfold colorWrapper. cbn [str list_ascii_of_string app].
  assert (E1 : Ascii.eqb c "d" = false) by now apply Ascii.eqb_neq.
  assert (E2 : Ascii.eqb c "/" = false) by now apply Ascii.eqb_neq.
  apply nowhere_cons; [simpl; now rewrite E1|].
  do 19 (apply nowhere_cons; [reflexivity|]).
  apply nowhere_run; [apply hash_no_lt|].
  do 2 (apply nowhere_cons; [reflexivity|]).
  apply nowhere_run; [exact inner_plain|].
  apply nowhere_cons; [simpl; now rewrite E2|].
  do 5 (apply nowhere_cons; [reflexivity|]).
  apply nowhere_nil.
Qed.

Lemma afterDiv_hash (rest : jsstring) : forall h : jsstring,
  Forall (fun a => isAlphaNum a = true) h ->
  afterDiv (h ++ dquote :: rest) = None.
Proof.
  intros h Hh. unfold afterDiv. cbn [matchPieces].
  change classLiteral with (str "class" ++ "="%char :: dquote :: str "cell-bg-").
  rewrite stripPrefix_blocked; [reflexivity | | discriminate |].
  - simpl. intros [H | [H | [H | [H | [H | []]]]]]; discriminate.
  - now apply alphaNum_not.
Qed.

(** Behind the class name the first star cannot give back enough for the
    class attribute to start later. *)
Lemma star_hash (rest : jsstring) : forall h : jsstring,
  Forall (fun a => isAlphaNum a = true) h ->
  star false ">" afterDiv (h ++ dquote :: ">"%char :: rest) = None.
Proof.
  induction h as [|a h IH]; intros Hh.
  - simpl app. apply star_fails; [discriminate | | reflexivity].
    rewrite star_stop. reflexivity.
  - inversion Hh as [|? ? Ha Hh']; subst. simpl app. apply star_fails.
    + intros ->. discriminate Ha.
    + now apply IH.
    + apply (afterDiv_hash _ (a :: h) Hh).
Qed.

Lemma afterClass_wrapper :
  afterClass (hash ++ dquote :: ">"%char :: inner ++ str "</div>") = Some (inner, []).
Proof.
  unfold afterClass. cbn [matchPieces].
  apply star_runs; [now apply alphaNum_not|].
  cbn [stripPrefix]. rewrite Ascii.eqb_refl. rewrite star_stop.
  cbn [str list_ascii_of_string stripPrefix]. rewrite Ascii.eqb_refl.
  apply star_captures; [exact inner_plain | reflexivity].
Qed.

(** [divRegex] matches the whole wrapper, with the wrapped text as its
    group. *)
Lemma divRegex_wrapper :
  matchPieces divRegex (colorWrapper hash inner) = Some (inner, []).
Proof.
  unfold colorWrapper, divRegex.
  change (matchPieces (Lit (str "<div") :: ?ps)) with
    (fun s => match stripPrefix (str "<div") s with
              | Some s' => matchPieces ps s'
              | None => None
              end).
  cbv beta.
  change (str "<div class=" ++ ?r) with (str "<div" ++ " "%char :: str "class=" ++ r).
  rewrite stripPrefix_app.
  change (matchPieces (NotStar ">" :: ?ps)) with (star false ">" (matchPieces ps)).
  fold classLiteral. fold afterDiv.
  cbn [str list_ascii_of_string app].
  assert (Hback : star false ">" afterDiv
                    (str "lass=" ++ dquote :: str "cell-bg-" ++ hash ++ dquote :: ">"%char
                       :: inner ++ str "</div>") = None).
  { cbn [str list_ascii_of_string app].
    do 14 (apply star_fails; [discriminate | | reflexivity]).
    now apply star_hash. }
  cbn [str list_ascii_of_string app] in Hback.
  apply star_keeps; [discriminate|].
  rewrite (star_gives_back false ">" "c" afterDiv _ ltac:(discriminate) Hback).
  unfold afterDiv. cbn [matchPieces].
  change ("c"%char :: ?r)
    with (classLiteral ++ hash ++ dquote :: ">"%char :: inner ++ str "</div>") at 1.
  rewrite stripPrefix_app. apply afterClass_wrapper.
Qed.

(** Cleaning the wrapper gives back the text it wraps. *)
Lemma cleanContent_wrapper : cleanContent (colorWrapper hash inner) = inner.
Proof.
  unfold cleanContent, styledTagRegex, markRegex.
  cbn [str list_ascii_of_string app].
  rewrite (replaceAll_no_match _ group1 (colorWrapper hash inner))
    by (apply wrapper_other_tags; discriminate).
  rewrite (replaceAll_no_match _ group1 (colorWrapper hash inner))
    by (apply wrapper_other_tags; discriminate).
  rewrite (replaceAll_no_match _ group1 (colorWrapper hash inner))
    by (apply wrapper_other_tags; discriminate).
  unfold replaceAll.
  assert (E : exists w, colorWrapper hash inner = "<"%char :: w) by (eexists; reflexivity).
  destruct E as [w E]. pose proof divRegex_wrapper as M. rewrite E in *.
  cbn [replaceAllFrom]. rewrite M. unfold group1.
  rewrite replaceAllFrom_skips by (simpl; lia). apply app_nil_r.
Qed.

End Wrapper.

(** On a cell whose cleaned content holds no '<', applying a color twice
    gives what applying it once gives. *)
Lemma applyCellColor_idempotent_plain (cell : TableCell) (color : jsstring) :
  color <> [] -> ~ In "<"%char (cleanContent (content cell)) ->
  applyCellColor (applyCellColor cell color) color = applyCellColor cell color.
Proof.
  intros Hc Hplain. destruct color as [|c0 color]; [congruence|].
  destruct (getColorClass_alphaNum (c0 :: color)) as [hash [Eh Hh]].
  set (clean := cleanContent (content cell)) in *.
  set (inner := match trim clean with [] => str "&nbsp;" | _ => clean end).
  assert (Hinner : ~ In "<"%char inner).
  { unfold inner. destruct (trim clean); [|exact Hplain].
    simpl. intros [H | [H | [H | [H | [H | [H | []]]]]]]; discriminate. }
  assert (Htrim : match trim inner with [] => str "&nbsp;" | _ => inner end = inner).
  { unfold inner. destruct (trim clean) eqn:E; [reflexivity | now rewrite E]. }
  assert (E1 : applyCellColor cell (c0 :: color) = mkCell (colorWrapper hash inner)).
  { unfold applyCellColor. fold clean. fold inner. rewrite Eh.
    f_equal. }
  rewrite E1. unfold applyCellColor at 1. cbn [content].
  rewrite (cleanContent_wrapper hash inner Hh Hinner), Htrim, Eh.
  f_equal.
Qed.

(** C7. [applyCellColor] is not idempotent on a cell whose content holds
    a '<': the pattern that strips the earlier wrapper only matches a
    wrapper around text without '<', so the second application wraps the
    first wrapper instead of replacing it. *)
Theorem applyCellColor_nests :
  content (applyCellColor Samples.boldCell Samples.red)
  = Samples.wrapped "cell-bg-ff0000" "<b>Total</b>"
  /\ content (applyCellColor (applyCellColor Samples.boldCell Samples.red) Samples.red)
     = str "<div class=" ++ [dquote] ++ str "cell-bg-ff0000" ++ [dquote] ++ str ">"
         ++ Samples.wrapped "cell-bg-ff0000" "<b>Total</b>" ++ str "</div>"
  /\ applyCellColor (applyCellColor Samples.boldCell Samples.red) Samples.red
     <> applyCellColor Samples.boldCell Samples.red.
Proof.
  split; [vm_compute; reflexivity|]. split; [vm_compute; reflexivity|].
  vm_compute. discriminate.
Qed.

End ColorFacts.

(* ===================================================================== *)
(** * The validator *)
(* ===================================================================== *)

Module ValidatorFacts.

(** The separator loop is the only loop that touches [isValid]. *)
Lemma separatorLoop_isValid (seps : list jsstring) : forall (i : nat) (r : ValidationResult),
  isValid (forEachFrom (fun sep index result =>
                          if negb (tokenRegex sep)
                          then setInvalid (pushError (invalidSeparatorMsg index sep) result)
                          else result) i seps r)
  = isValid r && forallb tokenRegex seps.
Proof.
  induction seps as [|sep seps IH]; intros i r; simpl.
  - now rewrite andb_true_r.
  - rewrite IH. destruct (tokenRegex sep); simpl; [reflexivity|].
    now rewrite andb_false_r.
Qed.

(** A loop that only pushes warnings keeps [isValid]. *)
Lemma warningLoop_isValid {A : Type} (cond : A -> nat -> bool) (msg : A -> nat -> jsstring)
      (l : list A) : forall (i : nat) (r : ValidationResult),
  isValid (forEachFrom (fun x index result =>
                          if cond x index then pushWarning (msg x index) result else result)
                       i l r)
  = isValid r.
Proof.
  induction l as [|x l IH]; intros i r; simpl; [reflexivity|].
  rewrite IH. now destruct (cond x i).
Qed.

(** Warnings never change [isValid]: it is decided by the three error
    conditions alone. *)
Lemma validateTable_isValid (t : ParsedTable) :
  isValid (validateTable t)
  = negb (length (cells (headers t)) =? 0)
    && (length (separator t) =? length (cells (headers t)))
    && forallb tokenRegex (separator t).
Proof.
  unfold validateTable, forEach. rewrite separatorLoop_isValid. f_equal.
  rewrite (warningLoop_isValid (fun cell _ => isEmpty (trim (content cell)))
                               (fun _ index => headerEmptyMsg index)).
  rewrite (warningLoop_isValid
             (fun row _ => negb (length (cells row) =? length (cells (headers t))))
             (fun row index => rowMismatchMsg index (length (cells row))
                                 (length (cells (headers t))))).
  destruct (length (cells (headers t)) =? 0);
    destruct (length (separator t) =? length (cells (headers t))); reflexivity.
Qed.

Lemma warningLoop_warnings {A : Type} (cond : A -> nat -> bool) (msg : A -> nat -> jsstring)
      (w : jsstring) (l : list A) : forall (i : nat) (r : ValidationResult),
  In w (warnings (forEachFrom (fun x index result =>
                                 if cond x index then pushWarning (msg x index) result
                                 else result)
                              i l r)) ->
  In w (warnings r) \/ exists x j, w = msg x j.
Proof.
  induction l as [|x l IH]; intros i r H; simpl in H; [now left|].
  apply IH in H. destruct H as [H | H]; [|now right].
  destruct (cond x i); [|now left].
  simpl in H. apply in_app_iff in H. destruct H as [H | [<- | []]]; [now left|].
  right. eauto.
Qed.

Lemma separatorLoop_warnings (seps : list jsstring) : forall (i : nat) (r : ValidationResult),
  warnings (forEachFrom (fun sep index result =>
                           if negb (tokenRegex sep)
                           then setInvalid (pushError (invalidSeparatorMsg index sep) result)
                           else result) i seps r)
  = warnings r.
Proof.
  induction seps as [|sep seps IH]; intros i r; simpl; [reflexivity|].
  rewrite IH. now destruct (tokenRegex sep).
Qed.

(** Every warning of [validateTable] is a row-count or an empty-header
    message: it has no duplicate-header warning, for any table. *)
Lemma validateTable_warnings (t : ParsedTable) (w : jsstring) :
  In w (warnings (validateTable t)) ->
  (exists index len expected, w = rowMismatchMsg index len expected)
  \/ (exists index, w = headerEmptyMsg index).
Proof.
  unfold validateTable, forEach. rewrite separatorLoop_warnings. intros H.
  apply (warningLoop_warnings (fun cell _ => isEmpty (trim (content cell)))
                              (fun _ index => headerEmptyMsg index)) in H.
  destruct H as [H | (x & j & ->)]; [|right; eauto].
  apply (warningLoop_warnings
           (fun row _ => negb (length (cells row) =? length (cells (headers t))))
           (fun row index => rowMismatchMsg index (length (cells row))
                               (length (cells (headers t))))) in H.
  destruct H as [H | (x & j & ->)]; [|left; eauto].
  exfalso.
  destruct (length (cells (headers t)) =? 0);
    destruct (length (separator t) =? length (cells (headers t))); simpl in H; exact H.
Qed.

Lemma dropDashes_chars (s : jsstring) (c : ascii) :
  In c s -> c = "-"%char \/ In c (dropDashes s).
Proof.
  induction s as [|x s IH]; simpl; [tauto|].
  destruct (Ascii.eqb_spec x "-"%char) as [-> | Hx].
  - intros [<- | H]; [now left | now apply IH].
  - intros H. now right.
Qed.

(** A token the validator accepts is made of ':' and '-'. *)
Lemma tokenRegex_chars (sep : jsstring) (c : ascii) :
  tokenRegex sep = true -> In c sep -> c = ":"%char \/ c = "-"%char.
Proof.
  unfold tokenRegex. intros H Hc.
  assert (Hrest : forall r : jsstring,
             match r with
             | [] => false
             | x :: _ => Ascii.eqb x "-" &&
                         match dropDashes r with
                         | [] => true
                         | [c'] => Ascii.eqb c' ":"
                         | _ => false
                         end
             end = true ->
             In c r -> c = ":"%char \/ c = "-"%char).
  { intros r Hr Hin. destruct r as [|x r]; [discriminate|].
    apply andb_true_iff in Hr. destruct Hr as [_ Hr].
    destruct (dropDashes_chars _ _ Hin) as [-> | Hd]; [now right|].
    destruct (dropDashes (x :: r)) as [|y [|z q]]; try discriminate; [destruct Hd|].
    apply Ascii.eqb_eq in Hr. subst y. destruct Hd as [<- | []]. now left. }
  destruct sep as [|a sep]; [discriminate|].
  destruct (Ascii.eqb a ":") eqn:Ea.
  - apply Ascii.eqb_eq in Ea. subst a.
    destruct Hc as [<- | Hc]; [now left|]. exact (Hrest sep H Hc).
  - exact (Hrest (a :: sep) H Hc).
Qed.

(** The tokens the validator accepts are separator fields: a table that
    [validateTable] finds valid, with cells that are fields, is
    well-formed. *)
Lemma tokenRegex_isSeparatorField (sep : jsstring) :
  tokenRegex sep = true -> isSeparatorField sep = true.
Proof.
  intros H. pose proof (fun c => tokenRegex_chars sep c H) as Hc.
  unfold isSeparatorField, isField. rewrite !andb_true_iff, !negb_true_iff.
  repeat split.
  - apply JSFacts.jsstring_eqb_eq. apply JSFacts.trim_no_blank.
    intros c Hin. destruct (Hc c Hin) as [-> | ->]; reflexivity.
  - apply JSFacts.includesChar_false. intros Hin.
    destruct (Hc _ Hin); discriminate.
  - apply JSFacts.includesChar_false. intros Hin.
    destruct (Hc _ Hin); discriminate.
  - rewrite forallb_forall. intros c Hin. destruct (Hc c Hin) as [-> | ->]; reflexivity.
Qed.

(** C8. [validateTable] has no duplicate-header check: on a table whose
    two headers are equal up to case it reports no warning at all, while
    [validateTableData] on the same headers and rows reports the
    duplicate. *)
Theorem validateTable_misses_duplicates :
  parseTable Samples.duplicatedText 0 = Some Samples.duplicated
  /\ validateTable Samples.duplicated = mkResult true [] []
  /\ validateTableData (headerTexts Samples.duplicated)
       (Some (map ArrayRow (rowTexts Samples.duplicated)))
     = mkResult true []
         [str "Duplicate header found: " ++ [dquote] ++ str "NAME" ++ [dquote]].
Proof. repeat split; vm_compute; reflexivity. Qed.

End ValidatorFacts.

(* ===================================================================== *)
(** * CSV import *)
(* ===================================================================== *)

Module CsvFacts.

(** The splitter on the line of the specification's scenario. *)
Lemma parseCSVLine_quoted :
  parseCSVLine ([dquote] ++ str "John, Jr." ++ [dquote] ++ str ",25,"
                  ++ [dquote] ++ str "New York, NY" ++ [dquote])
  = [str "John, Jr."; str "25"; str "New York, NY"].
Proof. vm_compute. reflexivity. Qed.

(** C9. [convertCSVToTable] writes every data row with the fields it
    has: a row with fewer or more fields than the header is neither
    padded nor cut, and the parser reads one and three cells back under
    two headers.  [generateTable(headers, rows)] pads and cuts the same
    rows. *)
Theorem convertCSVToTable_keeps_row_lengths :
  convertCSVToTable Samples.unevenCsv
  = CsvInserted
      (join [nl] [str "| name | age |"; str "| --- | --- |"; str "| John |";
                  str "| Jane | 30 | London |"] ++ [nl])
      (str "CSV imported: 2 columns, 2 rows")
  /\ (exists t, parseTable (join [nl] [str "| name | age |"; str "| --- | --- |";
                                       str "| John |"; str "| Jane | 30 | London |"]) 0
                = Some t
                /\ length (cells (headers t)) = 2
                /\ map (fun row => length (cells row)) (rows t) = [1; 3])
  /\ generateTableLegacy [str "name"; str "age"]
       [[str "John"]; [str "Jane"; str "30"; str "London"]]
     = join [nl] [str "| name | age |"; str "| --- | --- |"; str "| John |  |";
                  str "| Jane | 30 |"].
Proof.
  split; [vm_compute; reflexivity|]. split; [|vm_compute; reflexivity].
  eexists. split; [vm_compute; reflexivity|]. split; reflexivity.
Qed.

End CsvFacts.

(* ===================================================================== *)
(** * The lines of a parsed table, and the table at the cursor *)
(* ===================================================================== *)

Module LocateFacts.

Import JSFacts ParserFacts.

Lemma isSeparatorLine_isTableLine (l : jsstring) :
  isSeparatorLine l = true -> isTableLine l = true.
Proof.
  unfold isSeparatorLine, isTableLine. rewrite !andb_true_iff. tauto.
Qed.

(** The rows are read from a run of table lines that ends at the first
    line that is not one, or with the text. *)
Lemma parseRows_run (ls : list jsstring) :
  length (parseRows ls) <= length ls
  /\ (forall i, i < length (parseRows ls) ->
                exists l, nth_error ls i = Some l /\ isTableLine l = true)
  /\ (forall l, nth_error ls (length (parseRows ls)) = Some l -> isTableLine l = false).
Proof.
  induction ls as [|x ls (IH1 & IH2 & IH3)]; simpl.
  - repeat split; [lia | intros; lia | intros l H; discriminate].
  - destruct (isTableLine x) eqn:E; simpl.
    + repeat split; [lia | |exact IH3].
      intros [|i] Hi; [exists x; auto|]. apply IH2. lia.
    + repeat split; [lia | intros; lia |]. intros l H. inversion H; subst. exact E.
Qed.

Lemma findTableStart_skips (ls : list jsstring) : forall (k i : nat) (l : jsstring) (rest : list jsstring),
  findTableStart k ls = Some (i, l, rest) ->
  forall j l', j < i - k -> nth_error ls j = Some l' -> isTableLine l' = false.
Proof.
  induction ls as [|x ls IH]; intros k i l rest H j l' Hj Hn; [discriminate|].
  simpl in H. destruct (isTableLine x) eqn:E.
  - inversion H; subst. lia.
  - destruct j as [|j]; [simpl in Hn; inversion Hn; subst; exact E|].
    simpl in Hn. apply (IH (S k) i l rest H j l'); [|exact Hn].
    apply findTableStart_sound in H. lia.
Qed.

(** X1. The line range of a parsed table: it starts at the first table
    line at or after [startLine], its header line is followed by one
    separator line and one line per row, every line of the range is a
    table line, and the range ends at the last line of the text or
    before a line that is not a table line. *)
Theorem parseTable_range (text : jsstring) (start : nat) (t : ParsedTable) :
  parseTable text start = Some t ->
  let lines := split nl text in
  start <= startLine t
  /\ endLine t = startLine t + 1 + length (rows t)
  /\ endLine t < length lines
  /\ (forall i l, start <= i < startLine t -> nth_error lines i = Some l ->
                  isTableLine l = false)
  /\ (forall i, startLine t <= i <= endLine t ->
                exists l, nth_error lines i = Some l /\ isTableLine l = true)
  /\ (forall l, nth_error lines (S (endLine t)) = Some l -> isTableLine l = false).
Proof.
  unfold parseTable. cbv zeta. intros H. set (lines := split nl text) in *.
  destruct (findTableStart start (skipn start lines)) as [[[i h] rest]|] eqn:E;
    [|discriminate].
  pose proof (findTableStart_skips _ _ _ _ _ E) as Hskip.
  apply findTableStart_sound in E. destruct E as (Hle & Hh & Ht & ->).
  rewrite skipn_skipn in H. rewrite nth_error_skipn_add in Hh.
  replace (start + (i - start)) with i in Hh by lia.
  replace (S (i - start) + start) with (S i) in H by lia.
  destruct (skipn (S i) lines) as [|sl rest] eqn:Er; [discriminate|].
  destruct (isSeparatorLine sl) eqn:Es; [|discriminate].
  simpl in H. inversion H; subst t; clear H. cbn [startLine endLine rows].
  pose proof (skipn_S_nth _ _ _ _ Er) as Hsl.
  assert (Hrest : rest = skipn (S (S i)) lines).
  { replace (S (S i)) with (1 + S i) by lia. rewrite <- skipn_skipn, Er. reflexivity. }
  destruct (parseRows_run rest) as (R1 & R2 & R3).
  assert (Hlen : S (S i) + length rest = length lines).
  { rewrite Hrest, length_skipn.
    assert (S i < length lines) by (apply nth_error_Some; congruence). lia. }
  split; [lia|]. split; [lia|]. split; [lia|]. split; [|split].
  - intros j l [Hj1 Hj2] Hn. apply (Hskip (j - start) l); [lia|].
    rewrite nth_error_skipn_add. now replace (start + (j - start)) with j by lia.
  - intros j [Hj1 Hj2].
    destruct (Nat.eq_dec j i) as [->|Hji]; [exists h; auto|].
    destruct (Nat.eq_dec j (S i)) as [->|Hjs].
    { exists sl. split; [exact Hsl | now apply isSeparatorLine_isTableLine]. }
    destruct (R2 (j - S (S i))) as [l [Hl1 Hl2]]; [lia|].
    exists l. split; [|exact Hl2].
    rewrite Hrest, nth_error_skipn_add in Hl1.
    now replace (S (S i) + (j - S (S i))) with j in Hl1 by lia.
  - intros l Hn. apply R3.
    rewrite Hrest at 1. rewrite nth_error_skipn_add.
    now replace (S (S i) + length (parseRows rest)) with (S (i + 2 + length (parseRows rest) - 1))
      by lia.
Qed.

Lemma parseTable_range_witness :
  let lines := split nl Samples.peopleText in
  0 <= startLine Samples.people
  /\ endLine Samples.people = startLine Samples.people + 1 + length (rows Samples.people)
  /\ endLine Samples.people < length lines
  /\ (forall i l, 0 <= i < startLine Samples.people -> nth_error lines i = Some l ->
                  isTableLine l = false)
  /\ (forall i, startLine Samples.people <= i <= endLine Samples.people ->
                exists l, nth_error lines i = Some l /\ isTableLine l = true)
  /\ (forall l, nth_error lines (S (endLine Samples.people)) = Some l ->
                isTableLine l = false).
Proof.
  apply (parseTable_range Samples.peopleText 0 Samples.people). vm_compute. reflexivity.
Defined.

(** Going up through table lines. *)
Lemma scanUp_table_lines (lines : list jsstring) (h : nat) : forall k : nat,
  h <= k ->
  (forall i, h <= i <= k -> isTableLineAt lines i = Some true) ->
  scanUp lines k = scanUp lines (h - 1).
Proof.
  induction k as [|k IH]; intros Hle Hall.
  - now replace (h - 1) with 0 by lia.
  - destruct (Nat.eq_dec h (S k)) as [->|Hne].
    + simpl scanUp at 1. rewrite (Hall (S k)) by lia.
      now replace (S k - 1) with k by lia.
    + simpl scanUp at 1. rewrite (Hall (S k)) by lia.
      apply IH; [lia|]. intros i Hi. apply Hall. lia.
Qed.

Lemma scanUp_stops (lines : list jsstring) (k : nat) :
  k = 0 \/ isTableLineAt lines k = Some false -> scanUp lines k = Some k.
Proof.
  intros [-> | H]; [reflexivity|]. destruct k as [|k]; [reflexivity|].
  simpl. now rewrite H.
Qed.

(** X2. From any line of a block of table lines, [getTableAtCursor] is
    [parseTable] from the first line of the block: with lines [h] to [k]
    all table lines and line [h] the first of the text or after a line
    that is not a table line, the table at cursor line [k] is the table
    parsed from line [h]. *)
Theorem getTableAtCursor_inside (text : jsstring) (h k : nat) :
  let lines := split nl text in
  h <= k ->
  (forall i, h <= i <= k -> isTableLineAt lines i = Some true) ->
  (h = 0 \/ isTableLineAt lines (h - 1) = Some false) ->
  getTableAtCursor text k = Returned (parseTable text h).
Proof.
  intros lines Hle Hall Hfirst. unfold getTableAtCursor. fold lines.
  rewrite (scanUp_table_lines lines h k Hle Hall).
  assert (Hh : isTableLineAt lines h = Some true) by (apply Hall; lia).
  assert (Hlen : h < length lines).
  { unfold isTableLineAt in Hh. apply nth_error_Some.
    destruct (nth_error lines h); [discriminate | discriminate]. }
  destruct (Nat.eq_dec h 0) as [->|Hne].
  - change (0 - 1) with 0. cbn [scanUp]. rewrite Hh.
    replace (length lines <=? 0) with false by (symmetry; apply Nat.leb_gt; lia).
    now rewrite Hh.
  - destruct Hfirst as [-> | Hprev]; [congruence|].
    rewrite scanUp_stops by (now right). rewrite Hprev.
    replace (S (h - 1)) with h by lia.
    replace (length lines <=? h) with false by (symmetry; apply Nat.leb_gt; lia).
    now rewrite Hh.
Qed.

Lemma getTableAtCursor_inside_witness :
  getTableAtCursor Samples.noteText 3 = Returned (parseTable Samples.noteText 1).
Proof.
  apply (getTableAtCursor_inside Samples.noteText 1 3).
  - lia.
  - intros i Hi. assert (i = 1 \/ i = 2 \/ i = 3) as [-> | [-> | ->]] by lia; reflexivity.
  - right. reflexivity.
Defined.

(** X3. Off the table: on a line that is no table line, when the next
    line is no table line either or does not exist, [getTableAtCursor]
    returns null. *)
Theorem getTableAtCursor_null (text : jsstring) (k : nat) :
  let lines := split nl text in
  isTableLineAt lines k = Some false ->
  (isTableLineAt lines (S k) = Some false \/ length lines <= S k) ->
  getTableAtCursor text k = Returned None.
Proof.
  intros lines Hk Hnext. unfold getTableAtCursor. fold lines.
  rewrite scanUp_stops by (now right). rewrite Hk.
  destruct (length lines <=? S k) eqn:E; [reflexivity|].
  apply Nat.leb_gt in E. destruct Hnext as [-> | Hlen]; [reflexivity | lia].
Qed.

Lemma getTableAtCursor_null_witness :
  getTableAtCursor Samples.noteText 5 = Returned None.
Proof.
  apply (getTableAtCursor_null Samples.noteText 5); [reflexivity|].
  right. vm_compute. lia.
Defined.

(** X4. Past the text: a cursor line that is not a line of the text makes
    [getTableAtCursor] throw, where it reads [trim] of a line that does
    not exist, instead of returning null. *)
Theorem getTableAtCursor_throws (text : jsstring) (k : nat) :
  length (split nl text) <= k -> getTableAtCursor text k = Thrown.
Proof.
  intros Hk. unfold getTableAtCursor.
  pose proof (split_nonempty nl text) as Hne.
  destruct k as [|k]; [lia|]. simpl scanUp. unfold isTableLineAt.
  replace (nth_error (split nl text) (S k)) with (@None jsstring); [reflexivity|].
  symmetry. now apply nth_error_None.
Qed.

Lemma getTableAtCursor_throws_witness : getTableAtCursor Samples.peopleText 4 = Thrown.
Proof. apply (getTableAtCursor_throws Samples.peopleText 4). vm_compute. lia. Defined.

End LocateFacts.

(* ===================================================================== *)
(** * Tables generated from headers and rows *)
(* ===================================================================== *)

Module GenerateFacts.

Import JSFacts ParserFacts.

Lemma map_content_mkCell (fs : list jsstring) : map content (map mkCell fs) = fs.
Proof. rewrite map_map. simpl. apply map_id. Qed.

Lemma parseTableRow_rowLine_cells (fs : list jsstring) :
  Forall Field fs -> parseTableRow (rowLine fs) = mkRow (map mkCell (readBack fs)).
Proof.
  intros Hfs. unfold parseTableRow. rewrite <- (split_rowLine fs Hfs).
  now rewrite map_map.
Qed.

(** The padded and cut row has as many fields as there are headers. *)
Lemma padded_row_length (n : nat) (row : list jsstring) :
  length (firstn n (padRow n row)) = n.
Proof.
  unfold padRow. rewrite length_firstn, length_app, repeat_length. lia.
Qed.

Lemma padded_row_fields (n : nat) (row : list jsstring) :
  Forall Field row -> Forall Field (firstn n (padRow n row)).
Proof.
  intros H. rewrite Forall_forall in *. intros f Hf. apply in_firstn in Hf.
  unfold padRow in Hf. apply in_app_iff in Hf. destruct Hf as [Hf | Hf]; [now apply H|].
  apply repeat_spec in Hf. subst f. repeat split; auto.
Qed.

Lemma mapIndexFrom_length {A B : Type} (f : A -> nat -> B) (l : list A) : forall i,
  length (mapIndexFrom f i l) = length l.
Proof. induction l as [|x l IH]; intros i; simpl; [reflexivity | now rewrite IH]. Qed.

Lemma mapIndexFrom_in {A B : Type} (f : A -> nat -> B) (l : list A) (y : B) : forall i,
  In y (mapIndexFrom f i l) -> exists x j, y = f x j.
Proof.
  induction l as [|x l IH]; intros i; simpl; [tauto|].
  intros [<- | H]; [eauto | now apply (IH (S i))].
Qed.

Lemma alignmentToken_valid (alignments : list Alignment) (index : nat) :
  tokenRegex (alignmentToken alignments index) = true.
Proof.
  unfold alignmentToken. destruct (nth_error alignments index) as [[| |]|]; reflexivity.
Qed.

(** The text of the legacy signature is the text of a table object. *)
Lemma generateTableAligned_generateTable (headers : list jsstring) (rows : list (list jsstring))
      (alignments : list Alignment) :
  generateTableAligned headers rows alignments
  = generateTable (generatedTable headers rows alignments).
Proof.
  unfold generateTableAligned, generateTable, generatedTable. cbn [MarkdownParser.headers separator MarkdownParser.rows cells].
  rewrite map_content_mkCell. do 3 f_equal.
  rewrite !map_map. apply map_ext. intros row. cbn [cells]. now rewrite map_content_mkCell.
Qed.

Lemma generatedTable_wellFormed (headers : list jsstring) (rows : list (list jsstring))
      (alignments : list Alignment) :
  Forall Field headers -> Forall (Forall Field) rows ->
  wellFormed (generatedTable headers rows alignments) = true.
Proof.
  intros Hh Hr. unfold wellFormed, generatedTable, headerTexts, rowTexts.
  cbn [MarkdownParser.headers separator MarkdownParser.rows cells].
  rewrite !andb_true_iff. repeat split.
  - rewrite map_content_mkCell. now apply forallb_Field.
  - rewrite forallb_forall. intros tok Htok. apply mapIndexFrom_in in Htok.
    destruct Htok as (x & j & ->). apply ValidatorFacts.tokenRegex_isSeparatorField.
    apply alignmentToken_valid.
  - rewrite forallb_forall. intros fs Hfs. rewrite map_map in Hfs.
    apply in_map_iff in Hfs. destruct Hfs as [row [<- Hrow]]. cbn [cells].
    rewrite map_content_mkCell. apply forallb_Field. apply padded_row_fields.
    rewrite Forall_forall in Hr. now apply Hr.
Qed.

(** The parser reads the generated text back as the generated table, on
    lines 0 to [1 + rows.length]. *)
Lemma generateTableAligned_parse (headers : list jsstring) (rows : list (list jsstring))
      (alignments : list Alignment) :
  headers <> [] -> Forall Field headers -> Forall (Forall Field) rows ->
  parseTable (generateTableAligned headers rows alignments) 0
  = Some (mkTable (headers_ (generatedTable headers rows alignments))
                  (separator (generatedTable headers rows alignments))
                  (MarkdownParser.rows (generatedTable headers rows alignments))
                  0 (1 + length rows)).
Proof.
  intros Hne Hh Hr.
  pose proof (generatedTable_wellFormed headers rows alignments Hh Hr) as Hwf.
  rewrite generateTableAligned_generateTable.
  rewrite (parseTable_generateTable _ Hwf).
  unfold generatedTable, headerTexts, rowTexts.
  cbn [MarkdownParser.headers separator MarkdownParser.rows cells startLine endLine].
  rewrite map_content_mkCell.
  assert (Hhead : parseTableRow (rowLine headers) = mkRow (map mkCell headers)).
  { rewrite parseTableRow_rowLine_cells by assumption. now destruct headers. }
  rewrite Hhead.
  set (n := length headers).
  assert (Hn : 0 < n) by (unfold n; destruct headers; [congruence | simpl; lia]).
  set (toks := mapIndexFrom (fun (_ : jsstring) index => alignmentToken alignments index) 0 headers).
  assert (Htoks : length toks = n) by apply mapIndexFrom_length.
  assert (Hread : readBack toks = toks).
  { destruct toks; [simpl in Htoks; lia | reflexivity]. }
  rewrite Hread, length_map. f_equal. f_equal.
  rewrite !map_map. apply map_ext_in. intros row Hrow. cbn [cells].
  rewrite map_content_mkCell, parseTableRow_rowLine_cells.
  - pose proof (padded_row_length n row) as L.
    destruct (firstn n (padRow n row)); [simpl in L; lia | reflexivity].
  - apply padded_row_fields. rewrite Forall_forall in Hr. now apply Hr.
Qed.

(** X5. What [generateTable(headers, rows, alignments)] writes is read
    back by the parser as a table with exactly these headers, every row
    padded or cut to their number, and a separator the validator accepts:
    the table is rectangular and valid, whatever the lengths of the rows
    given. *)
Theorem generateTableAligned_parses (headers : list jsstring) (rows : list (list jsstring))
        (alignments : list Alignment) :
  headers <> [] -> Forall Field headers -> Forall (Forall Field) rows ->
  exists t,
    parseTable (generateTableAligned headers rows alignments) 0 = Some t
    /\ headerTexts t = headers
    /\ rowTexts t
       = map (fun row => firstn (length headers) (padRow (length headers) row)) rows
    /\ rectangular t
    /\ isValid (validateTable t) = true.
Proof.
  intros Hne Hh Hr. eexists. split; [now apply generateTableAligned_parse|].
  assert (Hn : 0 < length headers) by (destruct headers; [congruence | simpl; lia]).
  unfold generatedTable, headers_, headerTexts, rowTexts, rectangular.
  rewrite ValidatorFacts.validateTable_isValid.
  cbn [MarkdownParser.headers separator MarkdownParser.rows cells].
  rewrite map_content_mkCell, mapIndexFrom_length, length_map.
  split; [reflexivity|]. split; [|split; [split|]].
  - rewrite !map_map. apply map_ext. intros row. cbn [cells]. apply map_content_mkCell.
  - reflexivity.
  - rewrite Forall_forall. intros r Hin. apply in_map_iff in Hin.
    destruct Hin as [row [<- Hrow]]. cbn [cells]. rewrite length_map.
    apply padded_row_length.
  - replace (length headers =? 0) with false by (symmetry; apply Nat.eqb_neq; lia).
    rewrite Nat.eqb_refl. simpl. rewrite forallb_forall. intros tok Htok.
    apply mapIndexFrom_in in Htok. destruct Htok as (x & j & ->).
    apply alignmentToken_valid.
Qed.

Lemma generateTableAligned_parses_witness :
  exists t,
    parseTable (generateTableAligned [str "Name"; str "Age"]
                  [[str "John"]; [str "Jane"; str "30"; str "London"]]
                  [AlignLeft; AlignRight]) 0 = Some t
    /\ headerTexts t = [str "Name"; str "Age"]
    /\ rowTexts t
       = map (fun row => firstn 2 (padRow 2 row))
             [[str "John"]; [str "Jane"; str "30"; str "London"]]
    /\ rectangular t
    /\ isValid (validateTable t) = true.
Proof.
  apply (generateTableAligned_parses [str "Name"; str "Age"]
           [[str "John"]; [str "Jane"; str "30"; str "London"]] [AlignLeft; AlignRight]).
  - discriminate.
  - apply forallb_Field. reflexivity.
  - repeat constructor; apply isField_Field; reflexivity.
Defined.

Lemma mapIndexFrom_no_alignments (headers : list jsstring) (k : nat) :
  mapIndexFrom (fun (_ : jsstring) index => alignmentToken [] index) k headers
  = map (fun _ => str "---") headers.
Proof.
  revert k. induction headers as [|h hs IH]; intros k; [reflexivity|].
  cbn [mapIndexFrom map]. rewrite IH. f_equal. now destruct k.
Qed.

Lemma generateTableLegacy_aligned (headers : list jsstring) (rows : list (list jsstring)) :
  generateTableLegacy headers rows = generateTableAligned headers rows [].
Proof.
  unfold generateTableLegacy, generateTableAligned.
  now rewrite mapIndexFrom_no_alignments.
Qed.

Lemma digits_of_uint (d : Decimal.uint) (c : ascii) :
  In c (str (NilEmpty.string_of_uint d)) -> isWhiteSpace c = false /\ c <> pipe /\ c <> nl.
Proof.
  induction d; simpl; try tauto;
    (intros [<- | H]; [repeat split; discriminate | now apply IHd]).
Qed.

(** A number in a template string: digits, at least one. *)
Lemma showNat_digits (n : nat) :
  showNat n <> []
  /\ (forall c, In c (showNat n) -> isWhiteSpace c = false /\ c <> pipe /\ c <> nl).
Proof.
  unfold showNat, NilZero.string_of_uint.
  destruct (Nat.to_uint n) eqn:E;
    try (split; [discriminate | apply (digits_of_uint _)]).
  split; [discriminate|]. simpl. intros c [<- | []]. repeat split; discriminate.
Qed.

Lemma headerLabel_Field (i : nat) : Field (str "Header " ++ showNat i).
Proof.
  destruct (showNat_digits i) as [Hne Hd].
  assert (Hlast : exists m b, showNat i = m ++ [b]).
  { exists (removelast (showNat i)), (last (showNat i) " "%char).
    now apply app_removelast_last. }
  destruct Hlast as (m & b & E). rewrite E in *.
  repeat split.
  - change (str "Header " ++ m ++ [b]) with ("H"%char :: (str "eader " ++ m) ++ [b]).
    + apply trim_bounded; [reflexivity|]. apply Hd. apply in_or_app. right. now left.
  - simpl. intros [H | [H | [H | [H | [H | [H | [H | H]]]]]]]; try discriminate.
    apply Hd in H. destruct H as (_ & H & _). now apply H.
  - simpl. intros [H | [H | [H | [H | [H | [H | [H | H]]]]]]]; try discriminate.
    apply Hd in H. destruct H as (_ & _ & H). now apply H.
Qed.

(** X6. [createEmptyTable(rows, cols)] with at least one column is read
    back by the parser as [cols] headers "Header 1" to "Header cols", a
    separator of [cols] tokens [---] and [rows] rows of [cols] empty
    cells, on lines 0 to [1 + rows]. *)
Theorem createEmptyTable_parses (rows cols : nat) :
  1 <= cols ->
  parseTable (createEmptyTable rows cols) 0
  = Some (mkTable (mkRow (map (fun i => mkCell (str "Header " ++ showNat (i + 1))) (seq 0 cols)))
                  (repeat (str "---") cols)
                  (repeat (emptyRow cols) rows)
                  0 (1 + rows)).
Proof.
  intros Hc. unfold createEmptyTable. rewrite generateTableLegacy_aligned.
  rewrite generateTableAligned_parse.
  - unfold generatedTable, headers_.
    cbn [MarkdownParser.headers separator MarkdownParser.rows].
    rewrite !length_map, length_seq, repeat_length, map_map. f_equal. f_equal.
    + rewrite mapIndexFrom_no_alignments, map_map.
      generalize 0. clear Hc. induction cols as [|n IH]; intros k; [reflexivity|].
      simpl. now rewrite IH.
    + rewrite map_repeat. f_equal. unfold emptyRow, padRow. f_equal.
      rewrite repeat_length, Nat.sub_diag, app_nil_r, firstn_all2
        by (rewrite repeat_length; lia).
      now rewrite map_repeat.
  - destruct cols; [lia | discriminate].
  - rewrite Forall_forall. intros h Hh. apply in_map_iff in Hh.
    destruct Hh as [i [<- _]]. apply headerLabel_Field.
  - rewrite Forall_forall. intros r Hr. apply repeat_spec in Hr. subst r.
    rewrite Forall_forall. intros c Hc'. apply repeat_spec in Hc'. subst c.
    repeat split; auto.
Qed.

Lemma createEmptyTable_parses_witness :
  parseTable (createEmptyTable 2 3) 0
  = Some (mkTable (mkRow (map (fun i => mkCell (str "Header " ++ showNat (i + 1))) (seq 0 3)))
                  (repeat (str "---") 3) (repeat (emptyRow 3) 2) 0 (1 + 2)).
Proof. apply (createEmptyTable_parses 2 3). lia. Defined.

End GenerateFacts.

(* ===================================================================== *)
(** * Validation and sanitising of table data *)
(* ===================================================================== *)

Module DataFacts.

Import JSFacts.

Lemma warningLoop_errors {A : Type} (cond : A -> nat -> bool) (msg : A -> nat -> jsstring)
      (l : list A) : forall (i : nat) (r : ValidationResult),
  errors (forEachFrom (fun x index result =>
                         if cond x index then pushWarning (msg x index) result else result)
                      i l r)
  = errors r.
Proof.
  induction l as [|x l IH]; intros i r; simpl; [reflexivity|].
  rewrite IH. now destruct (cond x i).
Qed.

Lemma separatorLoop_errors (seps : list jsstring) : forall (i : nat) (r : ValidationResult),
  errors (forEachFrom (fun sep index result =>
                         if negb (tokenRegex sep)
                         then setInvalid (pushError (invalidSeparatorMsg index sep) result)
                         else result) i seps r) = []
  <-> errors r = [] /\ forallb tokenRegex seps = true.
Proof.
  induction seps as [|sep seps IH]; intros i r; simpl; [tauto|].
  rewrite IH. destruct (tokenRegex sep); simpl; [tauto|].
  split; [|intros [_ H]; discriminate].
  intros [H _]. destruct (errors r); discriminate.
Qed.

(** X7. [validateTable] declares a table invalid exactly when it reports
    an error: every branch that clears [isValid] pushes an error, and no
    other branch pushes one. *)
Theorem validateTable_verdict (t : ParsedTable) :
  isValid (validateTable t) = true <-> errors (validateTable t) = [].
Proof.
  rewrite ValidatorFacts.validateTable_isValid.
  unfold validateTable, forEach. rewrite separatorLoop_errors.
  rewrite (warningLoop_errors (fun cell _ => isEmpty (trim (content cell)))
                              (fun _ index => headerEmptyMsg index)).
  rewrite (warningLoop_errors
             (fun row _ => negb (length (cells row) =? length (cells (headers t))))
             (fun row index => rowMismatchMsg index (length (cells row))
                                 (length (cells (headers t))))).
  rewrite !andb_true_iff.
  destruct (length (cells (headers t)) =? 0);
    destruct (length (separator t) =? length (cells (headers t))); simpl;
    intuition discriminate.
Qed.

Lemma warningLoop_silent {A : Type} (cond : A -> bool) (msg : A -> nat -> jsstring)
      (l : list A) : forall (i : nat) (r : ValidationResult),
  warnings (forEachFrom (fun x index result =>
                           if cond x then pushWarning (msg x index) result else result)
                        i l r) = []
  <-> warnings r = [] /\ Forall (fun x => cond x = false) l.
Proof.
  induction l as [|x l IH]; intros i r; simpl.
  - split; [intros H; split; [assumption | constructor] | tauto].
  - rewrite IH. rewrite Forall_cons_iff. destruct (cond x); simpl; [|tauto].
    split; [|intros [_ [H _]]; discriminate].
    intros [H _]. destruct (warnings r); discriminate.
Qed.

(** X8. [validateTable] reports no warning exactly when every row has as
    many cells as there are headers and no header is blank. *)
Theorem validateTable_silent (t : ParsedTable) :
  warnings (validateTable t) = []
  <-> Forall (fun row => length (cells row) = length (cells (headers t))) (rows t)
      /\ Forall (fun cell => trim (content cell) <> []) (cells (headers t)).
Proof.
  unfold validateTable, forEach. rewrite ValidatorFacts.separatorLoop_warnings.
  rewrite (warningLoop_silent (fun cell => isEmpty (trim (content cell)))
                              (fun _ index => headerEmptyMsg index)).
  rewrite (warningLoop_silent
             (fun row => negb (length (cells row) =? length (cells (headers t))))
             (fun row index => rowMismatchMsg index (length (cells row))
                                 (length (cells (headers t))))).
  assert (R : forall l : list TableRow,
             Forall (fun row => negb (length (cells row) =? length (cells (headers t))) = false) l
             <-> Forall (fun row => length (cells row) = length (cells (headers t))) l).
  { intros l. rewrite !Forall_forall. split; intros H x Hx; specialize (H x Hx).
    - apply negb_false_iff in H. now apply Nat.eqb_eq.
    - apply negb_false_iff. now apply Nat.eqb_eq. }
  assert (E : forall l : list TableCell,
             Forall (fun cell => isEmpty (trim (content cell)) = false) l
             <-> Forall (fun cell => trim (content cell) <> []) l).
  { intros l. rewrite !Forall_forall. split; intros H x Hx; specialize (H x Hx).
    - intros Hn. rewrite Hn in H. discriminate.
    - destruct (trim (content x)); [congruence | reflexivity]. }
  rewrite R, E.
  destruct (length (cells (headers t)) =? 0);
    destruct (length (separator t) =? length (cells (headers t))); simpl; tauto.
Qed.

Lemma setHas_In (key : jsstring) (set : list jsstring) :
  setHas key set = true <-> In key set.
Proof.
  unfold setHas. rewrite existsb_exists. split.
  - intros (x & Hx & E). apply jsstring_eqb_eq in E. now subst.
  - intros H. exists key. split; [assumption | now apply jsstring_eqb_eq].
Qed.

(** The header loop of [validateTableData]: it leaves [isValid] and the
    errors alone, and pushes a duplicate warning for a header whose key
    is in the set or among the keys of the headers before it, and an
    empty-header warning for a blank header. *)
Lemma headerLoop_spec (l : list jsstring) :
  forall (i : nat) (r : ValidationResult) (set : list jsstring),
  let out :=
    forEachFrom (fun header index '(result, headerSet) =>
                   let key := toLowerCase (trim header) in
                   let result :=
                     if setHas key headerSet
                     then pushWarning (duplicateHeaderMsg header) result else result in
                   let headerSet := headerSet ++ [key] in
                   let result :=
                     if isEmpty (trim header)
                     then pushWarning (headerEmptyMsg index) result else result in
                   (result, headerSet))
                i l (r, set) in
  isValid (fst out) = isValid r
  /\ errors (fst out) = errors r
  /\ forall w,
       In w (warnings (fst out))
       <-> In w (warnings r)
           \/ exists pre h post,
                l = pre ++ h :: post
                /\ ((w = duplicateHeaderMsg h
                     /\ In (toLowerCase (trim h))
                           (set ++ map (fun x => toLowerCase (trim x)) pre))
                    \/ (w = headerEmptyMsg (i + length pre) /\ trim h = [])).
Proof.
  induction l as [|x l IH]; intros i r set; cbv zeta.
  - simpl. repeat split; auto.
    intros [H | (pre & h & post & E & _)]; [assumption | now destruct pre].
  - cbn [forEachFrom].
    set (r1 := if isEmpty (trim x)
               then pushWarning (headerEmptyMsg i)
                      (if setHas (toLowerCase (trim x)) set
                       then pushWarning (duplicateHeaderMsg x) r else r)
               else (if setHas (toLowerCase (trim x)) set
                     then pushWarning (duplicateHeaderMsg x) r else r)).
    specialize (IH (S i) r1 (set ++ [toLowerCase (trim x)])). cbv zeta in IH.
    destruct IH as (Hv & He & Hw).
    assert (Hr1 : isValid r1 = isValid r /\ errors r1 = errors r
                  /\ forall w, In w (warnings r1)
                               <-> In w (warnings r)
                                   \/ (w = duplicateHeaderMsg x
                                       /\ In (toLowerCase (trim x)) set)
                                   \/ (w = headerEmptyMsg i /\ trim x = [])).
    { unfold r1. pose proof (setHas_In (toLowerCase (trim x)) set) as S.
      destruct (setHas (toLowerCase (trim x)) set); destruct (trim x) eqn:T; simpl;
        repeat split; try tauto; intros; rewrite ?in_app_iff in *; simpl in *;
        intuition (try discriminate; try congruence; auto). }
    destruct Hr1 as (Hv1 & He1 & Hw1).
    split; [congruence|]. split; [congruence|].
    intros w. rewrite Hw, Hw1. split.
    + intros [[H | [[-> H] | [-> H]]] | (pre & h & post & -> & H)].
      * now left.
      * right. exists [], x, l. split; [reflexivity|]. left. split; [reflexivity|].
        simpl. now rewrite app_nil_r.
      * right. exists [], x, l. split; [reflexivity|]. right.
        simpl. now rewrite Nat.add_0_r.
      * right. exists (x :: pre), h, post. split; [reflexivity|].
        destruct H as [[-> H] | [-> H]].
        -- left. split; [reflexivity|]. simpl. now rewrite <- app_assoc in H.
        -- right. split; [|assumption]. simpl. f_equal. f_equal. lia.
    + intros [H | (pre & h & post & E & H)]; [now left; left|].
      destruct pre as [|y pre]; simpl in E; injection E as -> ->.
      * left. right. simpl in H. rewrite app_nil_r, Nat.add_0_r in H. exact H.
      * right. exists pre, h, post. split; [reflexivity|].
        destruct H as [[-> H] | [-> H]].
        -- left. split; [reflexivity|]. simpl in H. now rewrite <- app_assoc.
        -- right. split; [|assumption]. f_equal. simpl length. lia.
Qed.

(** The row loop of [validateTableData]: a row that is no array clears
    [isValid] and pushes an error, and no warning; an array pushes a
    warning when it is longer or shorter than the header, and nothing
    else. *)
Lemma rowLoop_spec (expected : nat) (l : list RowValue) :
  forall (i : nat) (r : ValidationResult),
  let out :=
    forEachFrom (fun (row : RowValue) rowIndex result =>
                   match row with
                   | NotArray => setInvalid (pushError (notArrayMsg rowIndex) result)
                   | ArrayRow row =>
                       if expected <? length row
                       then pushWarning (tooManyColumnsMsg rowIndex (length row) expected)
                              result
                       else if length row <? expected
                       then pushWarning (tooFewColumnsMsg rowIndex (length row) expected)
                              result
                       else result
                   end)
                i l r in
  (isValid out = true <-> isValid r = true /\ Forall (fun row => row <> NotArray) l)
  /\ (errors out = [] <-> errors r = [] /\ Forall (fun row => row <> NotArray) l)
  /\ forall w,
       In w (warnings out)
       <-> In w (warnings r)
           \/ exists k row,
                nth_error l k = Some (ArrayRow row)
                /\ ((expected < length row
                     /\ w = tooManyColumnsMsg (i + k) (length row) expected)
                    \/ (length row < expected
                        /\ w = tooFewColumnsMsg (i + k) (length row) expected)).
Proof.
  induction l as [|x l IH]; intros i r; cbv zeta.
  - simpl. split; [|split].
    + split; [intros H; split; [assumption | constructor] | tauto].
    + split; [intros H; split; [assumption | constructor] | tauto].
    + intros w. split; [auto|].
      intros [H | (k & row & E & _)]; [assumption | now destruct k].
  - cbn [forEachFrom].
    set (r1 := match x with
               | NotArray => setInvalid (pushError (notArrayMsg i) r)
               | ArrayRow row =>
                   if expected <? length row
                   then pushWarning (tooManyColumnsMsg i (length row) expected) r
                   else if length row <? expected
                   then pushWarning (tooFewColumnsMsg i (length row) expected) r
                   else r
               end).
    specialize (IH (S i) r1). cbv zeta in IH. destruct IH as (Hv & He & Hw).
    assert (Hr1 : (isValid r1 = true <-> isValid r = true /\ x <> NotArray)
                  /\ (errors r1 = [] <-> errors r = [] /\ x <> NotArray)
                  /\ forall w, In w (warnings r1)
                               <-> In w (warnings r)
                                   \/ exists row,
                                        x = ArrayRow row
                                        /\ ((expected < length row
                                             /\ w = tooManyColumnsMsg i (length row) expected)
                                            \/ (length row < expected
                                                /\ w = tooFewColumnsMsg i (length row)
                                                         expected))).
    { unfold r1. destruct x as [row|].
      - assert (Hx : ArrayRow row <> NotArray) by discriminate.
        destruct (Nat.ltb_spec expected (length row)) as [L | L];
          [|destruct (Nat.ltb_spec (length row) expected) as [L' | L']]; simpl;
          (split; [tauto|]); (split; [tauto|]); intros w; rewrite ?in_app_iff; simpl.
        + split.
          * intros [H | [<- | []]]; [now left|]. right. exists row.
            split; [reflexivity|]. left. auto.
          * intros [H | (row' & E & H)]; [now left|]. injection E as <-.
            right. left. destruct H as [[_ ->] | [L2 _]]; [reflexivity | lia].
        + split.
          * intros [H | [<- | []]]; [now left|]. right. exists row.
            split; [reflexivity|]. right. auto.
          * intros [H | (row' & E & H)]; [now left|]. injection E as <-.
            right. left. destruct H as [[L2 _] | [_ ->]]; [lia | reflexivity].
        + split; [now left|]. intros [H | (row' & E & H)]; [assumption|].
          injection E as <-. destruct H as [[L2 _] | [L2 _]]; lia.
      - simpl. split; [split; [discriminate | intros [_ H]; congruence]|].
        split; [split; [intros H; destruct (errors r); discriminate
                       | intros [_ H]; congruence]|].
        intros w. split; [now left|]. intros [H | (row & E & _)]; [assumption | discriminate]. }
    destruct Hr1 as (Hv1 & He1 & Hw1).
    split; [|split].
    + rewrite Hv, Hv1, Forall_cons_iff. tauto.
    + rewrite He, He1, Forall_cons_iff. tauto.
    + intros w. rewrite Hw, Hw1. split.
      * intros [[H | (row & -> & H)] | (k & row & E & H)].
        -- now left.
        -- right. exists 0, row. split; [reflexivity|]. now rewrite Nat.add_0_r.
        -- right. exists (S k), row. split; [exact E|].
           replace (i + S k) with (S i + k) by lia. exact H.
      * intros [H | (k & row & E & H)]; [now left; left|].
        destruct k as [|k]; simpl in E.
        -- injection E as ->. left. right. exists row. split; [reflexivity|].
           now rewrite Nat.add_0_r in H.
        -- right. exists k, row. split; [exact E|].
           replace (S i + k) with (i + S k) by lia. exact H.
Qed.

(** The result of [validateTableData] before the rows are looked at. *)
Lemma validateTableData_shape (headers : list jsstring) (rows : option (list RowValue)) :
  exists r,
    isValid r = negb (length headers =? 0)
    /\ (errors r = [] <-> headers <> [])
    /\ (forall w,
          In w (warnings r)
          <-> exists pre h post,
                headers = pre ++ h :: post
                /\ ((w = duplicateHeaderMsg h
                     /\ In (toLowerCase (trim h))
                           (map (fun x => toLowerCase (trim x)) pre))
                    \/ (w = headerEmptyMsg (length pre) /\ trim h = [])))
    /\ validateTableData headers rows
       = match rows with
         | None => pushWarning (str "Table has no data rows") r
         | Some rows =>
             forEachFrom (fun (row : RowValue) rowIndex result =>
                   match row with
                   | NotArray => setInvalid (pushError (notArrayMsg rowIndex) result)
                   | ArrayRow row =>
                       if length headers <? length row
                       then pushWarning
                              (tooManyColumnsMsg rowIndex (length row) (length headers))
                              result
                       else if length row <? length headers
                       then pushWarning
                              (tooFewColumnsMsg rowIndex (length row) (length headers))
                              result
                       else result
                   end)
                0 rows r
         end.
Proof.
  unfold validateTableData, forEach.
  set (r0 := if length headers =? 0
             then setInvalid (pushError (str "Table must have at least one header")
                                (mkResult true [] []))
             else mkResult true [] []).
  pose proof (headerLoop_spec headers 0 r0 []) as H. cbv zeta in H. revert H.
  destruct (forEachFrom _ 0 headers (r0, [])) as [r set']. cbn [fst].
  intros (Hv & He & Hw). exists r. split; [|split; [|split]].
  - rewrite Hv. unfold r0. now destruct (length headers =? 0).
  - rewrite He. unfold r0. destruct headers; simpl; split; congruence.
  - intros w. rewrite Hw.
    assert (W0 : warnings r0 = []) by (unfold r0; now destruct (length headers =? 0)).
    rewrite W0. simpl. tauto.
  - reflexivity.
Qed.

(** X9. [validateTableData] declares the data invalid exactly when there
    is no header or a row that is not an array, and reports an error
    exactly then: neither the names of the headers nor the lengths of the
    rows, nor a missing [rows] argument, ever make it invalid. *)
Theorem validateTableData_verdict (headers : list jsstring)
        (rows : option (list RowValue)) :
  (isValid (validateTableData headers rows) = true
   <-> headers <> []
       /\ forall given, rows = Some given -> Forall (fun row => row <> NotArray) given)
  /\ (errors (validateTableData headers rows) = []
      <-> headers <> []
          /\ forall given, rows = Some given -> Forall (fun row => row <> NotArray) given).
Proof.
  destruct (validateTableData_shape headers rows) as (r & Hv & He & _ & ->).
  assert (V : isValid r = true <-> headers <> []).
  { rewrite Hv. destruct headers; simpl; split; congruence. }
  destruct rows as [rows|].
  - pose proof (rowLoop_spec (length headers) rows 0 r) as H. cbv zeta in H.
    destruct H as (Hv' & He' & _). rewrite Hv', He', V, He.
    split; (split;
            [ intros [A B]; split; [assumption|]; intros given E; now injection E as <-
            | intros [A B]; split; [assumption|]; now apply B ]).
  - simpl. rewrite V, He.
    split; (split; [intros A; split; [assumption | discriminate] | tauto]).
Qed.

Lemma duplicateHeaderMsg_inj (h h' : jsstring) :
  duplicateHeaderMsg h = duplicateHeaderMsg h' -> h = h'.
Proof.
  unfold duplicateHeaderMsg. intros H. apply app_inv_head in H.
  injection H as H. now apply app_inv_tail in H.
Qed.

(** X10. [validateTableData] warns of a duplicate header, naming the
    header as written, exactly for a header whose name, trimmed and in
    lower case, is that of a header before it. *)
Theorem validateTableData_duplicates (headers : list jsstring)
        (rows : option (list RowValue)) (h : jsstring) :
  In (duplicateHeaderMsg h) (warnings (validateTableData headers rows))
  <-> exists pre post,
        headers = pre ++ h :: post
        /\ In (toLowerCase (trim h)) (map (fun x => toLowerCase (trim x)) pre).
Proof.
  destruct (validateTableData_shape headers rows) as (r & _ & _ & Hw & ->).
  assert (D : In (duplicateHeaderMsg h) (warnings r)
              <-> exists pre post,
                    headers = pre ++ h :: post
                    /\ In (toLowerCase (trim h)) (map (fun x => toLowerCase (trim x)) pre)).
  { rewrite Hw. split.
    - intros (pre & h' & post & -> & [[E H] | [E _]]).
      + apply duplicateHeaderMsg_inj in E. subst h'. eauto.
      + discriminate E.
    - intros (pre & post & -> & H). exists pre, h, post. auto. }
  destruct rows as [rows|].
  - pose proof (rowLoop_spec (length headers) rows 0 r) as H. cbv zeta in H.
    destruct H as (_ & _ & ->). rewrite D. split; [|tauto].
    intros [H | (k & row & _ & [[_ E] | [_ E]])]; [assumption | |]; discriminate E.
  - simpl. rewrite in_app_iff, D. simpl. split; [|tauto].
    intros [H | [E | []]]; [assumption | discriminate E].
Qed.

Lemma NoDup_map_prefix {A B : Type} (f : A -> B) (l : list A) :
  NoDup (map f l)
  <-> forall pre h post, l = pre ++ h :: post -> ~ In (f h) (map f pre).
Proof.
  split.
  - intros N pre h post ->. rewrite map_app in N. simpl in N.
    apply NoDup_remove_2 in N. intros H. apply N. apply in_or_app. now left.
  - induction l as [|x l IH]; intros H; [constructor|].
    simpl. constructor.
    + intros Hin. apply in_map_iff in Hin. destruct Hin as (h & E & Hin).
      apply List.in_split in Hin. destruct Hin as (l1 & l2 & ->).
      apply (H (x :: l1) h l2); [reflexivity|]. left. now symmetry.
    + apply IH. intros pre h post -> Hin.
      apply (H (x :: pre) h post); [reflexivity|]. now right.
Qed.

(** X11. On rows that are arrays, [validateTableData] reports no warning
    at all exactly when the normalised header names are pairwise
    different, no header is blank and every row has as many cells as
    there are headers. *)
Theorem validateTableData_silent (headers : list jsstring) (rows : list (list jsstring)) :
  warnings (validateTableData headers (Some (map ArrayRow rows))) = []
  <-> NoDup (map (fun x => toLowerCase (trim x)) headers)
      /\ Forall (fun h => trim h <> []) headers
      /\ Forall (fun row => length row = length headers) rows.
Proof.
  destruct (validateTableData_shape headers (Some (map ArrayRow rows)))
    as (r & _ & _ & Hw & ->).
  pose proof (rowLoop_spec (length headers) (map ArrayRow rows) 0 r) as H. cbv zeta in H.
  destruct H as (_ & _ & Hr).
  set (out := forEachFrom _ 0 (map ArrayRow rows) r) in *.
  assert (N : warnings out = [] <-> forall w, ~ In w (warnings out)).
  { destruct (warnings out) as [|w ws]; split; auto; intros H.
    - discriminate.
    - exfalso. apply (H w). now left. }
  rewrite N, NoDup_map_prefix, !Forall_forall. split.
  - intros H. split; [|split].
    + intros pre h post E Hin. apply (H (duplicateHeaderMsg h)). apply Hr. left.
      apply Hw. exists pre, h, post. auto.
    + intros h Hin Hblank. apply List.in_split in Hin. destruct Hin as (pre & post & E).
      apply (H (headerEmptyMsg (length pre))). apply Hr. left.
      apply Hw. exists pre, h, post. auto.
    + intros row Hin. apply In_nth_error in Hin. destruct Hin as [k Hk].
      destruct (Nat.lt_trichotomy (length row) (length headers)) as [L | [L | L]];
        [exfalso | assumption | exfalso].
      * apply (H (tooFewColumnsMsg (0 + k) (length row) (length headers))).
        apply Hr. right. exists k, row. split; [now apply map_nth_error | auto].
      * apply (H (tooManyColumnsMsg (0 + k) (length row) (length headers))).
        apply Hr. right. exists k, row. split; [now apply map_nth_error | auto].
  - intros (Hd & Hb & Hl) w Hin. apply Hr in Hin.
    destruct Hin as [Hin | (k & row & Hk & Hrow)].
    + apply Hw in Hin. destruct Hin as (pre & h & post & E & [[_ Hin] | [_ Hblank]]).
      * now apply (Hd pre h post).
      * apply (Hb h); [|assumption]. rewrite E. apply in_or_app. right. now left.
    + apply nth_error_In in Hk. apply in_map_iff in Hk.
      destruct Hk as (row' & E & Hin'). injection E as ->. apply Hl in Hin'. lia.
Qed.

Lemma escapePipes_clean (s : jsstring) : ~ In pipe s -> escapePipes s = s.
Proof.
  unfold escapePipes. induction s as [|c s IH]; simpl; intros H; [reflexivity|].
  destruct (Ascii.eqb_spec c pipe) as [-> | Hc]; [exfalso; apply H; now left|].
  simpl. f_equal. apply IH. tauto.
Qed.

Lemma newlinesToSpaces_no_nl (s : jsstring) : ~ In nl (newlinesToSpaces s).
Proof.
  unfold newlinesToSpaces. intros H. apply in_map_iff in H.
  destruct H as (c & E & _). destruct (Ascii.eqb_spec c nl); [discriminate | congruence].
Qed.

Lemma newlinesToSpaces_chars (c : ascii) (s : jsstring) :
  c <> " "%char -> In c (newlinesToSpaces s) -> In c s.
Proof.
  unfold newlinesToSpaces. intros Hc H. apply in_map_iff in H.
  destruct H as (x & E & Hx). destruct (Ascii.eqb x nl); congruence.
Qed.

Lemma sanitizeHeader_trimmed (h : jsstring) :
  sanitizeHeader h <> [] /\ trim (sanitizeHeader h) = sanitizeHeader h.
Proof.
  unfold sanitizeHeader. destruct (trim (escapePipes h)) eqn:E.
  - split; [discriminate | reflexivity].
  - rewrite <- E. split; [rewrite E; discriminate | apply trim_idempotent].
Qed.

Lemma sanitizeCell_trimmed (c : jsstring) :
  trim (sanitizeCell c) = sanitizeCell c /\ ~ In nl (sanitizeCell c).
Proof.
  unfold sanitizeCell. split; [apply trim_idempotent|].
  intros H. apply in_trim in H. now apply newlinesToSpaces_no_nl in H.
Qed.

(** X12. [sanitizeTableData] keeps the number of headers and of rows;
    every header it returns is trimmed and not empty; every row it
    returns has exactly one cell per header, and every cell is trimmed
    and holds no line break. *)
Theorem sanitizeTableData_shape (headers : list jsstring) (rows : list (list jsstring)) :
  length (fst (sanitizeTableData headers rows)) = length headers
  /\ length (snd (sanitizeTableData headers rows)) = length rows
  /\ Forall (fun h => h <> [] /\ trim h = h) (fst (sanitizeTableData headers rows))
  /\ Forall (fun row => length row = length headers
                        /\ Forall (fun c => trim c = c /\ ~ In nl c) row)
            (snd (sanitizeTableData headers rows)).
Proof.
  unfold sanitizeTableData. cbn [fst snd]. rewrite !length_map.
  split; [reflexivity|]. split; [reflexivity|]. split.
  - rewrite Forall_forall. intros h Hin. apply in_map_iff in Hin.
    destruct Hin as (x & <- & _). apply sanitizeHeader_trimmed.
  - rewrite Forall_forall. intros row Hin. apply in_map_iff in Hin.
    destruct Hin as (x & <- & _). split.
    + apply GenerateFacts.padded_row_length.
    + rewrite Forall_forall. intros c Hc. apply in_firstn in Hc.
      unfold padRow in Hc. apply in_app_or in Hc. destruct Hc as [Hc | Hc].
      * apply in_map_iff in Hc. destruct Hc as (y & <- & _). apply sanitizeCell_trimmed.
      * apply repeat_spec in Hc. subst c. split; [reflexivity | tauto].
Qed.

Lemma sanitizeTableData_fields (headers : list jsstring) (rows : list (list jsstring)) :
  Forall (fun h => ~ In pipe h /\ ~ In nl h) headers ->
  Forall (Forall (fun c => ~ In pipe c)) rows ->
  Forall Field (fst (sanitizeTableData headers rows))
  /\ Forall (Forall Field) (snd (sanitizeTableData headers rows)).
Proof.
  intros Hh Hr. unfold sanitizeTableData. cbn [fst snd]. split.
  - rewrite Forall_forall in *. intros h Hin. apply in_map_iff in Hin.
    destruct Hin as (x & <- & Hx). destruct (Hh x Hx) as [Hp Hn].
    destruct (sanitizeHeader_trimmed x) as [_ Ht]. split; [assumption|].
    unfold sanitizeHeader in *. rewrite escapePipes_clean in * by assumption.
    destruct (trim x) eqn:E.
    + split; simpl; intros H; repeat (destruct H as [H | H]; [discriminate|]); exact H.
    + rewrite <- E. split; intros H; apply in_trim in H; tauto.
  - rewrite Forall_forall in *. intros row Hin. apply in_map_iff in Hin.
    destruct Hin as (x & <- & Hx). specialize (Hr x Hx).
    rewrite Forall_forall in *. intros c Hc. apply in_firstn in Hc.
    unfold padRow in Hc. apply in_app_or in Hc. destruct Hc as [Hc | Hc].
    + apply in_map_iff in Hc. destruct Hc as (y & <- & Hy).
      destruct (sanitizeCell_trimmed y) as [Ht Hn]. split; [assumption|].
      split; [|assumption]. unfold sanitizeCell. intros H. apply in_trim in H.
      apply newlinesToSpaces_chars in H; [|discriminate].
      rewrite escapePipes_clean in H by now apply Hr. now apply (Hr y Hy).
    + apply repeat_spec in Hc. subst c. repeat split; auto.
Qed.

(** X13. For headers without a pipe or a line break and cells without a
    pipe, the text [generateTable] writes from the sanitised headers and
    rows is read back by the parser as exactly the sanitised headers and
    rows. *)
Theorem sanitizeTableData_parses (headers : list jsstring) (rows : list (list jsstring)) :
  headers <> [] ->
  Forall (fun h => ~ In pipe h /\ ~ In nl h) headers ->
  Forall (Forall (fun c => ~ In pipe c)) rows ->
  exists t,
    parseTable (generateTableLegacy (fst (sanitizeTableData headers rows))
                                    (snd (sanitizeTableData headers rows))) 0 = Some t
    /\ headerTexts t = fst (sanitizeTableData headers rows)
    /\ rowTexts t = snd (sanitizeTableData headers rows).
Proof.
  intros Hne Hh Hr.
  pose proof (sanitizeTableData_fields headers rows Hh Hr) as [Fh Fr].
  rewrite GenerateFacts.generateTableLegacy_aligned.
  rewrite GenerateFacts.generateTableAligned_parse; [| | assumption | assumption].
  - eexists. split; [reflexivity|].
    unfold generatedTable, headers_, headerTexts, rowTexts.
    cbn [MarkdownParser.headers MarkdownParser.rows cells].
    rewrite GenerateFacts.map_content_mkCell. split; [reflexivity|].
    rewrite map_map. cbn [cells].
    rewrite <- (map_id (snd (sanitizeTableData headers rows))) at 2.
    apply map_ext_in. intros row Hin. rewrite GenerateFacts.map_content_mkCell.
    pose proof (sanitizeTableData_shape headers rows) as (L & _ & _ & S).
    rewrite Forall_forall in S. destruct (S row Hin) as [Hl _].
    unfold padRow. rewrite L, Hl, Nat.sub_diag, app_nil_r.
    apply firstn_all2. lia.
  - unfold sanitizeTableData. cbn [fst]. destruct headers; [congruence | discriminate].
Qed.

Lemma sanitizeTableData_parses_witness :
  exists t,
    parseTable (generateTableLegacy
                  (fst (sanitizeTableData [str " Name "; str "Age"]
                          [[str "a" ++ [nl] ++ str "b"; str "x"; str "extra"]; [str "y"]]))
                  (snd (sanitizeTableData [str " Name "; str "Age"]
                          [[str "a" ++ [nl] ++ str "b"; str "x"; str "extra"]; [str "y"]])))
               0 = Some t
    /\ headerTexts t
       = fst (sanitizeTableData [str " Name "; str "Age"]
                [[str "a" ++ [nl] ++ str "b"; str "x"; str "extra"]; [str "y"]])
    /\ rowTexts t
       = snd (sanitizeTableData [str " Name "; str "Age"]
                [[str "a" ++ [nl] ++ str "b"; str "x"; str "extra"]; [str "y"]]).
Proof.
  apply (sanitizeTableData_parses [str " Name "; str "Age"]
           [[str "a" ++ [nl] ++ str "b"; str "x"; str "extra"]; [str "y"]]).
  - discriminate.
  - repeat constructor; apply includesChar_false; reflexivity.
  - repeat constructor; apply includesChar_false; reflexivity.
Defined.

Lemma length_split (c : ascii) (s : jsstring) :
  length (split c s) = S (count_occ ascii_dec s c).
Proof.
  unfold split. induction s as [|x s IH]; simpl; [reflexivity|].
  destruct (splitFields c s) as [f fs]. simpl in IH.
  destruct (Ascii.eqb_spec x c) as [E | Hx]; destruct (ascii_dec x c); simpl; congruence.
Qed.

Lemma count_occ_trimStart (c : ascii) (s : jsstring) :
  isWhiteSpace c = false ->
  count_occ ascii_dec (trimStart s) c = count_occ ascii_dec s c.
Proof.
  intros Hc. induction s as [|x s IH]; [reflexivity|].
  cbn [trimStart]. destruct (isWhiteSpace x) eqn:E; [|reflexivity].
  rewrite IH. simpl. destruct (ascii_dec x c); [congruence | reflexivity].
Qed.

Lemma count_occ_trim (c : ascii) (s : jsstring) :
  isWhiteSpace c = false ->
  count_occ ascii_dec (trim s) c = count_occ ascii_dec s c.
Proof.
  intros Hc. unfold trim, trimEnd.
  now rewrite count_occ_rev, count_occ_trimStart, count_occ_rev, count_occ_trimStart.
Qed.

Lemma count_occ_sanitizeCell (cell : jsstring) :
  count_occ ascii_dec (sanitizeCell cell) pipe = count_occ ascii_dec cell pipe.
Proof.
  unfold sanitizeCell. rewrite count_occ_trim by reflexivity.
  unfold newlinesToSpaces, escapePipes.
  induction cell as [|x s IH]; [reflexivity|].
  cbn [flat_map]. destruct (Ascii.eqb_spec x pipe) as [-> | Hx].
  - simpl. now rewrite IH.
  - cbn [app map count_occ]. rewrite IH.
    destruct (Ascii.eqb_spec x nl) as [-> | Hn]; destruct (ascii_dec _ pipe);
      try reflexivity; try congruence; discriminate.
Qed.

Lemma count_occ_join (fs : list jsstring) :
  fs <> [] ->
  S (count_occ ascii_dec (join (str " | ") fs) pipe)
  = length fs + count_occ ascii_dec (concat fs) pipe.
Proof.
  induction fs as [|f fs IH]; intros Hne; [congruence|].
  destruct fs as [|g fs].
  - simpl. now rewrite app_nil_r.
  - rewrite join_cons by discriminate. cbn [concat length].
    rewrite !count_occ_app.
    change (count_occ ascii_dec (str " | ") pipe) with 1.
    specialize (IH ltac:(discriminate)). cbn [concat length] in IH.
    rewrite count_occ_app in IH. lia.
Qed.

(** X14. The parser does not honour the escape [sanitizeTableData]
    writes before a pipe: a row of sanitised cells, written as a table
    line, is read back as one cell per cell given plus one more for
    every pipe the cells held. *)
Theorem sanitizeCell_keeps_pipes (row : list jsstring) :
  row <> [] ->
  length (cells (parseTableRow (rowLine (map sanitizeCell row))))
  = length row + count_occ ascii_dec (concat row) pipe.
Proof.
  intros Hne. unfold parseTableRow. cbn [cells]. rewrite length_map.
  rewrite ParserFacts.rowLine_shape, trim_bounded by reflexivity.
  rewrite slice_inner, length_split, !count_occ_app.
  change (count_occ ascii_dec (str " ") pipe) with 0.
  rewrite Nat.add_0_r. cbn [Nat.add].
  rewrite count_occ_join by (destruct row; [congruence | discriminate]).
  rewrite length_map. f_equal.
  clear Hne. induction row as [|c row IH]; [reflexivity|].
  cbn [map concat]. rewrite !count_occ_app, IH. f_equal. apply count_occ_sanitizeCell.
Qed.

Lemma sanitizeCell_keeps_pipes_witness :
  length (cells (parseTableRow (rowLine (map sanitizeCell [str "a|b"; str "c"]))))
  = length [str "a|b"; str "c"] + count_occ ascii_dec (concat [str "a|b"; str "c"]) pipe.
Proof. apply (sanitizeCell_keeps_pipes [str "a|b"; str "c"]). discriminate. Defined.

Lemma boundaryStart_run (lines : list jsstring) (cursor : nat) :
  boundaryStart lines cursor <= cursor
  /\ (forall k, boundaryStart lines cursor <= k < cursor ->
                Private.isTableLine (nth k lines []) = true)
  /\ (boundaryStart lines cursor = 0
      \/ Private.isTableLine (nth (boundaryStart lines cursor - 1) lines []) = false).
Proof.
  induction cursor as [|above IH]; cbn [boundaryStart].
  - split; [lia|]. split; [lia | now left].
  - destruct (Private.isTableLine (nth above lines [])) eqn:E.
    + destruct IH as (Hle & Hrun & Hstop). split; [lia|]. split; [|assumption].
      intros k Hk. destruct (Nat.eq_dec k above) as [-> | Hne]; [assumption|].
      apply Hrun. lia.
    + split; [lia|]. split; [lia|]. right. now rewrite Nat.sub_1_r.
Qed.

Lemma boundaryEnd_run (below : list jsstring) : forall end_ : nat,
  exists n,
    boundaryEnd end_ below = end_ + n
    /\ n <= length below
    /\ (forall j, j < n -> Private.isTableLine (nth j below []) = true)
    /\ (n = length below \/ Private.isTableLine (nth n below []) = false).
Proof.
  induction below as [|l below IH]; intros end_; cbn [boundaryEnd].
  - exists 0. simpl. split; [lia|]. split; [lia|]. split; [lia | now left].
  - destruct (Private.isTableLine l) eqn:E.
    + destruct (IH (S end_)) as (n & -> & Hle & Hrun & Hstop). exists (S n).
      simpl. split; [lia|]. split; [lia|]. split.
      * intros [|j] Hj; [assumption | apply Hrun; lia].
      * destruct Hstop as [-> | Hstop]; [now left | now right].
    + exists 0. simpl. split; [lia|]. split; [lia|]. split; [lia | now right].
Qed.

Lemma nth_skipn_add {A} (l : list A) (d : A) : forall n j,
  nth j (skipn n l) d = nth (n + j) l d.
Proof.
  induction l as [|x l IH]; intros [|n] j; simpl; try reflexivity.
  - now destruct j.
  - apply IH.
Qed.

(** X15. On a line of a table, [findTableBoundaries] returns the maximal
    run of table lines around the cursor: the cursor line lies in it,
    every line of it is a table line, and the lines just above and just
    below it, when there are such lines, are not. *)
Theorem findTableBoundaries_run (content : jsstring) (cursorLine : Z) :
  isValidTablePosition content cursorLine = true ->
  exists start end_,
    findTableBoundaries content cursorLine = Some (start, end_)
    /\ (Z.of_nat start <= cursorLine <= Z.of_nat end_)%Z
    /\ end_ < length (split nl content)
    /\ (forall k, start <= k <= end_ ->
                  Private.isTableLine (nth k (split nl content) []) = true)
    /\ (start = 0
        \/ Private.isTableLine (nth (start - 1) (split nl content) []) = false)
    /\ (S end_ = length (split nl content)
        \/ Private.isTableLine (nth (S end_) (split nl content) []) = false).
Proof.
  intros Hvalid. unfold findTableBoundaries. rewrite Hvalid. cbn [negb].
  unfold isValidTablePosition in Hvalid. cbv zeta in Hvalid.
  set (lines := split nl content) in *.
  destruct ((cursorLine <? 0)%Z || (cursorLine >=? Z.of_nat (length lines))%Z) eqn:R;
    [discriminate|].
  apply orb_false_iff in R. destruct R as [R1 R2].
  apply Z.ltb_ge in R1. rewrite Z.geb_leb in R2. apply Z.leb_gt in R2.
  set (cursor := Z.to_nat cursorLine) in *.
  assert (Hc : cursor < length lines) by (unfold cursor; lia).
  assert (Hz : cursorLine = Z.of_nat cursor) by (unfold cursor; lia).
  change (Private.isTableLine (nth cursor lines []) = true) in Hvalid.
  destruct (boundaryStart_run lines cursor) as (Sle & Srun & Sstop).
  destruct (boundaryEnd_run (skipn (S cursor) lines) cursor)
    as (n & E & Nle & Nrun & Nstop).
  rewrite length_skipn in *.
  eexists. eexists. split; [reflexivity|]. rewrite E.
  split; [lia|]. split; [lia|]. split; [|split; [assumption|]].
  - intros k Hk. destruct (Nat.lt_trichotomy k cursor) as [L | [-> | L]].
    + apply Srun. lia.
    + assumption.
    + specialize (Nrun (k - S cursor) ltac:(lia)).
      rewrite nth_skipn_add in Nrun.
      now replace (S cursor + (k - S cursor)) with k in Nrun by lia.
  - destruct Nstop as [-> | Nstop]; [left; lia|]. right.
    rewrite nth_skipn_add in Nstop.
    now replace (S (cursor + n)) with (S cursor + n) by lia.
Qed.

Lemma findTableBoundaries_run_witness :
  exists start end_,
    findTableBoundaries Samples.noteText 2 = Some (start, end_)
    /\ (Z.of_nat start <= 2 <= Z.of_nat end_)%Z
    /\ end_ < length (split nl Samples.noteText)
    /\ (forall k, start <= k <= end_ ->
                  Private.isTableLine (nth k (split nl Samples.noteText) []) = true)
    /\ (start = 0
        \/ Private.isTableLine (nth (start - 1) (split nl Samples.noteText) []) = false)
    /\ (S end_ = length (split nl Samples.noteText)
        \/ Private.isTableLine (nth (S end_) (split nl Samples.noteText) []) = false).
Proof. apply (findTableBoundaries_run Samples.noteText 2). reflexivity. Defined.

End DataFacts.

(* ===================================================================== *)
(** * Insertion, deletion and moves of rows and columns *)
(* ===================================================================== *)

Module EditFacts.

Import JSFacts.

Lemma split_trailing_nl (s : jsstring) : split nl (s ++ [nl]) = split nl s ++ [[]].
Proof.
  unfold split. induction s as [|c s IH]; [reflexivity|].
  simpl. destruct (splitFields nl (s ++ [nl])) as [f fs].
  destruct (splitFields nl s) as [g gs]. injection IH as -> ->.
  now destruct (Ascii.eqb c nl).
Qed.

Lemma findTableStart_blank (ls : list jsstring) : forall (n k : nat) (l : jsstring) rest,
  findTableStart n ls = Some (k, l, rest) ->
  findTableStart n (ls ++ [[]]) = Some (k, l, rest ++ [[]]).
Proof.
  induction ls as [|x ls IH]; intros n k l rest H; simpl in *; [discriminate|].
  destruct (isTableLine x); [now injection H as <- <- <- | now apply IH].
Qed.

Lemma parseRows_blank (ls : list jsstring) : parseRows (ls ++ [[]]) = parseRows ls.
Proof.
  induction ls as [|x ls IH]; [reflexivity|].
  simpl. destruct (isTableLine x); [now rewrite IH | reflexivity].
Qed.

(** The line break [updateTable] and the other commands add after the
    table does not change what the parser reads. *)
Lemma parseTable_trailing_nl (s : jsstring) (t : ParsedTable) :
  parseTable s 0 = Some t -> parseTable (s ++ [nl]) 0 = Some t.
Proof.
  unfold parseTable. rewrite split_trailing_nl. cbn [skipn].
  destruct (findTableStart 0 (split nl s)) as [[[k l] rest]|] eqn:E; [|discriminate].
  rewrite (findTableStart_blank _ _ _ _ _ E).
  destruct rest as [|sep rest]; [discriminate|]. cbn [app].
  destruct (isSeparatorLine sep); [|discriminate]. cbn [negb].
  now rewrite parseRows_blank.
Qed.

Lemma wellFormed_fields (t : ParsedTable) :
  wellFormed t = true ->
  Forall Field (headerTexts t) /\ Forall (Forall Field) (rowTexts t).
Proof.
  unfold wellFormed. rewrite !andb_true_iff. intros [[Hh _] Hr].
  split; [now apply ParserFacts.forallb_Field|].
  rewrite Forall_forall. rewrite forallb_forall in Hr. intros r Hin.
  apply ParserFacts.forallb_Field. now apply Hr.
Qed.

(** What the parser reads from the text that [insertRow], [insertColumn],
    [deleteRow] and [deleteColumn] write. *)
Lemma written_legacy_parse (headers : list jsstring) (rows : list (list jsstring)) :
  headers <> [] -> Forall Field headers -> Forall (Forall Field) rows ->
  parseTable (generateTableLegacy headers rows ++ [nl]) 0
  = Some (mkTable (mkRow (map mkCell headers))
                  (map (fun _ => str "---") headers)
                  (map (fun row => mkRow (map mkCell (firstn (length headers)
                                                        (padRow (length headers) row)))) rows)
                  0 (1 + length rows)).
Proof.
  intros Hne Hh Hr. apply parseTable_trailing_nl.
  rewrite GenerateFacts.generateTableLegacy_aligned.
  rewrite GenerateFacts.generateTableAligned_parse by assumption.
  unfold generatedTable, headers_.
  cbn [MarkdownParser.headers separator MarkdownParser.rows].
  now rewrite GenerateFacts.mapIndexFrom_no_alignments.
Qed.

(** X16. The text [insertColumn] writes for a table as the parser gives
    them is read back as a valid table: the headers followed by
    [New Column], one separator token [---] for each of them, and every
    row, with its new empty cell, padded or cut to that number of cells. *)
Theorem insertColumn_written (t : ParsedTable) :
  wellFormed t = true ->
  exists t1 written t',
    insertColumn t = (t1, Updated written (str "Column inserted"))
    /\ parseTable written 0 = Some t'
    /\ headerTexts t' = headerTexts t ++ [str "New Column"]
    /\ separator t' = repeat (str "---") (S (length (headerTexts t)))
    /\ rowTexts t'
       = map (fun row => firstn (S (length (headerTexts t)))
                           (padRow (S (length (headerTexts t))) (row ++ [[]])))
             (rowTexts t)
    /\ isValid (validateTable t') = true.
Proof.
  intros Hwf. destruct (wellFormed_fields t Hwf) as [Hh Hr].
  unfold insertColumn. eexists. eexists. eexists. split; [reflexivity|].
  unfold withHeadersAndRows, headerTexts, rowTexts in *.
  cbn [MarkdownParser.headers MarkdownParser.rows cells].
  rewrite map_app, map_map. cbn [map cells content].
  set (hs := map content (cells (headers t))) in *.
  assert (Hlen : length (hs ++ [str "New Column"]) = S (length hs))
    by (rewrite length_app; simpl; lia).
  split.
  - apply written_legacy_parse.
    + destruct hs; discriminate.
    + apply Forall_app. split; [assumption|]. constructor; [|constructor].
      apply ParserFacts.isField_Field. reflexivity.
    + rewrite Forall_forall in *. intros r Hin. apply in_map_iff in Hin.
      destruct Hin as (row & <- & Hrow). rewrite map_app. apply Forall_app.
      split; [apply Hr; apply in_map_iff; eauto|]. constructor; [|constructor].
      apply ParserFacts.isField_Field. reflexivity.
  - cbn [MarkdownParser.headers separator MarkdownParser.rows cells].
    rewrite GenerateFacts.map_content_mkCell. split; [reflexivity|].
    fold hs. rewrite Hlen. split; [|split].
    + rewrite <- Hlen. generalize (hs ++ [str "New Column"]). intros l.
      induction l as [|x l IH]; [reflexivity | cbn [map length repeat]; now rewrite IH].
    + rewrite !map_map. apply map_ext. intros row. cbn [cells].
      rewrite GenerateFacts.map_content_mkCell, map_app. reflexivity.
    + rewrite ValidatorFacts.validateTable_isValid.
      cbn [MarkdownParser.headers separator cells]. rewrite !length_map, Hlen.
      rewrite Nat.eqb_refl. simpl. rewrite forallb_forall. intros tok Htok.
      apply in_map_iff in Htok. now destruct Htok as (x & <- & _).
Qed.

Lemma insertColumn_written_witness :
  exists t1 written t',
    insertColumn Samples.people = (t1, Updated written (str "Column inserted"))
    /\ parseTable written 0 = Some t'
    /\ headerTexts t' = headerTexts Samples.people ++ [str "New Column"]
    /\ separator t' = repeat (str "---") (S (length (headerTexts Samples.people)))
    /\ rowTexts t'
       = map (fun row => firstn (S (length (headerTexts Samples.people)))
                           (padRow (S (length (headerTexts Samples.people))) (row ++ [[]])))
             (rowTexts Samples.people)
    /\ isValid (validateTable t') = true.
Proof. apply (insertColumn_written Samples.people). reflexivity. Defined.

Lemma wellFormed_separator (t : ParsedTable) :
  wellFormed t = true -> forallb isSeparatorField (separator t) = true.
Proof. unfold wellFormed. rewrite !andb_true_iff. tauto. Qed.

Lemma wellFormed_intro (t : ParsedTable) :
  Forall Field (headerTexts t) -> forallb isSeparatorField (separator t) = true ->
  Forall (Forall Field) (rowTexts t) -> wellFormed t = true.
Proof.
  intros Hh Hs Hr. unfold wellFormed. rewrite !andb_true_iff.
  split; [split; [now apply ParserFacts.forallb_Field | assumption]|].
  rewrite forallb_forall. rewrite Forall_forall in Hr. intros r Hin.
  apply ParserFacts.forallb_Field. now apply Hr.
Qed.

(** What the parser reads from the text that [updateTable] writes. *)
Lemma updateTable_parse (t : ParsedTable) :
  wellFormed t = true ->
  parseTable (updateTable t) 0
  = Some (mkTable (mkRow (map mkCell (readBack (headerTexts t))))
                  (readBack (separator t))
                  (map (fun fs => mkRow (map mkCell (readBack fs))) (rowTexts t))
                  0 (1 + length (rows t))).
Proof.
  intros Hwf. destruct (wellFormed_fields t Hwf) as [Hh Hr].
  unfold updateTable. apply parseTable_trailing_nl.
  rewrite ParserFacts.parseTable_generateTable by assumption.
  rewrite GenerateFacts.parseTableRow_rowLine_cells by assumption.
  do 2 f_equal. apply map_ext_in. intros fs Hfs.
  apply GenerateFacts.parseTableRow_rowLine_cells.
  rewrite Forall_forall in Hr. now apply Hr.
Qed.

Lemma spliceIn_map {A B} (f : A -> B) (i : nat) (x : A) (l : list A) :
  map f (spliceIn i x l) = spliceIn i (f x) (map f l).
Proof. unfold spliceIn. now rewrite map_app, firstn_map, skipn_map. Qed.

Lemma spliceIn_length {A} (i : nat) (x : A) (l : list A) :
  length (spliceIn i x l) = S (length l).
Proof.
  unfold spliceIn. rewrite length_app. cbn [length].
  rewrite <- (firstn_skipn i l) at 3. rewrite length_app. lia.
Qed.

Lemma spliceIn_Forall {A} (P : A -> Prop) (i : nat) (x : A) (l : list A) :
  P x -> Forall P l -> Forall P (spliceIn i x l).
Proof.
  intros Hx Hl. unfold spliceIn. rewrite Forall_forall in *. intros y Hy.
  apply in_app_or in Hy. destruct Hy as [Hy | [<- | Hy]]; [|assumption|].
  - apply Hl. now apply in_firstn in Hy.
  - apply Hl. now apply in_skipn in Hy.
Qed.

(** X17. [insertColumnAtCursor] inserts a header and a cell in every row
    but leaves the separator as it was: on a table as the parser gives
    them, whose separator has a token for every header, the text it
    writes has one header more than separator tokens, and read back it is
    a table [validateTable] declares invalid. *)
Theorem insertColumnAtCursor_separator (lines : list jsstring) (t : ParsedTable)
        (cursor : Cursor) :
  wellFormed t = true ->
  length (separator t) = length (cells (headers t)) ->
  separator t <> [] ->
  exists t1 written notice t',
    insertColumnAtCursor lines t cursor = (t1, Updated written notice)
    /\ separator t1 = separator t
    /\ length (cells (headers t1)) = S (length (cells (headers t)))
    /\ parseTable written 0 = Some t'
    /\ separator t' = separator t
    /\ length (cells (headers t')) = S (length (separator t'))
    /\ isValid (validateTable t') = false.
Proof.
  intros Hwf Hlen Hne. destruct (wellFormed_fields t Hwf) as [Hh Hr].
  unfold insertColumnAtCursor.
  set (i := if (getCursorColumnIndex lines t cursor >=? 0)%Z
            then Z.to_nat (getCursorColumnIndex lines t cursor + 1)
            else length (cells (headers t))).
  set (t1 := withHeadersAndRows t _ _).
  assert (Hh1 : headerTexts t1 = spliceIn i (str "New Column") (headerTexts t)).
  { unfold t1, headerTexts, withHeadersAndRows. cbn [MarkdownParser.headers cells].
    apply (spliceIn_map content i (mkCell (str "New Column"))). }
  assert (Hwf1 : wellFormed t1 = true).
  { apply wellFormed_intro.
    - rewrite Hh1. apply spliceIn_Forall; [|assumption].
      apply ParserFacts.isField_Field. reflexivity.
    - exact (wellFormed_separator t Hwf).
    - unfold t1, rowTexts, withHeadersAndRows in *. cbn [MarkdownParser.rows].
      rewrite map_map. cbn [cells]. rewrite Forall_forall in *. intros r Hin.
      apply in_map_iff in Hin. destruct Hin as (row & <- & Hrow).
      rewrite (spliceIn_map content i (mkCell [])). apply spliceIn_Forall.
      + apply ParserFacts.isField_Field. reflexivity.
      + apply Hr. apply in_map_iff. eauto. }
  assert (L1 : length (headerTexts t1) = S (length (cells (headers t)))).
  { rewrite Hh1, spliceIn_length. unfold headerTexts. now rewrite length_map. }
  exists t1, (updateTable t1). eexists. eexists. split; [reflexivity|].
  split; [reflexivity|]. split.
  { unfold headerTexts in L1. now rewrite length_map in L1. }
  split; [now apply updateTable_parse|].
  assert (Rs : readBack (separator t1) = separator t).
  { unfold t1, withHeadersAndRows. cbn [separator]. now destruct (separator t). }
  assert (Rh : length (readBack (headerTexts t1)) = S (length (separator t))).
  { destruct (headerTexts t1); [discriminate | simpl in *; lia]. }
  cbn [separator MarkdownParser.headers cells]. rewrite Rs, length_map, Rh.
  split; [reflexivity|]. split; [reflexivity|].
  rewrite ValidatorFacts.validateTable_isValid.
  cbn [separator MarkdownParser.headers cells]. rewrite length_map, Rh.
  replace (length (separator t) =? S (length (separator t))) with false
    by (symmetry; apply Nat.eqb_neq; lia).
  now rewrite andb_false_r.
Qed.

Lemma insertColumnAtCursor_separator_witness :
  exists t1 written notice t',
    insertColumnAtCursor (split nl Samples.peopleText) Samples.people (mkCursor 2 3)
    = (t1, Updated written notice)
    /\ separator t1 = separator Samples.people
    /\ length (cells (headers t1)) = S (length (cells (headers Samples.people)))
    /\ parseTable written 0 = Some t'
    /\ separator t' = separator Samples.people
    /\ length (cells (headers t')) = S (length (separator t'))
    /\ isValid (validateTable t') = false.
Proof.
  apply (insertColumnAtCursor_separator (split nl Samples.peopleText) Samples.people
           (mkCursor 2 3)).
  - reflexivity.
  - reflexivity.
  - discriminate.
Defined.

(** A table written with a separator that has not as many tokens as
    there are headers is read back as an invalid table. *)
Lemma updateTable_mismatch (t1 : ParsedTable) :
  wellFormed t1 = true -> separator t1 <> [] -> headerTexts t1 <> [] ->
  length (headerTexts t1) <> length (separator t1) ->
  exists t',
    parseTable (updateTable t1) 0 = Some t'
    /\ separator t' = separator t1
    /\ length (cells (headers t')) = length (headerTexts t1)
    /\ isValid (validateTable t') = false.
Proof.
  intros Hwf Hs Hh Hne. eexists. split; [now apply updateTable_parse|].
  assert (Rs : readBack (separator t1) = separator t1) by now destruct (separator t1).
  assert (Rh : readBack (headerTexts t1) = headerTexts t1) by now destruct (headerTexts t1).
  rewrite ValidatorFacts.validateTable_isValid.
  cbn [separator MarkdownParser.headers cells]. rewrite Rs, Rh, length_map.
  split; [reflexivity|]. split; [reflexivity|].
  replace (length (separator t1) =? length (headerTexts t1)) with false
    by (symmetry; apply Nat.eqb_neq; lia).
  now rewrite andb_false_r.
Qed.

Lemma in_removelast {A} (x : A) (l : list A) : In x (removelast l) -> In x l.
Proof.
  induction l as [|y l IH]; [tauto|]. destruct l as [|z l]; [simpl; tauto|].
  cbn [removelast]. intros [<- | H]; [now left | right; now apply IH].
Qed.

Lemma removelast_length {A} (l : list A) : length (removelast l) = length l - 1.
Proof.
  induction l as [|y l IH]; [reflexivity|]. destruct l as [|z l]; [reflexivity|].
  cbn [removelast length] in *. lia.
Qed.

Lemma spliceOut_in {A} (x : A) (i : nat) (l : list A) : In x (snd (spliceOut i l)) -> In x l.
Proof.
  unfold spliceOut. cbn [snd]. intros H. apply in_app_or in H.
  destruct H as [H | H]; [now apply in_firstn in H | now apply in_skipn in H].
Qed.

Lemma spliceOut_length {A} (i : nat) (l : list A) :
  i < length l -> S (length (snd (spliceOut i l))) = length l.
Proof.
  intros H. unfold spliceOut. cbn [snd].
  rewrite length_app, length_firstn, length_skipn. lia.
Qed.

(** A table whose headers and rows are taken from those of a well-formed
    table, with the same separator, is well-formed. *)
Lemma wellFormed_sub (t t1 : ParsedTable) :
  wellFormed t = true -> separator t1 = separator t ->
  (forall c, In c (cells (headers t1)) -> In c (cells (headers t))) ->
  (forall row1, In row1 (rows t1) ->
                exists row, In row (rows t)
                            /\ forall c, In c (cells row1) -> In c (cells row)) ->
  wellFormed t1 = true.
Proof.
  intros Hwf Hs Hh Hr. destruct (wellFormed_fields t Hwf) as [Fh Fr].
  apply wellFormed_intro.
  - unfold headerTexts in *. rewrite Forall_forall in *. intros f Hf.
    apply in_map_iff in Hf. destruct Hf as (c & <- & Hc).
    apply Fh. apply in_map. now apply Hh.
  - rewrite Hs. now apply wellFormed_separator.
  - unfold rowTexts in *. rewrite Forall_forall in *. intros fs Hfs.
    apply in_map_iff in Hfs. destruct Hfs as (row1 & <- & Hrow1).
    destruct (Hr row1 Hrow1) as (row & Hrow & Hsub).
    specialize (Fr (map content (cells row)) ltac:(apply in_map_iff; eauto)).
    rewrite Forall_forall in *. intros f Hf.
    apply in_map_iff in Hf. destruct Hf as (c & <- & Hc).
    apply Fr. apply in_map. now apply Hsub.
Qed.

(** X18. [deleteColumnAtCursor] removes a header and a cell of every row
    but leaves the separator as it was: on a table as the parser gives
    them, with two columns or more and a separator token for every
    header, the text it writes has one header fewer than separator
    tokens, and read back it is a table [validateTable] declares
    invalid. *)
Theorem deleteColumnAtCursor_separator (lines : list jsstring) (t : ParsedTable)
        (cursor : Cursor) :
  wellFormed t = true ->
  length (separator t) = length (cells (headers t)) ->
  2 <= length (cells (headers t)) ->
  exists t1 written notice t',
    deleteColumnAtCursor lines t cursor = (t1, Updated written notice)
    /\ separator t1 = separator t
    /\ S (length (cells (headers t1))) = length (cells (headers t))
    /\ parseTable written 0 = Some t'
    /\ separator t' = separator t
    /\ S (length (cells (headers t'))) = length (separator t')
    /\ isValid (validateTable t') = false.
Proof.
  intros Hwf Hlen Hn. unfold deleteColumnAtCursor.
  replace (length (cells (headers t)) <=? 1) with false
    by (symmetry; apply Nat.leb_gt; lia).
  assert (Hsep : separator t <> []) by (destruct (separator t); [simpl in Hlen; lia | discriminate]).
  assert (K : forall t1 notice,
             separator t1 = separator t ->
             S (length (cells (headers t1))) = length (cells (headers t)) ->
             wellFormed t1 = true ->
             exists t1' written notice' t',
               (t1, Updated (updateTable t1) notice) = (t1', Updated written notice')
               /\ separator t1' = separator t
               /\ S (length (cells (headers t1'))) = length (cells (headers t))
               /\ parseTable written 0 = Some t'
               /\ separator t' = separator t
               /\ S (length (cells (headers t'))) = length (separator t')
               /\ isValid (validateTable t') = false).
  { intros t1 notice Hs1 Hl1 Hwf1.
    assert (Lh : length (headerTexts t1) = length (cells (headers t1)))
      by (unfold headerTexts; apply length_map).
    destruct (updateTable_mismatch t1 Hwf1) as (t' & Hp & Hs' & Hl' & Hv).
    - now rewrite Hs1.
    - destruct (headerTexts t1); [simpl in Lh; lia | discriminate].
    - rewrite Hs1. lia.
    - exists t1, (updateTable t1), notice, t'. rewrite Hs', Hl', Hs1. repeat split; auto; lia. }
  destruct ((getCursorColumnIndex lines t cursor >=? 0)%Z
            && (getCursorColumnIndex lines t cursor <? columnCount t)%Z) eqn:E.
  - apply andb_true_iff in E. destruct E as [E1 E2]. unfold columnCount in E2.
    apply Z.ltb_lt in E2. rewrite Z.geb_leb in E1. apply Z.leb_le in E1.
    set (c := Z.to_nat (getCursorColumnIndex lines t cursor)).
    assert (Hc : c < length (cells (headers t))) by (unfold c; lia).
    apply K.
    + reflexivity.
    + unfold withHeadersAndRows. cbn [MarkdownParser.headers cells].
      now apply spliceOut_length.
    + apply (wellFormed_sub t); [assumption | reflexivity | |].
      * unfold withHeadersAndRows. cbn [MarkdownParser.headers cells].
        intros x. apply spliceOut_in.
      * unfold withHeadersAndRows. cbn [MarkdownParser.rows]. intros row1 Hin.
        apply in_map_iff in Hin. destruct Hin as (row & <- & Hrow).
        exists row. split; [assumption|].
        destruct (c <? length (cells row)); [|auto].
        cbn [cells]. intros x. apply spliceOut_in.
  - apply K.
    + reflexivity.
    + unfold withHeadersAndRows, pop. cbn [MarkdownParser.headers cells].
      rewrite removelast_length. lia.
    + apply (wellFormed_sub t); [assumption | reflexivity | |].
      * unfold withHeadersAndRows, pop. cbn [MarkdownParser.headers cells].
        intros x. apply in_removelast.
      * unfold withHeadersAndRows, pop. cbn [MarkdownParser.rows]. intros row1 Hin.
        apply in_map_iff in Hin. destruct Hin as (row & <- & Hrow).
        exists row. split; [assumption|].
        destruct (0 <? length (cells row)); [|auto].
        cbn [cells]. intros x. apply in_removelast.
Qed.

Lemma deleteColumnAtCursor_separator_witness :
  exists t1 written notice t',
    deleteColumnAtCursor (split nl Samples.peopleText) Samples.people (mkCursor 2 3)
    = (t1, Updated written notice)
    /\ separator t1 = separator Samples.people
    /\ S (length (cells (headers t1))) = length (cells (headers Samples.people))
    /\ parseTable written 0 = Some t'
    /\ separator t' = separator Samples.people
    /\ S (length (cells (headers t'))) = length (separator t')
    /\ isValid (validateTable t') = false.
Proof.
  apply (deleteColumnAtCursor_separator (split nl Samples.peopleText) Samples.people
           (mkCursor 2 3)).
  - reflexivity.
  - reflexivity.
  - simpl. lia.
Defined.

(** [moveRow] with both indices in range. *)
Lemma moveRow_moves (table : ParsedTable) (fromIndex toIndex : Z) (eng : Engine) :
  (0 <= fromIndex < Z.of_nat (length (rows table)))%Z ->
  (0 <= toIndex < Z.of_nat (length (rows table)))%Z ->
  exists rows' notice,
    moveRow table fromIndex toIndex eng
    = (mkEngine (sortAscending eng) (lastSortedColumn eng) toIndex
                (lastModifiedColumn eng),
       withRows table rows',
       Updated (generateTable (withRows table rows') ++ [nl]) notice)
    /\ moved (Z.to_nat fromIndex) (Z.to_nat toIndex) (rows table) rows'.
Proof.
  intros Hf Ht. unfold moveRow.
  destruct (((fromIndex <? 0) || (fromIndex >=? Z.of_nat (length (rows table)))
             || (toIndex <? 0) || (toIndex >=? Z.of_nat (length (rows table))))%Z) eqn:E.
  { apply MutationFacts.outOfRange_test in E. exfalso. apply E. split; assumption. }
  destruct (nth_error (rows table) (Z.to_nat fromIndex)) as [row|] eqn:Hrow.
  - unfold spliceOut. rewrite Hrow. eexists. eexists. split; [reflexivity|].
    apply (MutationFacts.moved_spliceIn (Z.to_nat fromIndex) (Z.to_nat toIndex)
             (rows table) row Hrow). lia.
  - apply nth_error_None in Hrow. lia.
Qed.

(** X19. [moveRow] is refused, leaving the engine state and the table
    as they were and writing nothing, exactly when an index is outside
    [0, rows.length).  Otherwise the row at [fromIndex] moves to
    [toIndex], the other rows keep their order, headers and separator
    are untouched, [lastModifiedRow] becomes [toIndex], and the
    serialized table is what is written. *)
Theorem moveRow_atomic (table : ParsedTable) (fromIndex toIndex : Z) (eng : Engine) :
  let inRange := (0 <= fromIndex < Z.of_nat (length (rows table)))%Z
                 /\ (0 <= toIndex < Z.of_nat (length (rows table)))%Z in
  (~ inRange ->
   moveRow table fromIndex toIndex eng = (eng, table, Refused (str "Invalid row indices")))
  /\ (inRange ->
      exists rows' notice,
        moveRow table fromIndex toIndex eng
        = (mkEngine (sortAscending eng) (lastSortedColumn eng) toIndex
                    (lastModifiedColumn eng),
           withRows table rows',
           Updated (generateTable (withRows table rows') ++ [nl]) notice)
        /\ moved (Z.to_nat fromIndex) (Z.to_nat toIndex) (rows table) rows').
Proof.
  intros inRange. split.
  - intros Hout. apply MutationFacts.outOfRange_test in Hout.
    unfold moveRow. now rewrite Hout.
  - intros [Hf Ht]. now apply moveRow_moves.
Qed.

Lemma moveRow_atomic_witness :
  moveRow Samples.people 0 2 newEngine
  = (newEngine, Samples.people, Refused (str "Invalid row indices"))
  /\ exists rows' notice,
       moveRow Samples.people 0 1 newEngine
       = (mkEngine (sortAscending newEngine) (lastSortedColumn newEngine) 1
                   (lastModifiedColumn newEngine),
          withRows Samples.people rows',
          Updated (generateTable (withRows Samples.people rows') ++ [nl]) notice)
       /\ moved (Z.to_nat 0) (Z.to_nat 1) (rows Samples.people) rows'.
Proof.
  split.
  - apply (proj1 (moveRow_atomic Samples.people 0 2 newEngine)). simpl. lia.
  - apply (proj2 (moveRow_atomic Samples.people 0 1 newEngine)). simpl. lia.
Defined.

(** X20. With [lastModifiedRow] at -1 or above, as every write to it
    leaves it, the move that [promptMoveRow] asks for is one [moveRow]
    accepts: both indices are rows of the table and [direction] apart.
    After that move, on any table with as many rows and wherever the
    cursor is, the next call moves the same row again, as long as its new
    index is a row of the table. *)
Theorem promptMoveRow_accepted (direction : Z) (table : ParsedTable) (cursor : Cursor)
        (eng : Engine) (fromIndex toIndex : Z) :
  (-1 <= lastModifiedRow eng)%Z ->
  TableToolbar.promptMoveRow direction table cursor eng = Some (fromIndex, toIndex) ->
  (0 <= fromIndex < Z.of_nat (length (rows table)))%Z
  /\ (0 <= toIndex < Z.of_nat (length (rows table)))%Z
  /\ toIndex = (fromIndex + direction)%Z
  /\ exists eng' table' written notice,
       moveRow table fromIndex toIndex eng = (eng', table', Updated written notice)
       /\ length (rows table') = length (rows table)
       /\ forall table2 cursor',
            length (rows table2) = length (rows table) ->
            TableToolbar.promptMoveRow direction table2 cursor' eng'
            = if ((toIndex + direction >=? 0)
                  && (toIndex + direction <? Z.of_nat (length (rows table))))%Z
              then Some (toIndex, (toIndex + direction)%Z) else None.
Proof.
  intros Hlast H. unfold TableToolbar.promptMoveRow, TableToolbar.getCurrentRowIndex in H.
  set (n := Z.of_nat (length (rows table))) in *.
  assert (R : (0 <= fromIndex < n)%Z /\ (0 <= toIndex < n)%Z
              /\ toIndex = (fromIndex + direction)%Z).
  { destruct ((lastModifiedRow eng =? -1)%Z || (lastModifiedRow eng >=? n)%Z) eqn:E.
    - match type of H with context [Z.max ?a ?b] => set (r := Z.max a b) in * end.
      destruct (r =? -1)%Z; [discriminate|].
      destruct ((r + direction >=? 0)%Z && (r + direction <? n)%Z) eqn:E2; [|discriminate].
      injection H as <- <-. apply andb_true_iff in E2. destruct E2 as [A B].
      rewrite Z.geb_leb in A. apply Z.leb_le in A. apply Z.ltb_lt in B.
      unfold r in *. lia.
    - apply orb_false_iff in E. destruct E as [E1 E2].
      apply Z.eqb_neq in E1. rewrite Z.geb_leb in E2. apply Z.leb_gt in E2.
      destruct (lastModifiedRow eng =? -1)%Z; [discriminate|].
      destruct ((lastModifiedRow eng + direction >=? 0)%Z
                && (lastModifiedRow eng + direction <? n)%Z) eqn:E3; [|discriminate].
      injection H as <- <-. apply andb_true_iff in E3. destruct E3 as [A B].
      rewrite Z.geb_leb in A. apply Z.leb_le in A. apply Z.ltb_lt in B. lia. }
  destruct R as (Rf & Rt & Rd). split; [assumption|]. split; [assumption|].
  split; [assumption|].
  destruct (moveRow_moves table fromIndex toIndex eng Rf Rt)
    as (rows' & notice & -> & Hm).
  eexists. eexists. eexists. eexists. split; [reflexivity|].
  unfold withRows. cbn [MarkdownParser.rows]. destruct Hm as (Hlen & _).
  split; [assumption|]. intros table2 cursor' Hlen2.
  unfold TableToolbar.promptMoveRow. cbn [lastModifiedRow].
  rewrite Hlen2. fold n.
  replace ((toIndex =? -1)%Z || (toIndex >=? n)%Z) with false
    by (symmetry; apply orb_false_iff; split; [apply Z.eqb_neq | rewrite Z.geb_leb; apply Z.leb_gt]; lia).
  replace (toIndex =? -1)%Z with false by (symmetry; apply Z.eqb_neq; lia).
  reflexivity.
Qed.

Lemma promptMoveRow_accepted_witness :
  (0 <= 0 < Z.of_nat (length (rows Samples.people)))%Z
  /\ (0 <= 1 < Z.of_nat (length (rows Samples.people)))%Z
  /\ 1%Z = (0 + 1)%Z
  /\ exists eng' table' written notice,
       moveRow Samples.people 0 1 newEngine = (eng', table', Updated written notice)
       /\ length (rows table') = length (rows Samples.people)
       /\ forall table2 cursor',
            length (rows table2) = length (rows Samples.people) ->
            TableToolbar.promptMoveRow 1 table2 cursor' eng'
            = if ((1 + 1 >=? 0) && (1 + 1 <? Z.of_nat (length (rows Samples.people))))%Z
              then Some (1%Z, (1 + 1)%Z) else None.
Proof.
  apply (promptMoveRow_accepted 1 Samples.people (mkCursor 2 3) newEngine 0 1).
  - simpl. lia.
  - reflexivity.
Defined.

Lemma spliceOut_spliceIn {A} (i : nat) (x : A) (l : list A) :
  i <= length l -> snd (spliceOut i (spliceIn i x l)) = l.
Proof.
  intros Hi. unfold spliceOut, spliceIn. cbn [snd].
  assert (L : length (firstn i l) = i) by (rewrite length_firstn; lia).
  rewrite firstn_app, L, Nat.sub_diag, firstn_O, app_nil_r.
  rewrite firstn_firstn, Nat.min_id.
  rewrite skipn_app, L. rewrite (skipn_all2 (n := S i) (firstn i l)) by lia.
  replace (S i - i) with 1 by lia. cbn [skipn app]. apply firstn_skipn.
Qed.

Lemma withRows_same (table : ParsedTable) (rows' : list TableRow) :
  withRows (withRows table rows') (rows table) = table.
Proof. now destruct table. Qed.

Lemma getCursorRowIndex_on (t : ParsedTable) (k : nat) :
  k < length (rows t) ->
  getCursorRowIndex t (Z.of_nat (startLine t + 2 + k)) = Z.of_nat k.
Proof.
  intros Hk. unfold getCursorRowIndex. cbv zeta.
  replace (Z.of_nat (startLine t + 2 + k) - (Z.of_nat (startLine t) + 2))%Z
    with (Z.of_nat k) by lia.
  replace ((0 <=? Z.of_nat k)%Z && (Z.of_nat k <? Z.of_nat (length (rows t)))%Z) with true
    by (symmetry; apply andb_true_iff; split; [apply Z.leb_le | apply Z.ltb_lt]; lia).
  reflexivity.
Qed.

(** X21. [insertRowAtCursor] puts the new empty row just below the row
    of the cursor, or at the end of the table when the cursor is on no
    data row; [deleteRowAtCursor] with the cursor on the line of the new
    row then gives the table of before back. *)
Theorem insertRowAtCursor_undo (table : ParsedTable) (cursor : Cursor) :
  exists i,
    rows (fst (insertRowAtCursor table cursor))
    = firstn i (rows table) ++ emptyRow (length (cells (headers table)))
        :: skipn i (rows table)
    /\ i <= length (rows table)
    /\ (forall k, k < length (rows table) ->
                  line cursor = Z.of_nat (startLine table + 2 + k) -> i = S k)
    /\ ((forall k, k < length (rows table) ->
                   line cursor <> Z.of_nat (startLine table + 2 + k)) ->
        i = length (rows table))
    /\ forall c,
         fst (deleteRowAtCursor (fst (insertRowAtCursor table cursor))
                (mkCursor (Z.of_nat (startLine table + 2 + i)) c))
         = table.
Proof.
  unfold insertRowAtCursor. cbn [fst].
  set (i := if (getCursorRowIndex table (line cursor) >=? 0)%Z
            then Z.to_nat (getCursorRowIndex table (line cursor) + 1)
            else length (rows table)).
  set (n := length (rows table)).
  assert (Hi : i <= n
               /\ (forall k, k < n -> line cursor = Z.of_nat (startLine table + 2 + k) -> i = S k)
               /\ ((forall k, k < n -> line cursor <> Z.of_nat (startLine table + 2 + k)) ->
                   i = n)).
  { unfold i, getCursorRowIndex. cbv zeta. fold n.
    destruct ((0 <=? line cursor - (Z.of_nat (startLine table) + 2))%Z
              && (line cursor - (Z.of_nat (startLine table) + 2) <? Z.of_nat n)%Z) eqn:E.
    - apply andb_true_iff in E. destruct E as [A B].
      apply Z.leb_le in A. apply Z.ltb_lt in B.
      replace (line cursor - (Z.of_nat (startLine table) + 2) >=? 0)%Z with true
        by (symmetry; rewrite Z.geb_leb; apply Z.leb_le; lia).
      split; [lia|]. split; [intros k Hk Hl; lia|].
      intros H. exfalso.
      apply (H (Z.to_nat (line cursor - (Z.of_nat (startLine table) + 2)))); lia.
    - change (-1 >=? 0)%Z with false. split; [lia|]. split; [|reflexivity].
      intros k Hk Hl. exfalso. apply andb_false_iff in E.
      destruct E as [E | E]; [apply Z.leb_gt in E | apply Z.ltb_ge in E]; lia. }
  destruct Hi as (Hle & Hon & Hoff).
  exists i. split; [reflexivity|]. split; [assumption|]. split; [assumption|].
  split; [assumption|]. intros c.
  set (t1 := withRows table _).
  assert (L1 : length (rows t1) = S n) by apply spliceIn_length.
  assert (G : getCursorRowIndex t1 (Z.of_nat (startLine table + 2 + i)) = Z.of_nat i).
  { apply (getCursorRowIndex_on t1 i). lia. }
  unfold deleteRowAtCursor. cbn [line]. rewrite G, L1. cbn [Nat.eqb].
  replace ((Z.of_nat i >=? 0)%Z && (Z.of_nat i <? Z.of_nat (S n))%Z) with true
    by (symmetry; apply andb_true_iff; split;
        [rewrite Z.geb_leb; apply Z.leb_le | apply Z.ltb_lt]; lia).
  cbn [fst]. rewrite Nat2Z.id. unfold t1 at 2. unfold withRows at 2.
  cbn [MarkdownParser.rows]. rewrite spliceOut_spliceIn by assumption.
  apply withRows_same.
Qed.

Lemma padded_row_fixed (n : nat) (row : list jsstring) :
  length row = n -> firstn n (padRow n row) = row.
Proof.
  intros H. unfold padRow. rewrite H, Nat.sub_diag, app_nil_r.
  apply firstn_all2. lia.
Qed.

(** The legacy serializer writes rows that are already padded and cut as
    it writes the rows they were made from. *)
Lemma generateTableLegacy_padded (headers : list jsstring) (rows : list (list jsstring)) :
  generateTableLegacy headers
    (map (fun row => firstn (length headers) (padRow (length headers) row)) rows)
  = generateTableLegacy headers rows.
Proof.
  unfold generateTableLegacy. do 3 f_equal. rewrite map_map.
  apply map_ext. intros row. f_equal. apply padded_row_fixed.
  apply GenerateFacts.padded_row_length.
Qed.

Lemma removelast_map {A B} (f : A -> B) (l : list A) :
  removelast (map f l) = map f (removelast l).
Proof.
  induction l as [|x l IH]; [reflexivity|]. destruct l as [|y l]; [reflexivity|].
  cbn [map removelast] in *. now rewrite IH.
Qed.

Lemma removelast_repeat {A} (x : A) (n : nat) :
  removelast (repeat x (S n)) = repeat x n.
Proof.
  induction n as [|n IH]; [reflexivity|].
  change (repeat x (S (S n))) with (x :: repeat x (S n)).
  change (removelast (x :: repeat x (S n))) with (x :: removelast (repeat x (S n))).
  now rewrite IH.
Qed.

(** A row with one more empty cell, padded and cut to one more column and
    then without its last cell, is the row padded and cut. *)
Lemma padded_row_removelast (n : nat) (row : list jsstring) :
  removelast (firstn (S n) (padRow (S n) (row ++ [[]]))) = firstn n (padRow n row).
Proof.
  unfold padRow. rewrite length_app. cbn [length].
  destruct (Nat.le_gt_cases (length row) n) as [Hle | Hgt].
  - replace (S n - (length row + 1)) with (n - length row) by lia.
    rewrite <- app_assoc. cbn [app].
    change ([] :: repeat [] (n - length row))
      with (repeat (@nil ascii) (S (n - length row))).
    rewrite (firstn_all2 (n := S n)) by (rewrite length_app, repeat_length; lia).
    rewrite (firstn_all2 (n := n)) by (rewrite length_app, repeat_length; lia).
    rewrite removelast_app by discriminate. now rewrite removelast_repeat.
  - replace (S n - (length row + 1)) with 0 by lia.
    replace (n - length row) with 0 by lia. cbn [repeat]. rewrite !app_nil_r.
    rewrite firstn_app. replace (S n - length row) with 0 by lia.
    rewrite firstn_O, app_nil_r. apply removelast_firstn. lia.
Qed.

Lemma headerTexts_mk (h : TableRow) (sep : list jsstring) (rs : list TableRow) (a b : nat) :
  headerTexts (mkTable h sep rs a b) = map content (cells h).
Proof. reflexivity. Qed.

Lemma rowTexts_mk (h : TableRow) (sep : list jsstring) (rs : list TableRow) (a b : nat) :
  rowTexts (mkTable h sep rs a b) = map (fun row => map content (cells row)) rs.
Proof. reflexivity. Qed.

Lemma rowTexts_cells (rows : list (list jsstring)) :
  map (fun row => map content (cells row))
      (map (fun row => mkRow (map mkCell row)) rows)
  = rows.
Proof.
  rewrite map_map. rewrite <- (map_id rows) at 2. apply map_ext. intros row.
  cbn [cells]. apply GenerateFacts.map_content_mkCell.
Qed.

(** X22. An insertion followed by the deletion, through the text each
    command writes and the next one parses: for a table as the parser
    gives them, with at least one column, [deleteRow] on the table parsed
    from what [insertRow] wrote, and [deleteColumn] on the table parsed
    from what [insertColumn] wrote, both write the legacy serialization
    of the first headers and rows.  That text is read back as the first
    headers, but with every row padded or cut to their number and every
    separator token [---]: the first table comes back only up to this
    normalisation. *)
Theorem insert_delete_written (t : ParsedTable) :
  wellFormed t = true -> cells (headers t) <> [] ->
  (exists t0 written t1 t2,
     insertRow t = (t0, Updated written (str "Row inserted"))
     /\ parseTable written 0 = Some t1
     /\ deleteRow t1
        = (t2, Updated (generateTableLegacy (headerTexts t) (rowTexts t) ++ [nl])
                 (str "Row deleted")))
  /\ (exists t0 written t1 t2,
        insertColumn t = (t0, Updated written (str "Column inserted"))
        /\ parseTable written 0 = Some t1
        /\ deleteColumn t1
           = (t2, Updated (generateTableLegacy (headerTexts t) (rowTexts t) ++ [nl])
                    (str "Column deleted")))
  /\ (exists t',
        parseTable (generateTableLegacy (headerTexts t) (rowTexts t) ++ [nl]) 0 = Some t'
        /\ headerTexts t' = headerTexts t
        /\ separator t' = map (fun _ => str "---") (headerTexts t)
        /\ rowTexts t'
           = map (fun row => firstn (length (headerTexts t))
                               (padRow (length (headerTexts t)) row))
                 (rowTexts t)).
Proof.
  intros Hwf Hne. destruct (wellFormed_fields t Hwf) as [Hh Hr].
  assert (Hempty : Field []) by (apply ParserFacts.isField_Field; reflexivity).
  assert (Hhs : headerTexts t <> []).
  { unfold headerTexts. destruct (cells (headers t)); [congruence | discriminate]. }
  assert (Hn : length (headerTexts t) = length (cells (headers t)))
    by (unfold headerTexts; apply length_map).
  split; [|split].
  - unfold insertRow. eexists. eexists. eexists. eexists.
    split; [reflexivity|].
    assert (Eh : headerTexts (withRows t (rows t ++ [emptyRow (length (cells (headers t)))]))
                 = headerTexts t) by reflexivity.
    assert (Er : rowTexts (withRows t (rows t ++ [emptyRow (length (cells (headers t)))]))
                 = rowTexts t ++ [repeat [] (length (cells (headers t)))]).
    { unfold rowTexts, withRows, emptyRow. cbn [MarkdownParser.rows].
      rewrite map_app. cbn [map cells]. now rewrite map_repeat. }
    rewrite Eh, Er. split.
    + apply written_legacy_parse; [assumption | assumption|].
      apply Forall_app. split; [assumption|]. constructor; [|constructor].
      rewrite Forall_forall. intros c Hc. apply repeat_spec in Hc. now subst c.
    + unfold deleteRow, pop. cbn [MarkdownParser.rows].
      rewrite map_app, length_app. cbn [map length].
      replace (length (map _ (rowTexts t)) + 1 =? 0) with false
        by (symmetry; apply Nat.eqb_neq; lia).
      rewrite removelast_last.
      apply f_equal2; [reflexivity|]. apply f_equal2; [|reflexivity]. f_equal.
      rewrite headerTexts_mk, rowTexts_mk. cbn [MarkdownParser.headers cells].
      rewrite GenerateFacts.map_content_mkCell.
      rewrite <- (map_map (fun row => firstn (length (headerTexts t))
                                        (padRow (length (headerTexts t)) row))
                          (fun row => mkRow (map mkCell row))).
      rewrite rowTexts_cells. apply generateTableLegacy_padded.
  - unfold insertColumn. eexists. eexists. eexists. eexists.
    split; [reflexivity|].
    set (t0 := withHeadersAndRows t _ _).
    assert (Eh : headerTexts t0 = headerTexts t ++ [str "New Column"]).
    { unfold t0, headerTexts, withHeadersAndRows. cbn [MarkdownParser.headers cells].
      now rewrite map_app. }
    assert (Er : rowTexts t0 = map (fun row => row ++ [[]]) (rowTexts t)).
    { unfold t0, rowTexts, withHeadersAndRows. cbn [MarkdownParser.rows].
      rewrite !map_map. apply map_ext. intros row. cbn [cells]. now rewrite map_app. }
    assert (Hlen : length (headerTexts t ++ [str "New Column"]) = S (length (headerTexts t)))
      by (rewrite length_app; simpl; lia).
    rewrite Eh, Er. split.
    + apply written_legacy_parse.
      * destruct (headerTexts t); discriminate.
      * apply Forall_app. split; [assumption|]. constructor; [|constructor].
        apply ParserFacts.isField_Field. reflexivity.
      * rewrite Forall_forall in *. intros r Hin. apply in_map_iff in Hin.
        destruct Hin as (row & <- & Hrow). apply Forall_app.
        split; [now apply Hr|]. constructor; [assumption | constructor].
    + unfold deleteColumn, pop. cbn [MarkdownParser.headers MarkdownParser.rows cells
                                     separator startLine endLine].
      rewrite length_map, Hlen.
      replace (S (length (headerTexts t)) <=? 1) with false
        by (symmetry; apply Nat.leb_gt; destruct (headerTexts t); [congruence | simpl; lia]).
      apply f_equal2; [reflexivity|]. apply f_equal2; [|reflexivity]. f_equal.
      rewrite headerTexts_mk, rowTexts_mk. cbn [MarkdownParser.headers cells].
      rewrite (map_app mkCell).
      change (map mkCell [str "New Column"]) with [mkCell (str "New Column")].
      rewrite removelast_last, GenerateFacts.map_content_mkCell.
      rewrite <- (generateTableLegacy_padded (headerTexts t) (rowTexts t)).
      f_equal. rewrite !map_map. apply map_ext. intros row. cbn [cells].
      rewrite length_map, GenerateFacts.padded_row_length.
      cbn [Nat.ltb Nat.leb cells].
      rewrite removelast_map, GenerateFacts.map_content_mkCell.
      apply padded_row_removelast.
  - eexists. split; [now apply written_legacy_parse|].
    rewrite headerTexts_mk, rowTexts_mk. cbn [separator cells].
    rewrite GenerateFacts.map_content_mkCell.
    split; [reflexivity|]. split; [reflexivity|].
    rewrite <- (map_map (fun row => firstn (length (headerTexts t))
                                      (padRow (length (headerTexts t)) row))
                        (fun row => mkRow (map mkCell row))).
    apply rowTexts_cells.
Qed.

Lemma insert_delete_written_witness :
  (exists t0 written t1 t2,
     insertRow Samples.people = (t0, Updated written (str "Row inserted"))
     /\ parseTable written 0 = Some t1
     /\ deleteRow t1
        = (t2, Updated (generateTableLegacy (headerTexts Samples.people)
                          (rowTexts Samples.people) ++ [nl])
                 (str "Row deleted")))
  /\ (exists t0 written t1 t2,
        insertColumn Samples.people = (t0, Updated written (str "Column inserted"))
        /\ parseTable written 0 = Some t1
        /\ deleteColumn t1
           = (t2, Updated (generateTableLegacy (headerTexts Samples.people)
                             (rowTexts Samples.people) ++ [nl])
                    (str "Column deleted")))
  /\ (exists t',
        parseTable (generateTableLegacy (headerTexts Samples.people)
                      (rowTexts Samples.people) ++ [nl]) 0 = Some t'
        /\ headerTexts t' = headerTexts Samples.people
        /\ separator t' = map (fun _ => str "---") (headerTexts Samples.people)
        /\ rowTexts t'
           = map (fun row => firstn (length (headerTexts Samples.people))
                               (padRow (length (headerTexts Samples.people)) row))
                 (rowTexts Samples.people)).
Proof.
  apply (insert_delete_written Samples.people).
  - reflexivity.
  - discriminate.
Defined.

Lemma insertRowAtCursor_undo_witness :
  exists i,
    rows (fst (insertRowAtCursor Samples.people (mkCursor 2 0)))
    = firstn i (rows Samples.people)
        ++ emptyRow (length (cells (headers Samples.people))) :: skipn i (rows Samples.people)
    /\ i = 1
    /\ fst (deleteRowAtCursor (fst (insertRowAtCursor Samples.people (mkCursor 2 0)))
              (mkCursor (Z.of_nat (startLine Samples.people + 2 + i)) 0))
       = Samples.people.
Proof.
  destruct (insertRowAtCursor_undo Samples.people (mkCursor 2 0)) as (i & A & _ & C & _ & E).
  exists i. split; [exact A|]. split; [apply (C 0); simpl; lia | apply E].
Defined.

End EditFacts.

(* ===================================================================== *)
(** * The cursor, rows and columns *)
(* ===================================================================== *)

Module PositionFacts.

Import JSFacts.

Lemma parseTable_endLine (text : jsstring) (start : nat) (t : ParsedTable) :
  parseTable text start = Some t -> endLine t = startLine t + 1 + length (rows t).
Proof.
  unfold parseTable. cbv zeta.
  destruct (findTableStart start (skipn start (split nl text))) as [[[i h] rest]|];
    [|discriminate].
  destruct rest as [|sl rest]; [discriminate|].
  destruct (isSeparatorLine sl); [|discriminate].
  simpl. intros H. injection H as <-. cbn [startLine endLine rows]. lia.
Qed.

(** X23. On a parsed table [getCursorRowIndex] gives a row exactly for
    the lines of the data rows, from two lines below the header line to
    the last line of the table, and -1 for every other line. *)
Theorem getCursorRowIndex_parsed (text : jsstring) (start : nat) (t : ParsedTable)
        (cursorLine : Z) :
  parseTable text start = Some t ->
  getCursorRowIndex t cursorLine
  = if ((Z.of_nat (startLine t) + 2 <=? cursorLine)
        && (cursorLine <=? Z.of_nat (endLine t)))%Z
    then (cursorLine - Z.of_nat (startLine t) - 2)%Z else (-1)%Z.
Proof.
  intros H. apply parseTable_endLine in H. unfold getCursorRowIndex. cbv zeta.
  rewrite H.
  destruct ((0 <=? cursorLine - (Z.of_nat (startLine t) + 2))%Z
            && (cursorLine - (Z.of_nat (startLine t) + 2)
                <? Z.of_nat (length (rows t)))%Z) eqn:E.
  - apply andb_true_iff in E. destruct E as [A B].
    apply Z.leb_le in A. apply Z.ltb_lt in B.
    replace ((Z.of_nat (startLine t) + 2 <=? cursorLine)%Z
             && (cursorLine <=? Z.of_nat (startLine t + 1 + length (rows t)))%Z)
      with true
      by (symmetry; apply andb_true_iff; split; apply Z.leb_le; lia).
    lia.
  - replace ((Z.of_nat (startLine t) + 2 <=? cursorLine)%Z
             && (cursorLine <=? Z.of_nat (startLine t + 1 + length (rows t)))%Z)
      with false; [reflexivity|].
    symmetry. apply andb_false_iff. apply andb_false_iff in E.
    destruct E as [E | E]; [left; apply Z.leb_gt in E | right; apply Z.ltb_ge in E];
      apply Z.leb_gt; lia.
Qed.

Lemma getCursorRowIndex_parsed_witness :
  getCursorRowIndex Samples.people 3
  = if ((Z.of_nat (startLine Samples.people) + 2 <=? 3)
        && (3 <=? Z.of_nat (endLine Samples.people)))%Z
    then (3 - Z.of_nat (startLine Samples.people) - 2)%Z else (-1)%Z.
Proof. apply (getCursorRowIndex_parsed Samples.peopleText 0 Samples.people 3). reflexivity. Defined.

(** X24. [restoreCursorToLogicalPosition] puts the cursor where
    [getCursorRowIndex] and [getCursorColumnIndex] read the target row
    and column back: for a table whose data rows lie within its lines, a
    target column of the header with its two pipes on the target line at
    least two characters apart, the cursor it sets is on the target row
    when that is a row of the table, on the header line otherwise, and in
    the target column. *)
Theorem restoreCursor_readBack (lines : list jsstring) (table : ParsedTable)
        (targetColumnIndex targetRowIndex : Z) (cursor : Cursor) :
  startLine table + 1 + length (rows table) <= endLine table ->
  restoreCursorToLogicalPosition lines table targetColumnIndex targetRowIndex
  = Some cursor ->
  (0 <= targetColumnIndex < columnCount table)%Z ->
  S (Z.to_nat targetColumnIndex) < length (pipePositions (lineOrEmpty lines (line cursor))) ->
  (nth (Z.to_nat targetColumnIndex) (pipePositions (lineOrEmpty lines (line cursor))) 0 + 2
   <= nth (S (Z.to_nat targetColumnIndex))
          (pipePositions (lineOrEmpty lines (line cursor))) 0)%Z ->
  getCursorColumnIndex lines table cursor = targetColumnIndex
  /\ ((0 <= targetRowIndex < Z.of_nat (length (rows table)))%Z ->
      getCursorRowIndex table (line cursor) = targetRowIndex)
  /\ (~ (0 <= targetRowIndex < Z.of_nat (length (rows table)))%Z ->
      line cursor = Z.of_nat (startLine table)).
Proof.
  intros Hend H Hcol Hlen Hgap. unfold restoreCursorToLogicalPosition in H.
  set (tl := if ((targetRowIndex >=? 0)
                 && (targetRowIndex <? Z.of_nat (length (rows table))))%Z
             then (Z.of_nat (startLine table) + 2 + targetRowIndex)%Z
             else Z.of_nat (startLine table)) in *.
  cbv zeta in H.
  destruct (negb (includesChar pipe (lineOrEmpty lines tl))); [discriminate|].
  injection H as <-. cbn [line] in *.
  set (p := pipePositions (lineOrEmpty lines tl)) in *.
  set (c := Z.to_nat targetColumnIndex) in *.
  replace ((targetColumnIndex >=? 0)%Z
           && (targetColumnIndex <? Z.of_nat (length p) - 1)%Z) with true
    by (symmetry; apply andb_true_iff; split;
        [rewrite Z.geb_leb; apply Z.leb_le | apply Z.ltb_lt]; unfold c in *; lia).
  replace (Z.to_nat (targetColumnIndex + 1)) with (S c) by (unfold c; lia).
  set (a := nth c p 0%Z) in *. set (b := nth (S c) p 0%Z) in *.
  assert (Hmid : (a < (a + b) / 2 <= b)%Z).
  { pose proof (Z.div_mod (a + b) 2 ltac:(lia)).
    pose proof (Z.mod_pos_bound (a + b) 2 ltac:(lia)). lia. }
  assert (Htl : (Z.of_nat (startLine table) <= tl <= Z.of_nat (endLine table))%Z
                /\ ((0 <= targetRowIndex < Z.of_nat (length (rows table)))%Z ->
                    tl = (Z.of_nat (startLine table) + 2 + targetRowIndex)%Z)
                /\ (~ (0 <= targetRowIndex < Z.of_nat (length (rows table)))%Z ->
                    tl = Z.of_nat (startLine table))).
  { unfold tl.
    destruct ((targetRowIndex >=? 0)%Z
              && (targetRowIndex <? Z.of_nat (length (rows table)))%Z) eqn:E.
    - apply andb_true_iff in E. destruct E as [A B].
      rewrite Z.geb_leb in A. apply Z.leb_le in A. apply Z.ltb_lt in B.
      split; [lia|]. split; [reflexivity | intros N; lia].
    - split; [lia|]. split; [|reflexivity]. intros [A B].
      apply andb_false_iff in E. rewrite Z.geb_leb in E.
      destruct E as [E | E]; [apply Z.leb_gt in E | apply Z.ltb_ge in E]; lia. }
  destruct Htl as (Hin & Hrow & Hhead).
  split; [|split].
  - assert (Ht : targetLine lines table (mkCursor tl ((a + b) / 2)) = lineOrEmpty lines tl).
    { unfold targetLine. cbn [line].
      replace ((tl >=? Z.of_nat (startLine table))%Z
               && (tl <=? Z.of_nat (endLine table))%Z) with true; [reflexivity|].
      symmetry. apply andb_true_iff. split; [rewrite Z.geb_leb|]; apply Z.leb_le; lia. }
    rewrite CursorFacts.getCursorColumnIndex_pipes; rewrite Ht; fold p; [|lia].
    cbv zeta. cbn [ch].
    rewrite (CursorFacts.findColumn_between ((a + b) / 2) p c 0
               (CursorFacts.pipePositions_sorted _) Hlen Hmid).
    replace (0 + Z.of_nat c)%Z with targetColumnIndex by (unfold c; lia).
    assert (N : (targetColumnIndex =? -1)%Z = false) by (apply Z.eqb_neq; lia).
    rewrite N. cbn [andb]. rewrite N. cbn [andb]. unfold columnOrNone.
    replace ((0 <=? targetColumnIndex)%Z && (targetColumnIndex <? columnCount table)%Z)
      with true; [reflexivity|].
    symmetry. apply andb_true_iff. split; [apply Z.leb_le | apply Z.ltb_lt]; lia.
  - intros Hr. rewrite (Hrow Hr). unfold getCursorRowIndex. cbv zeta.
    replace (Z.of_nat (startLine table) + 2 + targetRowIndex
             - (Z.of_nat (startLine table) + 2))%Z with targetRowIndex by lia.
    replace ((0 <=? targetRowIndex)%Z
             && (targetRowIndex <? Z.of_nat (length (rows table)))%Z) with true;
      [reflexivity|].
    symmetry. apply andb_true_iff. split; [apply Z.leb_le | apply Z.ltb_lt]; lia.
  - exact Hhead.
Qed.

Lemma restoreCursor_readBack_witness :
  getCursorColumnIndex (split nl Samples.peopleText) Samples.people (mkCursor 3 9) = 1%Z
  /\ getCursorRowIndex Samples.people (line (mkCursor 3 9)) = 1%Z.
Proof.
  assert (H : startLine Samples.people + 1 + length (rows Samples.people)
              <= endLine Samples.people) by (simpl; lia).
  pose proof (restoreCursor_readBack (split nl Samples.peopleText) Samples.people 1 1
                (mkCursor 3 9) H eq_refl) as R.
  destruct R as (A & B & _).
  - vm_compute. split; [discriminate | reflexivity].
  - vm_compute. lia.
  - vm_compute. discriminate.
  - split; [exact A | apply B; simpl; lia].
Defined.

Lemma overlappingCells_step (fromCh toCh k a b : Z) (rest : list Z) :
  overlappingCells fromCh toCh k (a :: b :: rest)
  = if negb ((toCh <=? a) || (fromCh >=? b))%Z
    then k :: overlappingCells fromCh toCh (k + 1) (b :: rest)
    else overlappingCells fromCh toCh (k + 1) (b :: rest).
Proof. reflexivity. Qed.

Lemma overlappingCells_none (fromCh toCh : Z) (ps : list Z) : forall k : Z,
  Forall (fun x => (toCh <= x)%Z) ps -> overlappingCells fromCh toCh k ps = [].
Proof.
  induction ps as [|a ps IH]; intros k H; [reflexivity|].
  destruct ps as [|b ps]; [reflexivity|].
  rewrite overlappingCells_step. inversion H; subst.
  replace (toCh <=? a)%Z with true by (symmetry; apply Z.leb_le; lia).
  cbn [orb negb]. now apply IH.
Qed.

Lemma overlappingCells_one (fromCh toCh : Z) (ps : list Z) : forall (i : nat) (k : Z),
  StronglySorted Z.lt ps -> S i < length ps ->
  (nth i ps 0 <= fromCh)%Z -> (fromCh < toCh)%Z -> (toCh <= nth (S i) ps 0)%Z ->
  overlappingCells fromCh toCh k ps = [(k + Z.of_nat i)%Z].
Proof.
  induction ps as [|a ps IH]; intros i k Hs Hi Hlo Hlt Hhi; [simpl in Hi; lia|].
  destruct ps as [|b ps]; [simpl in Hi; lia|].
  apply StronglySorted_inv in Hs. destruct Hs as [Hs' Hall].
  rewrite overlappingCells_step. destruct i as [|i].
  - simpl in Hlo, Hhi.
    replace (toCh <=? a)%Z with false by (symmetry; apply Z.leb_gt; lia).
    replace (fromCh >=? b)%Z with false
      by (symmetry; rewrite Z.geb_leb; apply Z.leb_gt; lia).
    cbn [orb negb]. rewrite overlappingCells_none.
    + f_equal. lia.
    + apply StronglySorted_inv in Hs'. destruct Hs' as [_ Hb].
      constructor; [lia|]. eapply Forall_impl; [|exact Hb]. simpl. intros; lia.
  - change (nth (S i) (a :: b :: ps) 0%Z) with (nth i (b :: ps) 0%Z) in Hlo.
    change (nth (S (S i)) (a :: b :: ps) 0%Z) with (nth (S i) (b :: ps) 0%Z) in Hhi.
    assert (Hb : (b <= nth i (b :: ps) 0)%Z)
      by (apply CursorFacts.sorted_nth_le; [assumption | simpl in *; lia]).
    replace (fromCh >=? b)%Z with true
      by (symmetry; rewrite Z.geb_leb; apply Z.leb_le; lia).
    rewrite orb_true_r. cbn [negb].
    rewrite (IH i (k + 1)%Z); [f_equal; lia | assumption | simpl in *; lia | | |];
      assumption.
Qed.

(** X25. A selection that lies within one cell of a line, between two
    neighbouring pipes, selects exactly that cell. *)
Theorem findSelectedCells_one (lineContent : jsstring) (fromCh toCh : Z) (i : nat) :
  S i < length (pipePositions lineContent) ->
  (nth i (pipePositions lineContent) 0 <= fromCh)%Z ->
  (fromCh < toCh)%Z ->
  (toCh <= nth (S i) (pipePositions lineContent) 0)%Z ->
  findSelectedCells lineContent fromCh toCh = [Z.of_nat i].
Proof.
  intros Hi Hlo Hlt Hhi. unfold findSelectedCells.
  replace (length (pipePositions lineContent) <? 2) with false
    by (symmetry; apply Nat.ltb_ge; lia).
  rewrite (overlappingCells_one fromCh toCh _ i 0
             (CursorFacts.pipePositions_sorted _) Hi Hlo Hlt Hhi).
  reflexivity.
Qed.

Lemma findSelectedCells_one_witness :
  findSelectedCells (str "| a | b | c |") 5 7 = [Z.of_nat 1].
Proof.
  apply (findSelectedCells_one (str "| a | b | c |") 5 7 1).
  - vm_compute. lia.
  - vm_compute. discriminate.
  - lia.
  - vm_compute. discriminate.
Defined.

Lemma pipePositionsFrom_bound (s : jsstring) : forall k : Z,
  Forall (fun x => (k <= x < k + Z.of_nat (length s))%Z) (pipePositionsFrom k s).
Proof.
  induction s as [|c s IH]; intros k; [constructor|].
  cbn [pipePositionsFrom length].
  assert (H : Forall (fun x => (k <= x < k + Z.of_nat (S (length s)))%Z)
                     (pipePositionsFrom (k + 1) s)).
  { eapply Forall_impl; [|apply IH]. simpl. intros; lia. }
  destruct (Ascii.eqb c pipe); [constructor; [lia | exact H] | exact H].
Qed.

Lemma filter_none {A} (f : A -> bool) (l : list A) :
  Forall (fun x => f x = false) l -> filter f l = [].
Proof.
  induction 1 as [|x l Hx _ IH]; [reflexivity|]. simpl. now rewrite Hx.
Qed.

Lemma filter_all {A} (f : A -> bool) (l : list A) :
  Forall (fun x => f x = true) l -> filter f l = l.
Proof.
  induction 1 as [|x l Hx _ IH]; [reflexivity|]. simpl. now rewrite Hx, IH.
Qed.

(** The pipes the toolbar counts among the first [n] characters are the
    pipe positions below [n]. *)
Lemma countPipes_positions (s : jsstring) : forall (n : nat) (k : Z),
  TableToolbar.countPipes n s
  = Z.of_nat (length (filter (fun x => (x <? k + Z.of_nat n)%Z) (pipePositionsFrom k s))).
Proof.
  induction s as [|c s IH]; intros n k; [now destruct n|].
  destruct n as [|n].
  - cbn [TableToolbar.countPipes]. rewrite filter_none; [reflexivity|].
    eapply Forall_impl; [|apply pipePositionsFrom_bound]. simpl.
    intros x Hx. apply Z.ltb_ge. lia.
  - cbn [TableToolbar.countPipes pipePositionsFrom]. rewrite (IH n (k + 1)%Z).
    replace (k + 1 + Z.of_nat n)%Z with (k + Z.of_nat (S n))%Z by lia.
    destruct (Ascii.eqb c pipe); [|lia].
    cbn [filter]. replace (k <? k + Z.of_nat (S n))%Z with true
      by (symmetry; apply Z.ltb_lt; lia).
    cbn [length]. lia.
Qed.

Lemma countPipes_before (s : jsstring) (ch : Z) :
  TableToolbar.countPipes (Z.to_nat (Z.min ch (Z.of_nat (length s)))) s
  = Z.of_nat (length (filter (fun x => (x <? ch)%Z) (pipePositions s))).
Proof.
  rewrite (countPipes_positions s _ 0). unfold pipePositions. do 2 f_equal.
  apply filter_ext_in. intros x Hx.
  pose proof (pipePositionsFrom_bound s 0) as B. rewrite Forall_forall in B.
  specialize (B x Hx).
  destruct (Z.ltb_spec x ch); [apply Z.ltb_lt | apply Z.ltb_ge]; lia.
Qed.

Lemma filter_head {A} (f : A -> bool) (a : A) (l : list A) :
  f a = true -> filter f (a :: l) = a :: filter f l.
Proof. intros H. simpl. now rewrite H. Qed.

(** The column the manager's loop finds is the number of pipes before
    the offset, less one. *)
Lemma findColumn_count (ch : Z) (rest : list Z) : forall (a k : Z),
  StronglySorted Z.lt (a :: rest) -> (a < ch)%Z ->
  (exists x, In x rest /\ (ch <= x)%Z) ->
  findColumn ch k (a :: rest)
  = (k + Z.of_nat (length (filter (fun x => (x <? ch)%Z) (a :: rest))) - 1)%Z.
Proof.
  induction rest as [|b rest IH]; intros a k Hs Ha (x & Hx & Hch); [destruct Hx|].
  apply StronglySorted_inv in Hs. destruct Hs as [Hs' Hall].
  rewrite CursorFacts.findColumn_step.
  rewrite (filter_head (fun x => (x <? ch)%Z) a (b :: rest)) by (apply Z.ltb_lt; lia).
  destruct (Z.leb_spec ch b) as [Hb | Hb].
  - replace (ch >? a)%Z with true by (symmetry; apply Z.gtb_lt; lia).
    cbn [andb]. rewrite filter_none; [cbn [length]; lia|].
    apply StronglySorted_inv in Hs'. destruct Hs' as [_ Hrest].
    constructor; [apply Z.ltb_ge; lia|].
    eapply Forall_impl; [|exact Hrest]. simpl. intros y Hy. apply Z.ltb_ge. lia.
  - rewrite andb_false_r. rewrite IH; [cbn [length]; lia | assumption | assumption |].
    destruct Hx as [<- | Hx]; [lia|]. eauto.
Qed.

(** X26. The toolbar's [getCurrentColumnIndex] and the manager's
    [getCursorColumnIndex] agree on a line with at least two pipes as
    long as the cursor is not after the last pipe; after the last pipe
    the toolbar counts one column more than the manager. *)
Theorem getCurrentColumnIndex_agrees (lines : list jsstring) (table : ParsedTable)
        (cursor : Cursor) :
  let p := pipePositions (targetLine lines table cursor) in
  2 <= length p ->
  ((ch cursor <= nth (length p - 1) p 0)%Z ->
   TableToolbar.getCurrentColumnIndex lines table cursor
   = getCursorColumnIndex lines table cursor)
  /\ ((nth (length p - 1) p 0 < ch cursor)%Z ->
      TableToolbar.getCurrentColumnIndex lines table cursor
      = columnOrNone table (Z.of_nat (length p) - 1)
      /\ getCursorColumnIndex lines table cursor
         = columnOrNone table (Z.of_nat (length p) - 2)).
Proof.
  intros p Hn.
  pose proof (CursorFacts.pipePositions_sorted (targetLine lines table cursor)) as Hs.
  pose proof (CursorFacts.sorted_bounds _ Hs) as Hb. fold p in Hs, Hb.
  rewrite (CursorFacts.getCursorColumnIndex_pipes lines table cursor Hn). fold p.
  assert (T : TableToolbar.getCurrentColumnIndex lines table cursor
              = columnOrNone table
                  (Z.max 0 (Z.of_nat (length (filter (fun x => (x <? ch cursor)%Z) p)) - 1))).
  { unfold TableToolbar.getCurrentColumnIndex. cbv zeta.
    rewrite countPipes_before. fold p. unfold columnOrNone. now rewrite Z.geb_leb. }
  rewrite T. cbv zeta. split.
  - intros Hlast. destruct (Z.leb_spec (ch cursor) (nth 0 p 0%Z)) as [H0 | H0].
    + rewrite CursorFacts.findColumn_before.
      2:{ eapply Forall_impl; [|exact Hb]. simpl. intros; lia. }
      rewrite filter_none.
      2:{ eapply Forall_impl; [|exact Hb]. simpl. intros x Hx. apply Z.ltb_ge. lia. }
      replace (ch cursor <=? nth 0 p 0)%Z with true by (symmetry; apply Z.leb_le; lia).
      reflexivity.
    + destruct p as [|a rest] eqn:Ep; [simpl in Hn; lia|].
      rewrite (findColumn_count (ch cursor) rest a 0 Hs H0).
      2:{ exists (nth (length (a :: rest) - 1) (a :: rest) 0%Z). split; [|exact Hlast].
          destruct rest as [|b rest]; [simpl in Hn; lia|].
          change (length (a :: b :: rest) - 1) with (S (length rest)).
          change (nth (S (length rest)) (a :: b :: rest) 0%Z)
            with (nth (length rest) (b :: rest) 0%Z).
          apply nth_In. simpl. lia. }
      set (cnt := Z.of_nat (length (filter (fun x => (x <? ch cursor)%Z) (a :: rest)))).
      assert (Hc : (1 <= cnt)%Z).
      { unfold cnt. simpl in H0.
        rewrite (filter_head (fun x => (x <? ch cursor)%Z) a rest) by (apply Z.ltb_lt; lia).
        cbn [length]. lia. }
      replace (0 + cnt - 1 =? -1)%Z with false by (symmetry; apply Z.eqb_neq; lia).
      cbn [andb].
      replace (0 + cnt - 1 =? -1)%Z with false by (symmetry; apply Z.eqb_neq; lia).
      cbn [andb]. f_equal. lia.
  - intros Hlast.
    assert (Hall : Forall (fun x => (x < ch cursor)%Z) p).
    { eapply Forall_impl; [|exact Hb]. simpl. intros; lia. }
    rewrite CursorFacts.findColumn_after by assumption.
    rewrite filter_all.
    2:{ eapply Forall_impl; [|exact Hall]. simpl. intros x Hx. now apply Z.ltb_lt. }
    split; [f_equal; lia|].
    assert (H0 : (nth 0 p 0 < ch cursor)%Z).
    { destruct p as [|a rest]; [simpl in Hn; lia|]. inversion Hall; subst. assumption. }
    replace (ch cursor <=? nth 0 p 0)%Z with false by (symmetry; apply Z.leb_gt; lia).
    rewrite andb_false_r.
    replace (ch cursor >? nth (length p - 1) p 0)%Z with true
      by (symmetry; apply Z.gtb_lt; lia).
    reflexivity.
Qed.

Lemma getCurrentColumnIndex_agrees_witness :
  TableToolbar.getCurrentColumnIndex (split nl Samples.peopleText) Samples.people
    (mkCursor 2 6)
  = getCursorColumnIndex (split nl Samples.peopleText) Samples.people (mkCursor 2 6)
  /\ TableToolbar.getCurrentColumnIndex (split nl Samples.peopleText) Samples.people
       (mkCursor 2 20)
     = columnOrNone Samples.people
         (Z.of_nat (length (pipePositions
                              (targetLine (split nl Samples.peopleText) Samples.people
                                 (mkCursor 2 20)))) - 1)
  /\ getCursorColumnIndex (split nl Samples.peopleText) Samples.people (mkCursor 2 20)
     = columnOrNone Samples.people
         (Z.of_nat (length (pipePositions
                              (targetLine (split nl Samples.peopleText) Samples.people
                                 (mkCursor 2 20)))) - 2).
Proof.
  split.
  - apply (proj1 (getCurrentColumnIndex_agrees (split nl Samples.peopleText)
                    Samples.people (mkCursor 2 6) ltac:(vm_compute; lia))).
    vm_compute. discriminate.
  - apply (proj2 (getCurrentColumnIndex_agrees (split nl Samples.peopleText)
                    Samples.people (mkCursor 2 20) ltac:(vm_compute; lia))).
    vm_compute. reflexivity.
Defined.

End PositionFacts.

(* ===================================================================== *)
(** * CSV export and the line splitter *)
(* ===================================================================== *)

Module ExportFacts.

Import JSFacts.

(** Outside quotes the splitter appends every character that is neither
    a comma nor a quote. *)
Lemma parseCSVLineFrom_plain (cc : jsstring) : forall (cur rest : jsstring),
  ~ In ","%char cc -> ~ In dquote cc ->
  parseCSVLineFrom false cur (cc ++ rest) = parseCSVLineFrom false (cur ++ cc) rest.
Proof.
  induction cc as [|c cc IH]; intros cur rest Hc Hq.
  - now rewrite app_nil_r.
  - cbn [app parseCSVLineFrom].
    destruct (Ascii.eqb_spec c dquote) as [-> | Hd]; [exfalso; apply Hq; now left|].
    destruct (Ascii.eqb_spec c ","%char) as [-> | Hk]; [exfalso; apply Hc; now left|].
    cbn [andb]. rewrite IH by (simpl in *; tauto). now rewrite <- app_assoc.
Qed.

(** Inside quotes the splitter reads a text with doubled quotes back as
    the text, up to the closing quote. *)
Lemma parseCSVLineFrom_quoted (cc : jsstring) : forall (cur rest : jsstring),
  (rest = [] \/ exists x r, rest = x :: r /\ x <> dquote) ->
  parseCSVLineFrom true cur (doubleQuotes cc ++ dquote :: rest)
  = parseCSVLineFrom false (cur ++ cc) rest.
Proof.
  induction cc as [|c cc IH]; intros cur rest Hrest.
  - rewrite app_nil_r. cbn [doubleQuotes flat_map app parseCSVLineFrom].
    rewrite Ascii.eqb_refl. destruct Hrest as [-> | (x & r & -> & Hx)]; [reflexivity|].
    destruct (Ascii.eqb_spec x dquote); [contradiction | reflexivity].
  - unfold doubleQuotes. cbn [flat_map]. fold (doubleQuotes cc).
    destruct (Ascii.eqb_spec c dquote) as [-> | Hd].
    + cbn [app parseCSVLineFrom]. rewrite !Ascii.eqb_refl.
      rewrite IH by assumption. now rewrite <- app_assoc.
    + cbn [app parseCSVLineFrom].
      destruct (Ascii.eqb_spec c dquote); [contradiction|].
      rewrite andb_false_r. rewrite IH by assumption. now rewrite <- app_assoc.
Qed.

(** One exported cell, read by the splitter. *)
Lemma parseCSVLineFrom_cell (content rest : jsstring) :
  (rest = [] \/ exists x r, rest = x :: r /\ x <> dquote) ->
  parseCSVLineFrom false [] (escapeCsvCell content ++ rest)
  = parseCSVLineFrom false (tagsRemoved content) rest.
Proof.
  intros Hrest. unfold escapeCsvCell. cbv zeta. fold (tagsRemoved content).
  destruct (includesChar "," (tagsRemoved content) || includesChar dquote (tagsRemoved content)
            || includesChar nl (tagsRemoved content)) eqn:E.
  - rewrite <- !app_assoc. cbn [app parseCSVLineFrom]. rewrite Ascii.eqb_refl.
    now rewrite parseCSVLineFrom_quoted.
  - apply orb_false_iff in E. destruct E as [E _].
    apply orb_false_iff in E. destruct E as [Ec Eq].
    apply includesChar_false in Ec. apply includesChar_false in Eq.
    now rewrite parseCSVLineFrom_plain.
Qed.

Lemma parseCSVLineFrom_comma (cur rest : jsstring) :
  parseCSVLineFrom false cur (","%char :: rest)
  = trim cur :: parseCSVLineFrom false [] rest.
Proof. reflexivity. Qed.

(** X27. The splitter of the CSV import reads a line of the CSV export
    back: for the cells of a row, at least one, [parseCSVLine] on the
    cells escaped by [escapeCsvCell] and joined with commas gives every
    cell back, without its HTML tags and trimmed, whatever commas, quotes
    or line breaks the cells hold. *)
Theorem parseCSVLine_escapeCsvCell (cellContents : list jsstring) :
  cellContents <> [] ->
  parseCSVLine (join (str ",") (map escapeCsvCell cellContents))
  = map (fun content => trim (tagsRemoved content)) cellContents.
Proof.
  unfold parseCSVLine. induction cellContents as [|c cs IH]; intros Hne; [congruence|].
  destruct cs as [|c2 cs].
  - cbn [map join]. rewrite <- (app_nil_r (escapeCsvCell c)).
    rewrite parseCSVLineFrom_cell by now left. reflexivity.
  - cbn [map]. rewrite join_cons by discriminate.
    rewrite parseCSVLineFrom_cell.
    + change (str "," ++ join (str ",") (escapeCsvCell c2 :: map escapeCsvCell cs))
        with (","%char :: join (str ",") (map escapeCsvCell (c2 :: cs))).
      rewrite parseCSVLineFrom_comma. f_equal. apply IH. discriminate.
    + right. eexists. eexists. split; [reflexivity | discriminate].
Qed.

Lemma parseCSVLine_escapeCsvCell_witness :
  parseCSVLine (join (str ",") (map escapeCsvCell
                                  [str "John, Jr."; str " 25 "; str "<b>x</b>"]))
  = map (fun content => trim (tagsRemoved content))
        [str "John, Jr."; str " 25 "; str "<b>x</b>"].
Proof.
  apply (parseCSVLine_escapeCsvCell [str "John, Jr."; str " 25 "; str "<b>x</b>"]).
  discriminate.
Defined.

Lemma parseCSVLineFrom_split (s : jsstring) : forall cur : jsstring,
  ~ In dquote s ->
  parseCSVLineFrom false cur s
  = trim (cur ++ fst (splitFields "," s)) :: map trim (snd (splitFields "," s)).
Proof.
  induction s as [|c s IH]; intros cur Hq.
  - simpl. now rewrite app_nil_r.
  - cbn [parseCSVLineFrom splitFields].
    destruct (Ascii.eqb_spec c dquote) as [-> | Hd]; [exfalso; apply Hq; now left|].
    assert (Hq' : ~ In dquote s) by (simpl in Hq; tauto).
    destruct (splitFields "," s) as [f fs] eqn:E.
    destruct (Ascii.eqb_spec c ","%char) as [-> | Hk]; cbn [andb negb fst snd map].
    + rewrite app_nil_r. f_equal. rewrite (IH [] Hq'). reflexivity.
    + rewrite (IH (cur ++ [c]) Hq'). cbn [fst snd]. now rewrite <- app_assoc.
Qed.

(** X28. On a line without a double quote the splitter is a split at the
    commas followed by a trim of every field. *)
Theorem parseCSVLine_unquoted (line : jsstring) :
  ~ In dquote line -> parseCSVLine line = map trim (split ","%char line).
Proof.
  intros Hq. unfold parseCSVLine, split. rewrite parseCSVLineFrom_split by assumption.
  now destruct (splitFields "," line).
Qed.

Lemma parseCSVLine_unquoted_witness :
  parseCSVLine (str "name, age ,city") = map trim (split ","%char (str "name, age ,city")).
Proof.
  apply (parseCSVLine_unquoted (str "name, age ,city")).
  apply includesChar_false. reflexivity.
Defined.

End ExportFacts.

(* ===================================================================== *)
(** * Colors: applying again, removing, and reading the class back *)
(* ===================================================================== *)

Module RecolorFacts.

Import JSFacts.

(** X29. On a cell whose cleaned content holds no '<' and is not blank,
    a colored cell is colored again as the plain cell is: the same color
    changes nothing, another color replaces the wrapper instead of
    nesting, and the empty color gives the cleaned content back. *)
Theorem applyCellColor_recolor (cell : TableCell) (color color' : jsstring) :
  color <> [] ->
  ~ In "<"%char (cleanContent (content cell)) ->
  trim (cleanContent (content cell)) <> [] ->
  applyCellColor (applyCellColor cell color) color' = applyCellColor cell color'.
Proof.
  intros Hc Hplain Hblank. destruct color as [|c0 color]; [congruence|].
  destruct (ColorFacts.getColorClass_alphaNum (c0 :: color)) as [hash [Eh Hh]].
  set (clean := cleanContent (content cell)) in *.
  assert (E1 : applyCellColor cell (c0 :: color) = mkCell (colorWrapper hash clean)).
  { unfold applyCellColor. fold clean. rewrite Eh.
    destruct (trim clean); [congruence|]. f_equal. }
  rewrite E1. unfold applyCellColor. cbn [content]. fold clean.
  now rewrite (ColorFacts.cleanContent_wrapper hash clean Hh Hplain).
Qed.

Lemma applyCellColor_recolor_witness :
  applyCellColor (applyCellColor (mkCell (str "Apple")) (str "#ff0000")) (str "#00ff00")
  = applyCellColor (mkCell (str "Apple")) (str "#00ff00").
Proof.
  apply (applyCellColor_recolor (mkCell (str "Apple")) (str "#ff0000") (str "#00ff00")).
  - discriminate.
  - apply includesChar_false. reflexivity.
  - discriminate.
Defined.

Lemma isHexDigit_isAlphaNum (c : ascii) : isHexDigit c = true -> isAlphaNum c = true.
Proof.
  unfold isHexDigit, isAlphaNum. cbv zeta.
  rewrite !orb_true_iff, !andb_true_iff, !Nat.leb_le. lia.
Qed.

Lemma removeFirstText_prefix (p s : jsstring) : removeFirstText p (p ++ s) = s.
Proof.
  destruct (p ++ s) eqn:E; cbn [removeFirstText]; rewrite <- E;
    now rewrite ColorFacts.stripPrefix_app.
Qed.

(** X30. [extractColorFromClassName] reads back the color that
    [getColorClass] made the class name from, for a color written as '#'
    and six hexadecimal digits. *)
Theorem extractColorFromClassName_getColorClass (digits : jsstring) :
  length digits = 6 -> forallb isHexDigit digits = true ->
  extractColorFromClassName (getColorClass ("#"%char :: digits)) = "#"%char :: digits.
Proof.
  intros Hlen Hhex. unfold getColorClass. cbv zeta. cbn [removeFirst].
  rewrite Ascii.eqb_refl.
  assert (F : filter isAlphaNum digits = digits).
  { rewrite forallb_forall in Hhex. clear Hlen.
    induction digits as [|d ds IH]; [reflexivity|]. cbn [filter].
    rewrite (isHexDigit_isAlphaNum d) by (apply Hhex; now left).
    f_equal. apply IH. intros x Hx. apply Hhex. now right. }
  rewrite F. unfold extractColorFromClassName. cbv zeta.
  rewrite removeFirstText_prefix, Hlen, Hhex. cbn [Nat.eqb andb].
  now destruct digits.
Qed.

Lemma extractColorFromClassName_getColorClass_witness :
  extractColorFromClassName (getColorClass ("#"%char :: str "ff00aa"))
  = "#"%char :: str "ff00aa".
Proof.
  apply (extractColorFromClassName_getColorClass (str "ff00aa")); reflexivity.
Defined.

End RecolorFacts.
